(** * Logging, request coalescing and caching (src/utils/logger.ts)

    A shallow embedding of [Logger], [RequestCoalescer],
    [CachedRequestCoalescer], [createKey] and [coalesceFunction].  The two
    coalescer classes are asynchronous: [execute] returns a
    promise, and the bookkeeping is finished by reaction jobs that run when
    the promise returned by the caller's thunk settles.  The embedding makes
    the JavaScript job queue explicit: a coalescer is a state machine whose
    events are the method calls made by the application and the jobs run by
    the host ([Settle]: the thunk's promise settles; [React]: the
    [.then]/[.catch] continuation installed by [execute] runs; [Deliver]: the
    promise handed to one caller adopts the outcome). *)

From stdpp Require Import gmap strings list fin_maps pretty.
From Stdlib Require Import ZArith Lia Ascii.

#[local] Set Warnings "-clear-no-such-hyp".



(** ** Promises and the instrumented host *)

Module Host.
Section host.
Context {K V E : Type}.

(** How a promise ends: [resolve(v)] or [reject(e)]. *)
Inductive outcome := Fulfilled (v : V) | Rejected (e : E).

(** The promise built by [request().then(..).catch(..)].  [Running]: the
    promise returned by [request()] has not settled.  [Settling o]: it has
    settled with [o] and the reaction job is queued but has not run.
    [Done o]: the continuation has run and the chained promise is settled. *)
Inductive chain_state := Running | Settling (o : outcome) | Done (o : outcome).

Record chain := Chain { chain_key : K; chain_st : chain_state }.

(** The promise an [async execute] call returns to its caller: settled on
    the spot ([Direct]), or resolved with a chained promise that it adopts
    ([Adopt p], from [return pending] and [return promise]). *)
Inductive source := Direct | Adopt (p : nat).

Record call := Call {
  call_key : K;
  call_source : source;
  call_promise : option outcome   (* None: still pending *)
}.

(** A caller-supplied [request] thunk.  [thunk_id] names the function
    object; [thunk_throws] is [Some e] for a thunk that throws [e] before
    returning a promise, [None] for one that returns a promise (every
    [async] function). *)
Record thunk := Thunk { thunk_id : nat; thunk_throws : option E }.

(** Promises are numbered in creation order; [invoked] logs every call of
    a thunk, in order. *)
Record host := MkHost {
  chains : list chain;
  calls : list call;
  invoked : list thunk
}.

Definition empty_host : host := MkHost [] [] [].

Definition log_invocation (request : thunk) (h : host) : host :=
  MkHost (chains h) (calls h) (invoked h ++ [request]).

(** [request().then(..).catch(..)] for [key]: a new chained promise. *)
Definition spawn (key : K) (h : host) : host :=
  MkHost (chains h ++ [Chain key Running]) (calls h) (invoked h).

Definition add_call (key : K) (src : source) (pr : option outcome) (h : host) : host :=
  MkHost (chains h) (calls h ++ [Call key src pr]) (invoked h).

Definition set_chain (p : nat) (st : chain_state) (h : host) : host :=
  MkHost (alter (λ c, Chain (chain_key c) st) p (chains h)) (calls h) (invoked h).

(** The promise returned by the thunk of chain [p] settles with [o]. *)
Definition settle (p : nat) (o : outcome) (h : host) : option host :=
  c ← chains h !! p;
  match chain_st c with
  | Running => Some (set_chain p (Settling o) h)
  | _ => None
  end.

(** The chain whose reaction job is due, with the settled outcome. *)
Definition due (p : nat) (h : host) : option (K * outcome) :=
  c ← chains h !! p;
  match chain_st c with
  | Settling o => Some (chain_key c, o)
  | _ => None
  end.

(** The promise of call [c] adopts the outcome of the chain it was
    resolved with. *)
Definition deliver (c : nat) (h : host) : option host :=
  cl ← calls h !! c;
  match call_source cl, call_promise cl with
  | Adopt p, None =>
      ch ← chains h !! p;
      match chain_st ch with
      | Done o =>
          Some (MkHost (chains h)
                  (<[c := Call (call_key cl) (Adopt p) (Some o)]> (calls h))
                  (invoked h))
      | _ => None
      end
  | _, _ => None
  end.

(** What the caller of call [c] has received so far. *)
Definition received (c : nat) (h : host) : option outcome :=
  cl ← calls h !! c; call_promise cl.

Definition chain_state_of (p : nat) (h : host) : option chain_state :=
  chain_st <$> chains h !! p.

End host.
Global Arguments outcome : clear implicits.
Global Arguments chain_state : clear implicits.
Global Arguments chain : clear implicits.
Global Arguments call : clear implicits.
Global Arguments thunk : clear implicits.
Global Arguments host : clear implicits.
End Host.
Import Host.

(** ** class RequestCoalescer *)

Module RequestCoalescer.
Section coalescer.
Context `{Countable K} {V E : Type}.

(** [pendingRequests = new Map<TKey, Promise<TResult>>()], the promises by
    their number in the host. *)
Record state := State {
  pendingRequests : gmap K nat;
  rt : host K V E
}.

Definition init : state := State ∅ empty_host.

(** [async execute(key, request)] *)
Definition execute (key : K) (request : thunk E) (s : state) : state :=
  match pendingRequests s !! key with
  | Some pending =>
      (* return pending *)
      State (pendingRequests s) (add_call key (Adopt pending) None (rt s))
  | None =>
      let h := log_invocation request (rt s) in
      match thunk_throws request with
      | Some e =>
          (* request() threw: the async function rejects, nothing is set *)
          State (pendingRequests s) (add_call key Direct (Some (Rejected e)) h)
      | None =>
          let promise := length (chains h) in
          State (<[key := promise]> (pendingRequests s))
                (add_call key (Adopt promise) None (spawn key h))
      end
  end.

(** [.then(result => { this.pendingRequests.delete(key); return result; })] *)
Definition on_fulfilled (key : K) (result : V) (s : state) : state * outcome V E :=
  (State (delete key (pendingRequests s)) (rt s), Fulfilled result).

(** [.catch(error => { this.pendingRequests.delete(key); throw error; })] *)
Definition on_rejected (key : K) (error : E) (s : state) : state * outcome V E :=
  (State (delete key (pendingRequests s)) (rt s), Rejected error).

(** The reaction job of chain [p]: the continuation runs, then the chained
    promise settles with what it returned or threw. *)
Definition react (p : nat) (s : state) : option state :=
  '(key, o) ← due p (rt s);
  let '(s', o') :=
    match o with
    | Fulfilled result => on_fulfilled key result s
    | Rejected error => on_rejected key error s
    end in
  Some (State (pendingRequests s') (set_chain p (Done o') (rt s'))).

Definition isPending (key : K) (s : state) : bool :=
  bool_decide (is_Some (pendingRequests s !! key)).

Definition getPendingCount (s : state) : nat := size (pendingRequests s).

Definition clear (key : K) (s : state) : state :=
  State (delete key (pendingRequests s)) (rt s).

Definition clearAll (s : state) : state := State ∅ (rt s).

Inductive event :=
| Execute (key : K) (request : thunk E)
| Clear (key : K)
| ClearAll
| Settle (p : nat) (o : outcome V E)
| React (p : nat)
| Deliver (c : nat).

Definition step (s : state) (ev : event) : option state :=
  match ev with
  | Execute key request => Some (execute key request s)
  | Clear key => Some (clear key s)
  | ClearAll => Some (clearAll s)
  | Settle p o => State (pendingRequests s) <$> settle p o (rt s)
  | React p => react p s
  | Deliver c => State (pendingRequests s) <$> deliver c (rt s)
  end.

Fixpoint run (s : state) (evs : list event) : option state :=
  match evs with
  | [] => Some s
  | ev :: evs => s' ← step s ev; run s' evs
  end.

Definition reachable (s : state) : Prop := ∃ evs, run init evs = Some s.

End coalescer.
Global Arguments state K {_ _} V E.
Global Arguments event : clear implicits.
End RequestCoalescer.

(** ** class CachedRequestCoalescer *)

Module CachedRequestCoalescer.

(** [interface CachedCoalescerOptions]: both fields optional numbers
    (milliseconds and a count; whole numbers here). *)
Record CachedCoalescerOptions := Options {
  ttl : option Z;
  maxSize : option Z
}.

(** JavaScript truthiness of an optional number: set and not [0]. *)
Definition truthy (n : option Z) : bool :=
  match n with
  | Some z => bool_decide (z ≠ 0%Z)
  | None => false
  end.

(** What the code asks of a key besides the [Map]'s own comparison
    (SameValueZero, the equality of [K]): [isNaN k], because
    [Array.prototype.indexOf] compares with [===] and so never finds [NaN];
    [isUndefined k], because [setCacheEntry] tests [lruKey !== undefined]. *)
Class JSKey (K : Type) := {
  isNaN : K → bool;
  isUndefined : K → bool
}.

(** Strings, the default [TKey]. *)
#[global] Instance string_key : JSKey string := {|
  isNaN _ := false;
  isUndefined _ := false
|}.

(** Keys of a [Map<unknown, ..>]: strings, and the two values the code
    treats specially. *)
Inductive jskey := KeyString (s : string) | KeyNaN | KeyUndefined.

#[global] Instance jskey_eq_dec : EqDecision jskey.
Proof. solve_decision. Defined.

#[global] Instance jskey_countable : Countable jskey :=
  inj_countable'
    (λ k, match k with
          | KeyString s => inl s
          | KeyNaN => inr true
          | KeyUndefined => inr false
          end)
    (λ x, match x with
          | inl s => KeyString s
          | inr true => KeyNaN
          | inr false => KeyUndefined
          end)
    (λ k, match k with
          | KeyString _ | KeyNaN | KeyUndefined => eq_refl
          end).

#[global] Instance jskey_key : JSKey jskey := {|
  isNaN k := match k with KeyNaN => true | _ => false end;
  isUndefined k := match k with KeyUndefined => true | _ => false end
|}.

Section coalescer.
Context `{Countable K} `{!JSKey K} {V E : Type}.

(** [interface CacheEntry]; its optional [promise] field is never written. *)
Record CacheEntry := Entry { result : V; timestamp : Z }.

(** The private fields, the clock read by [Date.now()], and the host. *)
Record state := State {
  cache : gmap K CacheEntry;
  pendingRequests : gmap K nat;
  accessOrder : list K;
  options : CachedCoalescerOptions;
  now : Z;
  rt : host K V E
}.

(** [new CachedRequestCoalescer(options)] at clock time [t]. *)
Definition init (opts : CachedCoalescerOptions) (t : Z) : state :=
  State ∅ ∅ [] opts t empty_host.

Definition with_host (h : host K V E) (s : state) : state :=
  State (cache s) (pendingRequests s) (accessOrder s) (options s) (now s) h.
Definition with_pending (m : gmap K nat) (s : state) : state :=
  State (cache s) m (accessOrder s) (options s) (now s) (rt s).
Definition with_cache (m : gmap K CacheEntry) (s : state) : state :=
  State m (pendingRequests s) (accessOrder s) (options s) (now s) (rt s).
Definition with_accessOrder (l : list K) (s : state) : state :=
  State (cache s) (pendingRequests s) l (options s) (now s) (rt s).
Definition with_now (t : Z) (s : state) : state :=
  State (cache s) (pendingRequests s) (accessOrder s) (options s) t (rt s).

(** [Array.prototype.indexOf]; [None] stands for [-1].  The elements are
    compared with [===], under which [NaN] equals nothing and every other
    key equals exactly itself. *)
Definition indexOf (key : K) (l : list K) : option nat :=
  if isNaN key then None else fst <$> list_find (λ x, x = key) l.

(** [const index = l.indexOf(key); if (index > -1) l.splice(index, 1)] *)
Definition splice_key (key : K) (l : list K) : list K :=
  match indexOf key l with
  | Some index => delete index l
  | None => l
  end.

(** [private isCacheValid(entry)] *)
Definition isCacheValid (entry : CacheEntry) (s : state) : bool :=
  if negb (truthy (ttl (options s))) then false
  else
    match ttl (options s) with
    | Some t => bool_decide (now s - timestamp entry < t)%Z
    | None => false
    end.

(** [private updateAccessOrder(key)] *)
Definition updateAccessOrder (key : K) (s : state) : state :=
  with_accessOrder (splice_key key (accessOrder s) ++ [key]) s.

(** The first block of [setCacheEntry]: evict the key at the front of
    [accessOrder] when [maxSize] is set and reached.  [accessOrder[0]] is
    [undefined] when the array is empty and when its first key is the
    value [undefined]; in both cases nothing is evicted. *)
Definition evict (s : state) : state :=
  match maxSize (options s) with
  | Some m =>
      if truthy (Some m) && bool_decide (m ≤ Z.of_nat (size (cache s)))%Z then
        match accessOrder s with
        | lruKey :: rest =>
            if isUndefined lruKey then s
            else with_accessOrder rest (with_cache (delete lruKey (cache s)) s)
        | [] => s
        end
      else s
  | None => s
  end.

(** [private setCacheEntry(key, result)] *)
Definition setCacheEntry (key : K) (res : V) (s : state) : state :=
  let s := evict s in
  let s := with_cache (<[key := Entry res (now s)]> (cache s)) s in
  updateAccessOrder key s.

(** [async execute(key, request)] *)
Definition execute (key : K) (request : thunk E) (s : state) : state :=
  let miss :=
    match pendingRequests s !! key with
    | Some pending =>
        with_host (add_call key (Adopt pending) None (rt s)) s
    | None =>
        let h := log_invocation request (rt s) in
        match thunk_throws request with
        | Some e => with_host (add_call key Direct (Some (Rejected e)) h) s
        | None =>
            let promise := length (chains h) in
            with_host (add_call key (Adopt promise) None (spawn key h))
              (with_pending (<[key := promise]> (pendingRequests s)) s)
        end
    end in
  match cache s !! key with
  | Some cached =>
      if isCacheValid cached s then
        let s := updateAccessOrder key s in
        with_host (add_call key Direct (Some (Fulfilled (result cached))) (rt s)) s
      else miss
  | None => miss
  end.

(** The [.then] continuation of [execute]. *)
Definition on_fulfilled (key : K) (res : V) (s : state) : state * outcome V E :=
  let s := with_pending (delete key (pendingRequests s)) s in
  let s := if truthy (ttl (options s)) then setCacheEntry key res s else s in
  (s, Fulfilled res).

(** The [.catch] continuation of [execute]. *)
Definition on_rejected (key : K) (error : E) (s : state) : state * outcome V E :=
  (with_pending (delete key (pendingRequests s)) s, Rejected error).

Definition react (p : nat) (s : state) : option state :=
  '(key, o) ← due p (rt s);
  let '(s', o') :=
    match o with
    | Fulfilled res => on_fulfilled key res s
    | Rejected error => on_rejected key error s
    end in
  Some (with_host (set_chain p (Done o') (rt s')) s').

Definition invalidate (key : K) (s : state) : state :=
  let s := with_cache (delete key (cache s)) s in
  let s := with_pending (delete key (pendingRequests s)) s in
  with_accessOrder (splice_key key (accessOrder s)) s.

Definition clear (s : state) : state :=
  with_accessOrder [] (with_pending ∅ (with_cache ∅ s)).

Record stats := Stats {
  cacheSize : nat;
  pendingCount : nat;
  stats_maxSize : option Z;
  stats_ttl : option Z
}.

Definition getStats (s : state) : stats :=
  Stats (size (cache s)) (size (pendingRequests s))
        (maxSize (options s)) (ttl (options s)).

Definition isPending (key : K) (s : state) : bool :=
  bool_decide (is_Some (pendingRequests s !! key)).

Definition isCached (key : K) (s : state) : bool :=
  match cache s !! key with
  | Some cached => isCacheValid cached s
  | None => false
  end.

(** [Advance ms]: the clock moves forward by [ms] milliseconds. *)
Inductive event :=
| Execute (key : K) (request : thunk E)
| Invalidate (key : K)
| Clear
| Advance (ms : N)
| Settle (p : nat) (o : outcome V E)
| React (p : nat)
| Deliver (c : nat).

Definition step (s : state) (ev : event) : option state :=
  match ev with
  | Execute key request => Some (execute key request s)
  | Invalidate key => Some (invalidate key s)
  | Clear => Some (clear s)
  | Advance ms => Some (with_now (now s + Z.of_N ms) s)
  | Settle p o => h ← settle p o (rt s); Some (with_host h s)
  | React p => react p s
  | Deliver c => h ← deliver c (rt s); Some (with_host h s)
  end.

Fixpoint run (s : state) (evs : list event) : option state :=
  match evs with
  | [] => Some s
  | ev :: evs => s' ← step s ev; run s' evs
  end.

Definition reachable (s : state) : Prop :=
  ∃ opts t evs, run (init opts t) evs = Some s.

End coalescer.
Global Arguments CacheEntry : clear implicits.
Global Arguments state K {_ _} V E.
Global Arguments event : clear implicits.
End CachedRequestCoalescer.

(** ** createKey and JSON.stringify

    [createKey(...params)] is [JSON.stringify(params)].  [JSON.value] holds
    the values the serialisation is modelled for: [undefined], [null],
    booleans, numbers that are whole or not finite, strings of code units
    below 256, arrays, and plain objects as the list of their own enumerable
    properties in enumeration order.  Serialisation follows ECMAScript's
    SerializeJSONProperty, SerializeJSONArray, SerializeJSONObject and
    QuoteJSONString, without a replacer or indentation. *)

Module JSON.

(** A number: a whole number (of magnitude below [10^21], which
    Number::toString prints as a plain decimal numeral) or one of the three
    values that are not finite. *)
Inductive number := Int (z : Z) | NaN | Infinity | NegInfinity.

#[local] Unset Elimination Schemes.
Inductive value :=
| Undefined
| Null
| Bool (b : bool)
| Num (n : number)
| Str (s : string)
| Arr (items : list value)
| Obj (props : list (string * value)).
#[local] Set Elimination Schemes.

(** The double quote and the backslash, by their codes. *)
Definition dq : ascii := "034"%char.
Definition bs : ascii := "092"%char.

Definition chars (s : string) : list ascii := String.list_ascii_of_string s.

Definition hexdigit (n : N) : ascii :=
  match n with
  | 10 => "a" | 11 => "b" | 12 => "c" | 13 => "d" | 14 => "e" | 15 => "f"
  | _ => pretty_N_char n
  end%char%N.

(** QuoteJSONString, one code unit: the short escapes, [\u00XX] for the
    other control characters, the code unit itself otherwise. *)
Definition escape (c : ascii) : list ascii :=
  match N_of_ascii c with
  | 8 => [bs; "b"]
  | 9 => [bs; "t"]
  | 10 => [bs; "n"]
  | 12 => [bs; "f"]
  | 13 => [bs; "r"]
  | 34 => [bs; dq]
  | 92 => [bs; bs]
  | n =>
      if decide (n < 32)%N
      then [bs; "u"; "0"; "0"; hexdigit (n `div` 16); hexdigit (n `mod` 16)]
      else [c]
  end%char%N.

Definition QuoteJSONString (s : string) : list ascii :=
  dq :: flat_map escape (chars s) ++ [dq].

(** [parts.join(",")] *)
Fixpoint commas (parts : list (list ascii)) : list ascii :=
  match parts with
  | [] => []
  | [p] => p
  | p :: ps => p ++ ","%char :: commas ps
  end.

Definition bracket (parts : list (list ascii)) : list ascii :=
  "["%char :: commas parts ++ ["]"%char].

Definition brace (parts : list (list ascii)) : list ascii :=
  "{"%char :: commas parts ++ ["}"%char].

Definition member (key : string) (str : list ascii) : list ascii :=
  QuoteJSONString key ++ ":"%char :: str.

(** SerializeJSONProperty: [None] stands for the result [undefined].  A
    finite number is printed by Number::toString, which for whole numbers
    below [10^21] in magnitude is the decimal numeral; [NaN] and the
    infinities give [null].  In an array an [undefined] element gives
    [null]; in an object a property whose value gives [undefined] is
    left out. *)
Fixpoint SerializeJSONProperty (v : value) : option (list ascii) :=
  match v with
  | Undefined => None
  | Null => Some (chars "null")
  | Bool true => Some (chars "true")
  | Bool false => Some (chars "false")
  | Num (Int z) => Some (chars (pretty z))
  | Num _ => Some (chars "null")
  | Str s => Some (QuoteJSONString s)
  | Arr items =>
      Some (bracket
        (map (λ x, default (chars "null") (SerializeJSONProperty x)) items))
  | Obj props =>
      Some (brace
        (omap (λ p, member p.1 <$> SerializeJSONProperty p.2) props))
  end.

Definition SerializeJSONArray (items : list value) : list ascii :=
  bracket (map (λ x, default (chars "null") (SerializeJSONProperty x)) items).

Definition stringify (v : value) : option string :=
  String.string_of_list_ascii <$> SerializeJSONProperty v.

(** The values that JSON text represents without loss: no [undefined], no
    [NaN] or infinity, whole numbers within the safe range
    ([Number.isSafeInteger]). *)
Fixpoint representable (v : value) : bool :=
  match v with
  | Undefined => false
  | Null | Bool _ | Str _ => true
  | Num (Int z) => bool_decide (Z.abs z ≤ 9007199254740991)%Z
  | Num _ => false
  | Arr items => forallb representable items
  | Obj props => forallb (λ p, representable p.2) props
  end.

End JSON.

(** [export function createKey(...params: unknown[]): string] *)
Definition createKey (params : list JSON.value) : string :=
  String.string_of_list_ascii (JSON.SerializeJSONArray params).

(** [export function coalesceFunction(fn, keyFn = (...args) => createKey(...args))]

    The returned closure owns a [RequestCoalescer<string, TResult>] that
    nothing else can reach: its state starts as [RequestCoalescer.init] and
    changes only through the closure and the reaction jobs.  [fn args]
    stands for the thunk [() => fn(...args)] that the closure hands to
    [execute]. *)
Module coalesceFunction.
Section wrapper.
Context {A V E : Type}.

(** [(...args) => { const key = keyFn(...args);
                    return coalescer.execute(key, () => fn(...args)); }] *)
Definition apply (fn : A → thunk E) (keyFn : A → string) (args : A)
    (s : RequestCoalescer.state string V E) : RequestCoalescer.state string V E :=
  let key := keyFn args in
  RequestCoalescer.execute key (fn args) s.

(** What can happen to the private coalescer: a call of the closure, or a
    job of the host. *)
Inductive event :=
| Apply (args : A)
| Settle (p : nat) (o : outcome V E)
| React (p : nat)
| Deliver (c : nat).

Definition to_coalescer (fn : A → thunk E) (keyFn : A → string) (ev : event) :
    RequestCoalescer.event string V E :=
  match ev with
  | Apply args => RequestCoalescer.Execute (keyFn args) (fn args)
  | Settle p o => RequestCoalescer.Settle p o
  | React p => RequestCoalescer.React p
  | Deliver c => RequestCoalescer.Deliver c
  end.

Definition step (fn : A → thunk E) (keyFn : A → string)
    (s : RequestCoalescer.state string V E) (ev : event) :
    option (RequestCoalescer.state string V E) :=
  match ev with
  | Apply args => Some (apply fn keyFn args s)
  | _ => RequestCoalescer.step s (to_coalescer fn keyFn ev)
  end.

Fixpoint run (fn : A → thunk E) (keyFn : A → string)
    (s : RequestCoalescer.state string V E) (evs : list event) :
    option (RequestCoalescer.state string V E) :=
  match evs with
  | [] => Some s
  | ev :: evs => s' ← step fn keyFn s ev; run fn keyFn s' evs
  end.

(** The states of the private coalescer of [coalesceFunction(fn, keyFn)]. *)
Definition reachable (fn : A → thunk E) (keyFn : A → string)
    (s : RequestCoalescer.state string V E) : Prop :=
  ∃ evs, run fn keyFn RequestCoalescer.init evs = Some s.

End wrapper.
Global Arguments event : clear implicits.
End coalesceFunction.

(** ** class Logger

    The logger reads the build flag [import.meta.env.DEV], the configured
    [CONFIG.LOG_LEVEL], the clock ([new Date().toISOString()]) and whether a
    [window] exists; it writes to the console and to [window.__appLogs]. *)

Module Logger.

(** [enum LogLevel] *)
Inductive LogLevel := DEBUG | INFO | WARN | ERROR.

Definition level_value (level : LogLevel) : Z :=
  match level with DEBUG => 0 | INFO => 1 | WARN => 2 | ERROR => 3 end.

(** The reverse mapping [LogLevel[level]]. *)
Definition level_name (level : LogLevel) : string :=
  match level with
  | DEBUG => "DEBUG" | INFO => "INFO" | WARN => "WARN" | ERROR => "ERROR"
  end.

(** [Record<string, unknown>]: the own enumerable properties, in order. *)
Definition ContextRecord := list (string * JSON.value).

(** An [Error], with the fields the logger reads: [message], [stack], and
    through [apiError] the optional [config.url], [config.method] and
    [response.status] ([Undefined] when [config] or [response] is
    missing). *)
Record Error := MkError {
  err_message : string;
  err_stack : option string;
  err_config_url : JSON.value;
  err_config_method : JSON.value;
  err_response_status : JSON.value
}.

(** [interface LogEntry] *)
Record LogEntry := Entry {
  timestamp : string;
  level : LogLevel;
  message : string;
  context : option ContextRecord;
  error : option Error
}.

(** The surroundings of the logger.  [toISOString n] is the result of the
    [n]-th [new Date().toISOString()] of the run.  [LOG_LEVEL] is
    [CONFIG.LOG_LEVEL], whatever string the build was given. *)
Record Env := MkEnv {
  DEV : bool;
  LOG_LEVEL : string;
  hasWindow : bool;
  toISOString : nat → string
}.

Inductive console_method := console_debug | console_info | console_warn | console_error.

(** [window.__appLogs] ([None]: not set), the lines written to the
    console, and the number of times the clock was read. *)
Record state := State {
  appLogs : option (list LogEntry);
  console : list (console_method * string);
  dates : nat
}.

Definition init : state := State None [] 0.

(** What the field [minLevel] holds.  Its type says [LogLevel], but
    [logLevelMap[CONFIG.LOG_LEVEL]] also finds the properties that the
    object literal inherits from [Object.prototype]; these are functions
    (an object for [__proto__]), not [undefined], so [??] keeps them. *)
Inductive threshold := Level (level : LogLevel) | Inherited (name : string).

(** The fields set by the constructor. *)
Record Logger := MkLogger {
  isDevelopment : bool;
  minLevel : threshold
}.

(** The properties of [Object.prototype]. *)
Definition prototype_properties : list string :=
  ["constructor"; "__defineGetter__"; "__defineSetter__"; "hasOwnProperty";
   "__lookupGetter__"; "__lookupSetter__"; "isPrototypeOf";
   "propertyIsEnumerable"; "toString"; "valueOf"; "__proto__";
   "toLocaleString"].

(** [logLevelMap[name]]; [None] is [undefined]. *)
Definition logLevelMap (name : string) : option threshold :=
  if decide (name = "debug") then Some (Level DEBUG)
  else if decide (name = "info") then Some (Level INFO)
  else if decide (name = "warn") then Some (Level WARN)
  else if decide (name = "error") then Some (Level ERROR)
  else if bool_decide (name ∈ prototype_properties) then Some (Inherited name)
  else None.

(** [constructor()] *)
Definition new (env : Env) : Logger :=
  let isDevelopment := DEV env in
  MkLogger isDevelopment
    (if isDevelopment then Level DEBUG
     else default (Level WARN) (logLevelMap (LOG_LEVEL env))).

Section methods.
Context (env : Env) (this : Logger).

(** [private shouldLog(level)]: [level >= this.minLevel].  A function or
    an object on the right is converted to a number through its string
    form, which gives [NaN], and every comparison with [NaN] is false. *)
Definition shouldLog (level : LogLevel) : bool :=
  match minLevel this with
  | Level minLevel => bool_decide (level_value minLevel ≤ level_value level)%Z
  | Inherited _ => false
  end.

(** [new Date().toISOString()] *)
Definition now (s : state) : string * state :=
  (toISOString env (dates s), State (appLogs s) (console s) (S (dates s))).

(** A value in a template literal; [None] is [undefined]. *)
Definition interpolate (text : option string) : string := default "undefined" text.

(** [private formatMessage(level, message, context, error)] *)
Definition formatMessage (level : LogLevel) (message : string)
    (context : option ContextRecord) (error : option Error) (s : state) : string * state :=
  let '(timestamp, s) := now s in
  let levelName := level_name level in
  let formattedMessage :=
    "[" +:+ timestamp +:+ "] " +:+ levelName +:+ ": " +:+ message in
  let formattedMessage :=
    match context with
    | Some ((_ :: _) as props) =>
        formattedMessage +:+ " | Context: " +:+
          interpolate (JSON.stringify (JSON.Obj props))
    | _ => formattedMessage
    end in
  let formattedMessage :=
    match error with
    | Some err =>
        let formattedMessage := formattedMessage +:+ " | Error: " +:+ err_message err in
        match err_stack err with
        | Some stack =>
            if decide (stack = EmptyString) then formattedMessage
            else formattedMessage +:+ " | Stack: " +:+ stack
        | None => formattedMessage
        end
    | None => formattedMessage
    end in
  (formattedMessage, s).

Definition print (method : console_method) (line : string) (s : state) : state :=
  State (appLogs s) (console s ++ [(method, line)]) (dates s).

(** [private storeLog(logEntry)] *)
Definition storeLog (logEntry : LogEntry) (s : state) : state :=
  if hasWindow env then
    let logs := default [] (appLogs s) in
    let logs := logs ++ [logEntry] in
    let logs :=
      if bool_decide (100 < length logs) then drop (length logs - 100) logs
      else logs in
    State (Some logs) (console s) (dates s)
  else s.

(** [private log(level, message, context, error)] *)
Definition log (level : LogLevel) (message : string)
    (context : option ContextRecord) (error : option Error) (s : state) : state :=
  if negb (shouldLog level) then s
  else
    let '(formattedMessage, s) := formatMessage level message context error s in
    let '(timestamp, s) := now s in
    let logEntry := Entry timestamp level message context error in
    let s :=
      if isDevelopment this then
        match level with
        | DEBUG => print console_debug formattedMessage s
        | INFO => print console_info formattedMessage s
        | WARN => print console_warn formattedMessage s
        | ERROR => print console_error formattedMessage s
        end
      else
        match level with
        | WARN => print console_warn formattedMessage s
        | ERROR => print console_error formattedMessage s
        | _ => s
        end in
    storeLog logEntry s.

Definition debug (message : string) (context : option ContextRecord) : state → state :=
  log DEBUG message context None.

Definition info (message : string) (context : option ContextRecord) : state → state :=
  log INFO message context None.

Definition warn (message : string) (context : option ContextRecord) (error : option Error) :
    state → state :=
  log WARN message context error.

Definition error_ (message : string) (context : option ContextRecord) (error : option Error) :
    state → state :=
  log ERROR message context error.

(** A property of an object literal written after a spread: an existing
    property keeps its place and takes the new value, a new one is added
    last. *)
Fixpoint set_property (key : string) (v : JSON.value) (props : ContextRecord) : ContextRecord :=
  match props with
  | [] => [(key, v)]
  | (k, x) :: props =>
      if decide (k = key) then (k, v) :: props
      else (k, x) :: set_property key v props
  end.

(** [apiError(message, error, context)] *)
Definition apiError (message : string) (error : Error) (context : option ContextRecord) :
    state → state :=
  error_ ("API Error: " +:+ message)
    (Some (set_property "status" (err_response_status error)
          (set_property "method" (err_config_method error)
          (set_property "url" (err_config_url error)
             (default [] context)))))
    (Some error).

(** [userAction(action, context)] *)
Definition userAction (action : string) (context : option ContextRecord) : state → state :=
  info ("User Action: " +:+ action) context.

(** Number::toString of a whole or non-finite number. *)
Definition number_toString (n : JSON.number) : string :=
  match n with
  | JSON.Int z => pretty z
  | JSON.NaN => "NaN"
  | JSON.Infinity => "Infinity"
  | JSON.NegInfinity => "-Infinity"
  end.

(** [performance(operation, duration, context)] *)
Definition performance (operation : string) (duration : JSON.number)
    (context : option ContextRecord) : state → state :=
  info ("Performance: " +:+ operation +:+ " took " +:+ number_toString duration +:+ "ms")
    context.

(** [getLogs()] *)
Definition getLogs (s : state) : list LogEntry :=
  if hasWindow env then default [] (appLogs s) else [].

(** [clearLogs()] *)
Definition clearLogs (s : state) : state :=
  if hasWindow env then State (Some []) (console s) (dates s) else s.

(** The calls an application makes on the logger. *)
Inductive call :=
| Debug (message : string) (context : option ContextRecord)
| Info (message : string) (context : option ContextRecord)
| Warn (message : string) (context : option ContextRecord) (error : option Error)
| Error_ (message : string) (context : option ContextRecord) (error : option Error)
| ApiError (message : string) (error : Error) (context : option ContextRecord)
| UserAction (action : string) (context : option ContextRecord)
| Performance (operation : string) (duration : JSON.number) (context : option ContextRecord)
| ClearLogs.

Definition step (s : state) (c : call) : state :=
  match c with
  | Debug message context => debug message context s
  | Info message context => info message context s
  | Warn message context error => warn message context error s
  | Error_ message context error => error_ message context error s
  | ApiError message error context => apiError message error context s
  | UserAction action context => userAction action context s
  | Performance operation duration context => performance operation duration context s
  | ClearLogs => clearLogs s
  end.

Definition run (s : state) (cs : list call) : state := foldl step s cs.

End methods.
End Logger.

(** * Facts about the host *)

Module HostFacts.
Section host_facts.
Context {K V E : Type}.
Implicit Types (h : host K V E) (o : outcome V E) (p c : nat).

Lemma settle_Some p o h h' :
  settle p o h = Some h' →
  ∃ ch, chains h !! p = Some ch ∧ chain_st ch = Running ∧
    h' = set_chain p (Settling o) h.
Proof.
  unfold settle. destruct (chains h !! p) as [ch|] eqn:Hp; simpl; [|done].
  destruct (chain_st ch) eqn:Hst; intros [= <-]. eauto.
Qed.

Lemma settle_running p o h ch :
  chains h !! p = Some ch → chain_st ch = Running →
  settle p o h = Some (set_chain p (Settling o) h).
Proof. unfold settle. intros Hp Hst. rewrite Hp; simpl. by rewrite Hst. Qed.

Lemma due_Some p h key o :
  due p h = Some (key, o) ↔ chains h !! p = Some (Chain key (Settling o)).
Proof.
  unfold due. destruct (chains h !! p) as [[k st]|]; simpl; [|naive_solver].
  destruct st; naive_solver.
Qed.

Lemma deliver_Some c h h' :
  deliver c h = Some h' →
  ∃ key p o ch, calls h !! c = Some (Call key (Adopt p) None) ∧
    chains h !! p = Some ch ∧ chain_st ch = Done o ∧
    h' = MkHost (chains h) (<[c := Call key (Adopt p) (Some o)]> (calls h)) (invoked h).
Proof.
  unfold deliver. destruct (calls h !! c) as [[key src pr]|] eqn:Hc; simpl; [|done].
  destruct src as [|p]; [done|]. destruct pr; [done|].
  destruct (chains h !! p) as [ch|] eqn:Hp; simpl; [|done].
  destruct (chain_st ch) eqn:Hst; intros [= <-]. eauto 10.
Qed.

Lemma deliver_done c h key p ch o :
  calls h !! c = Some (Call key (Adopt p) None) →
  chains h !! p = Some ch → chain_st ch = Done o →
  deliver c h =
    Some (MkHost (chains h) (<[c := Call key (Adopt p) (Some o)]> (calls h)) (invoked h)).
Proof.
  unfold deliver. intros Hc Hp Hst. rewrite Hc; simpl. rewrite Hp; simpl.
  by rewrite Hst.
Qed.

Lemma set_chain_lookup p st h q :
  chains (set_chain p st h) !! q =
    if decide (p = q) then (λ ch, Chain (chain_key ch) st) <$> chains h !! p
    else chains h !! q.
Proof.
  unfold set_chain; simpl. case_decide as Hpq.
  - subst. apply list_lookup_alter_eq.
  - by apply list_lookup_alter_ne.
Qed.

Lemma set_chain_length p st h : length (chains (set_chain p st h)) = length (chains h).
Proof. unfold set_chain; simpl. apply length_alter. Qed.

Lemma received_add_call_old key src pr h c :
  c < length (calls h) → received c (add_call key src pr h) = received c h.
Proof. intros Hc. unfold received, add_call; simpl. by rewrite lookup_app_l. Qed.

Lemma received_add_call_new key src pr h :
  received (length (calls h)) (add_call key src pr h) = pr.
Proof.
  unfold received, add_call; simpl.
  by rewrite lookup_app_r, Nat.sub_diag by lia.
Qed.

(** Every call that adopts a chain names a chain of its own key, and holds
    an outcome only once that chain is [Done] with the same outcome. *)
Definition host_ok h : Prop :=
  ∀ c key p pr, calls h !! c = Some (Call key (Adopt p) pr) →
    ∃ st, chains h !! p = Some (Chain key st) ∧ ∀ o, pr = Some o → st = Done o.

Lemma host_ok_empty : host_ok (@empty_host K V E).
Proof. intros c key p pr. unfold empty_host; simpl. by rewrite lookup_nil. Qed.

Lemma host_ok_log request h : host_ok h → host_ok (log_invocation request h).
Proof. done. Qed.

Lemma host_ok_direct key pr h : host_ok h → host_ok (add_call key Direct pr h).
Proof.
  intros Hok c key' p pr'; simpl. intros [Hc|[_ Hc]]%lookup_app_Some; [by eapply Hok|].
  by destruct (c - length (calls h)) as [|[|?]].
Qed.

Lemma host_ok_attach key p st h :
  host_ok h → chains h !! p = Some (Chain key st) →
  host_ok (add_call key (Adopt p) None h).
Proof.
  intros Hok Hp c key' q pr; simpl. intros [Hc|[_ Hc]]%lookup_app_Some; [by eapply Hok|].
  destruct (c - length (calls h)) as [|[|?]]; simplify_eq/=. by exists st.
Qed.

Lemma host_ok_spawn key h : host_ok h → host_ok (spawn key h).
Proof.
  intros Hok c key' q pr; simpl. intros (st & Hq & Hst)%Hok.
  exists st. split; [|done]. by apply lookup_app_l_Some.
Qed.

Lemma host_ok_set_chain p st h :
  host_ok h → (∀ ch, chains h !! p = Some ch → ∀ o, chain_st ch ≠ Done o) →
  host_ok (set_chain p st h).
Proof.
  intros Hok Hnd c key q pr Hc. destruct (Hok c key q pr Hc) as (st' & Hq & Hst).
  rewrite set_chain_lookup. case_decide as Hpq; [subst q|eauto].
  rewrite Hq; simpl. exists st. split; [done|]. intros o ->.
  destruct (Hnd _ Hq o). simpl. by apply Hst.
Qed.

Lemma host_ok_settle p o h h' : host_ok h → settle p o h = Some h' → host_ok h'.
Proof.
  intros Hok (ch & Hp & Hst & ->)%settle_Some. apply host_ok_set_chain; [done|].
  intros ch' ? o'. simplify_eq. by rewrite Hst.
Qed.

Lemma host_ok_finish p key o o' h :
  host_ok h → due p h = Some (key, o) → host_ok (set_chain p (Done o') h).
Proof.
  intros Hok Hp%due_Some. apply host_ok_set_chain; [done|].
  intros ch' ? o''. by simplify_eq.
Qed.

Lemma host_ok_deliver c h h' : host_ok h → deliver c h = Some h' → host_ok h'.
Proof.
  intros Hok (key & p & o & ch & Hc & Hp & Hst & ->)%deliver_Some c' key' q pr; simpl.
  destruct (decide (c = c')) as [<-|Hne].
  - rewrite list_lookup_insert_eq by (by eapply lookup_lt_Some). intros [= <- <- <-].
    destruct (Hok _ _ _ _ Hc) as (st & Hq & _). simplify_eq/=.
    exists (Done o). split; [done|]. by intros ? [= <-].
  - rewrite list_lookup_insert_ne by done. apply Hok.
Qed.

(** Two callers that hold the outcome of the same chain hold the same
    outcome. *)
Lemma host_ok_shared h c1 c2 key1 key2 p o1 o2 :
  host_ok h →
  calls h !! c1 = Some (Call key1 (Adopt p) (Some o1)) →
  calls h !! c2 = Some (Call key2 (Adopt p) (Some o2)) →
  key1 = key2 ∧ o1 = o2.
Proof.
  intros Hok (st1 & Hp1 & Hst1)%Hok (st2 & Hp2 & Hst2)%Hok.
  rewrite (Hst1 o1 eq_refl) in Hp1. rewrite (Hst2 o2 eq_refl) in Hp2.
  by simplify_eq.
Qed.

(** What a call is made of: its key and where its promise comes from. *)
Definition call_head (cl : call K V E) : K * source := (call_key cl, call_source cl).

Lemma call_heads_add key src pr h :
  call_head <$> calls (add_call key src pr h) = (call_head <$> calls h) ++ [(key, src)].
Proof. unfold add_call; simpl. by rewrite fmap_app. Qed.

Lemma call_heads_deliver c h h' :
  deliver c h = Some h' → call_head <$> calls h' = call_head <$> calls h.
Proof.
  intros (key & p & o & ch & Hc & _ & _ & ->)%deliver_Some. simpl.
  rewrite list_fmap_insert. apply list_insert_id.
  by rewrite list_lookup_fmap, Hc.
Qed.

Lemma call_heads_settle p o h h' : settle p o h = Some h' → calls h' = calls h.
Proof. by intros (ch & _ & _ & ->)%settle_Some. Qed.

(** The operations in flight: the chains whose continuation has not run. *)
Definition running (ch : chain K V E) : bool :=
  match chain_st ch with Done _ => false | _ => true end.

Definition in_flight (h : host K V E) : nat :=
  length (filter (λ ch, running ch = true) (chains h)).

Lemma indices_le_filter {A} (P : A → Prop) `{!∀ x, Decision (P x)}
    (l : list A) (ixs : list nat) :
  NoDup ixs → (∀ i, i ∈ ixs → ∃ x, l !! i = Some x ∧ P x) →
  length ixs ≤ length (filter P l).
Proof.
  revert ixs. induction l as [|x l IH] using rev_ind; intros ixs Hnd Hixs.
  - destruct ixs as [|i ixs]; [done|].
    destruct (Hixs i) as (x & Hx & _); [left|]. done.
  - assert (∀ ixs', NoDup ixs' → (∀ i, i ∈ ixs' → i ∈ ixs ∧ i ≠ length l) →
              length ixs' ≤ length (filter P l)) as Hrest.
    { intros ixs' Hnd' Hsub. apply IH; [done|]. intros i [Hi Hne]%Hsub.
      destruct (Hixs i Hi) as (y & Hy & HPy). exists y. split; [|done].
      apply lookup_lt_Some in Hy as Hlt. rewrite length_app in Hlt. simpl in Hlt.
      rewrite lookup_app_l in Hy by lia. done. }
    rewrite filter_app, length_app.
    destruct (decide (length l ∈ ixs)) as [Hin|Hnin].
    + destruct (Hixs _ Hin) as (y & Hy & HPy).
      rewrite list_lookup_middle in Hy by done. injection Hy as <-.
      apply elem_of_Permutation in Hin as [ixs' Hperm].
      rewrite Hperm in Hnd. apply NoDup_cons in Hnd as [Hnotin Hnd'].
      rewrite Hperm, filter_cons_True, filter_nil by done. simpl.
      assert (length ixs' ≤ length (filter P l)); [|lia].
      apply Hrest; [done|]. intros i Hi. split; [rewrite Hperm; by right|].
      by intros ->.
    + assert (length ixs ≤ length (filter P l)); [|lia].
      apply Hrest; [done|]. intros i Hi. split; [done|]. by intros ->.
Qed.

(** Every registered pending promise is a chain of that key whose
    continuation has not run yet. *)
Definition pending_ok `{Countable K} (pend : gmap K nat) h : Prop :=
  ∀ k p, pend !! k = Some p →
    ∃ st, chains h !! p = Some (Chain k st) ∧ ∀ o, st ≠ Done o.

Section pending.
Context `{Countable K}.
Implicit Types pend : gmap K nat.

Lemma pending_ok_empty h : pending_ok ∅ h.
Proof. intros k p. by rewrite lookup_empty. Qed.

Lemma pending_ok_delete key pend h : pending_ok pend h → pending_ok (delete key pend) h.
Proof. intros Hok k p [_ Hk]%lookup_delete_Some. by apply Hok. Qed.

Lemma pending_ok_calls pend h cs inv :
  pending_ok pend h → pending_ok pend (MkHost (chains h) cs inv).
Proof. done. Qed.

Lemma pending_ok_register key pend h cs inv :
  pending_ok pend h →
  pending_ok (<[key := length (chains h)]> pend)
    (MkHost (chains h ++ [Chain key Running]) cs inv).
Proof.
  intros Hok k p; simpl. rewrite lookup_insert. case_decide as Hk.
  - intros [= <-]. subst. exists Running.
    by rewrite lookup_app_r, Nat.sub_diag by lia.
  - intros (st & Hp & Hst)%Hok. exists st. split; [|done].
    by apply lookup_app_l_Some.
Qed.

Lemma pending_ok_settle p o pend h h' :
  pending_ok pend h → settle p o h = Some h' → pending_ok pend h'.
Proof.
  intros Hok (ch & Hp & Hst & ->)%settle_Some k q Hk.
  destruct (Hok k q Hk) as (st & Hq & Hnd). rewrite set_chain_lookup.
  case_decide; [subst q|eauto]. rewrite Hp; simpl. simplify_eq/=. eauto.
Qed.

Lemma pending_ok_finish p key o o' pend h :
  pending_ok pend h → due p h = Some (key, o) →
  pending_ok (delete key pend) (set_chain p (Done o') h).
Proof.
  intros Hok Hp%due_Some k q [Hne Hk]%lookup_delete_Some.
  destruct (Hok k q Hk) as (st & Hq & Hnd). rewrite set_chain_lookup.
  case_decide; [|eauto]. by simplify_eq.
Qed.

Lemma pending_ok_deliver c pend h h' :
  pending_ok pend h → deliver c h = Some h' → pending_ok pend h'.
Proof. by intros Hok (key & p & o & ch & Hc & Hp & Hst & ->)%deliver_Some. Qed.
(** Once a caller holds the outcome of a chain, no key is registered for
    that chain any more. *)
Lemma delivered_not_pending c key p o pend h :
  host_ok h → pending_ok pend h →
  calls h !! c = Some (Call key (Adopt p) (Some o)) →
  chains h !! p = Some (Chain key (Done o)) ∧ ∀ k, pend !! k ≠ Some p.
Proof.
  intros Hh Hp Hc. destruct (Hh _ _ _ _ Hc) as (st & Hst & Hdone).
  rewrite (Hdone o eq_refl) in Hst. split; [done|]. intros k Hk.
  destruct (Hp _ _ Hk) as (st' & Hst' & Hnd). simplify_eq. by destruct (Hnd o).
Qed.

(** No more keys are pending than operations are in flight. *)
Lemma pending_count_le pend h : pending_ok pend h → size pend ≤ in_flight h.
Proof.
  intros Hok. unfold in_flight.
  rewrite <-length_map_to_list, <-(length_fmap snd). apply indices_le_filter.
  - apply NoDup_fmap_2_strong; [|apply NoDup_map_to_list].
    intros [k1 p1] [k2 p2] H1%elem_of_map_to_list H2%elem_of_map_to_list. simpl.
    intros <-. destruct (Hok _ _ H1) as (st1 & Hc1 & _).
    destruct (Hok _ _ H2) as (st2 & Hc2 & _). rewrite Hc1 in Hc2.
    by injection Hc2 as -> _.
  - intros p [[k p'] [-> Hin%elem_of_map_to_list]]%list_elem_of_fmap. simpl.
    destruct (Hok _ _ Hin) as (st & Hc & Hnd). exists (Chain k st). split; [done|].
    unfold running; simpl. destruct st as [| |o]; try done. by destruct (Hnd o).
Qed.

End pending.

End host_facts.
End HostFacts.
Import HostFacts.

(** * Facts about RequestCoalescer *)

Module RequestCoalescerFacts.
Import RequestCoalescer.
Section facts.
Context `{Countable K} {V E : Type}.
Implicit Types (s : state K V E) (k key : K) (op request : thunk E)
  (o : outcome V E) (ev : event K V E).

Lemma rc_run_app s evs1 evs2 :
  run s (evs1 ++ evs2) = s' ← run s evs1; run s' evs2.
Proof.
  revert s. induction evs1 as [|ev evs1 IH]; intros s; simpl; [done|].
  destruct (step s ev); simpl; [apply IH|done].
Qed.

Lemma rc_run_cons s ev evs : run s (ev :: evs) = s' ← step s ev; run s' evs.
Proof. done. Qed.

Lemma rc_reachable_init : reachable (@init K _ _ V E).
Proof. by exists []. Qed.

Lemma rc_reachable_step s ev s' : reachable s → step s ev = Some s' → reachable s'.
Proof.
  intros [evs Hevs] Hstep. exists (evs ++ [ev]).
  rewrite rc_run_app, Hevs; simpl. by rewrite Hstep.
Qed.

Lemma rc_reachable_run s evs s' : reachable s → run s evs = Some s' → reachable s'.
Proof.
  revert s. induction evs as [|ev evs IH]; intros s Hs; simpl; [by intros [= <-]|].
  destruct (step s ev) as [s1|] eqn:Hstep; simpl; [|done].
  eauto using rc_reachable_step.
Qed.

Lemma rc_reachable_ind (P : state K V E → Prop) :
  P init → (∀ s ev s', P s → step s ev = Some s' → P s') →
  ∀ s, reachable s → P s.
Proof.
  intros Hinit Hstep s [evs Hevs]. revert s Hevs.
  induction evs as [|ev evs IH] using rev_ind; intros s; simpl.
  - by intros [= <-].
  - rewrite rc_run_app. destruct (run init evs) as [s1|]; simpl; [|done].
    destruct (step s1 ev) as [s2|] eqn:Hs2; simpl; [|done]. intros [= <-]. eauto.
Qed.

(** *** [execute], branch by branch *)

Lemma rc_execute_attach s k op p :
  pendingRequests s !! k = Some p →
  execute k op s = State (pendingRequests s) (add_call k (Adopt p) None (rt s)).
Proof. unfold execute. by intros ->. Qed.

Lemma rc_execute_start s k op :
  pendingRequests s !! k = None → thunk_throws op = None →
  execute k op s =
    State (<[k := length (chains (rt s))]> (pendingRequests s))
      (add_call k (Adopt (length (chains (rt s)))) None
         (spawn k (log_invocation op (rt s)))).
Proof. unfold execute. by intros -> ->. Qed.

Lemma rc_execute_throw s k op e :
  pendingRequests s !! k = None → thunk_throws op = Some e →
  execute k op s =
    State (pendingRequests s)
      (add_call k Direct (Some (Rejected e)) (log_invocation op (rt s))).
Proof. unfold execute. by intros -> ->. Qed.

Lemma rc_execute_invokes s k op :
  pendingRequests s !! k = None →
  invoked (rt (execute k op s)) = invoked (rt s) ++ [op].
Proof.
  intros Hk. destruct (thunk_throws op) as [e|] eqn:Hop.
  - by erewrite rc_execute_throw.
  - by rewrite rc_execute_start.
Qed.

(** *** The reaction job *)

Lemma rc_react_Some p s s' :
  react p s = Some s' →
  ∃ key o, chains (rt s) !! p = Some (Chain key (Settling o)) ∧
    s' = State (delete key (pendingRequests s)) (set_chain p (Done o) (rt s)).
Proof.
  unfold react. destruct (due p (rt s)) as [[key o]|] eqn:Hdue; simpl; [|done].
  apply due_Some in Hdue. destruct o; simpl; intros [= <-]; eauto.
Qed.

Lemma rc_react_settling p s key o :
  chains (rt s) !! p = Some (Chain key (Settling o)) →
  react p s = Some (State (delete key (pendingRequests s)) (set_chain p (Done o) (rt s))).
Proof.
  intros Hdue%due_Some. unfold react. rewrite Hdue; simpl. by destruct o.
Qed.

(** *** The invariant of reachable states *)

Definition coherent s : Prop :=
  host_ok (rt s) ∧ pending_ok (pendingRequests s) (rt s).

Lemma rc_coherent_init : coherent (@init K _ _ V E).
Proof. split; [apply host_ok_empty|apply pending_ok_empty]. Qed.

Lemma rc_execute_coherent key request s : coherent s → coherent (execute key request s).
Proof.
  intros [Hh Hp]. unfold execute.
  destruct (pendingRequests s !! key) as [p|] eqn:Hkey.
  - destruct (Hp _ _ Hkey) as (st & Hst & _).
    split; simpl; [by eapply host_ok_attach|done].
  - destruct (thunk_throws request) as [e|]; simpl.
    + split; simpl; [by apply host_ok_direct, host_ok_log|done].
    + split; simpl.
      * eapply host_ok_attach; [by apply host_ok_spawn, host_ok_log|].
        simpl. by rewrite lookup_app_r, Nat.sub_diag by lia.
      * by apply (pending_ok_register key _ (rt s)).
Qed.

Lemma rc_step_coherent s ev s' : coherent s → step s ev = Some s' → coherent s'.
Proof.
  intros [Hh Hp]. destruct ev as [key request|key| |p o|p|c]; simpl.
  - intros [= <-]. by apply rc_execute_coherent.
  - intros [= <-]. split; simpl; [done|by apply pending_ok_delete].
  - intros [= <-]. split; simpl; [done|apply pending_ok_empty].
  - destruct (settle p o (rt s)) as [h|] eqn:Hset; simpl; [|done]. intros [= <-].
    split; simpl; [by eapply host_ok_settle|by eapply pending_ok_settle].
  - intros (key & o & Hdue%due_Some & ->)%rc_react_Some.
    split; simpl; [by eapply host_ok_finish|by eapply pending_ok_finish].
  - destruct (deliver c (rt s)) as [h|] eqn:Hdel; simpl; [|done]. intros [= <-].
    split; simpl; [by eapply host_ok_deliver|by eapply pending_ok_deliver].
Qed.

Lemma rc_reachable_coherent s : reachable s → coherent s.
Proof. apply rc_reachable_ind; eauto using rc_coherent_init, rc_step_coherent. Qed.

(** *** Attaching many callers, and delivering to them *)

Lemma rc_attach_all ops s k p :
  pendingRequests s !! k = Some p →
  run s (Execute k <$> ops) =
    Some (State (pendingRequests s)
            (MkHost (chains (rt s))
               (calls (rt s) ++ replicate (length ops) (Call k (Adopt p) None))
               (invoked (rt s)))).
Proof.
  revert s. induction ops as [|op ops IH]; intros s Hk; simpl.
  - rewrite app_nil_r. by destruct s as [? []].
  - rewrite (rc_execute_attach _ _ _ p) by done. rewrite IH by done. simpl.
    by rewrite <-app_assoc.
Qed.

Lemma rc_deliver_all n c0 s k p key o :
  chains (rt s) !! p = Some (Chain key (Done o)) →
  (∀ i, i < n → calls (rt s) !! (c0 + i) = Some (Call k (Adopt p) None)) →
  ∃ s', run s (Deliver <$> seq c0 n) = Some s' ∧
    pendingRequests s' = pendingRequests s ∧
    chains (rt s') = chains (rt s) ∧ invoked (rt s') = invoked (rt s) ∧
    length (calls (rt s')) = length (calls (rt s)) ∧
    (∀ c, c < c0 → calls (rt s') !! c = calls (rt s) !! c) ∧
    (∀ i, i < n → received (c0 + i) (rt s') = Some o).
Proof.
  revert c0 s. induction n as [|n IH]; intros c0 s Hp Hcalls; simpl.
  - exists s. repeat split; try done. intros i ?; lia.
  - pose proof (Hcalls 0 ltac:(lia)) as Hc0. rewrite Nat.add_0_r in Hc0.
    erewrite deliver_done by done. simpl.
    edestruct (IH (S c0)) as (s' & Hrun & Hpend & Hch & Hinv & Hlen & Hold & Hnew);
      [| |rewrite Hrun]; simpl; [done| |].
    { intros i Hi. rewrite list_lookup_insert_ne by lia.
      replace (S (c0 + i)) with (c0 + S i) by lia. apply Hcalls. lia. }
    exists s'. simpl in *. repeat split; try done.
    + by rewrite Hlen, length_insert.
    + intros c Hc. rewrite Hold by lia. by rewrite list_lookup_insert_ne by lia.
    + intros [|i] Hi.
      * unfold received. rewrite Nat.add_0_r, Hold by lia.
        by rewrite list_lookup_insert_eq by (by eapply lookup_lt_Some).
      * replace (c0 + S i) with (S c0 + i) by lia. apply Hnew. lia.
Qed.

(** [S (length ops)] calls for [k] in a row, the first by [op]: one
    invocation, one chain, and every caller receives the outcome [o] with
    which that chain settles. *)
Lemma rc_concurrent_calls s k op ops o :
  pendingRequests s !! k = None → thunk_throws op = None →
  let p := length (chains (rt s)) in
  let c0 := length (calls (rt s)) in
  ∃ s1 s2,
    run s (Execute k <$> op :: ops) = Some s1 ∧
    invoked (rt s1) = invoked (rt s) ++ [op] ∧
    pendingRequests s1 !! k = Some p ∧
    (∀ i, i ≤ length ops → calls (rt s1) !! (c0 + i) = Some (Call k (Adopt p) None)) ∧
    run s1 (Settle p o :: React p :: (Deliver <$> seq c0 (S (length ops)))) = Some s2 ∧
    invoked (rt s2) = invoked (rt s) ++ [op] ∧
    pendingRequests s2 !! k = None ∧
    (∀ i, i ≤ length ops → received (c0 + i) (rt s2) = Some o) ∧
    length (calls (rt s2)) = c0 + S (length ops).
Proof.
  intros Hk Hop p c0.
  set (cl := Call k (Adopt p) (None : option (outcome V E))).
  set (s1 := State (<[k := p]> (pendingRequests s))
    (MkHost (chains (rt s) ++ [Chain k Running])
       (calls (rt s) ++ replicate (S (length ops)) cl) (invoked (rt s) ++ [op]))).
  set (s1a := State (pendingRequests s1) (set_chain p (Settling o) (rt s1))).
  set (s1b := State (delete k (pendingRequests s1a)) (set_chain p (Done o) (rt s1a))).
  assert (run s (Execute k <$> op :: ops) = Some s1) as Hrun1.
  { rewrite fmap_cons, rc_run_cons. cbn [step mbind option_bind].
    rewrite rc_execute_start by done.
    rewrite (rc_attach_all _ _ _ p) by (simpl; apply lookup_insert_eq).
    unfold s1. simpl. by rewrite <-app_assoc. }
  assert (chains (rt s1) !! p = Some (Chain k Running)) as Hp1.
  { simpl. by rewrite lookup_app_r, Nat.sub_diag by (unfold p; lia). }
  assert (step s1 (Settle p o) = Some s1a) as Hstep1.
  { cbn [step]. by erewrite settle_running. }
  assert (chains (rt s1a) !! p = Some (Chain k (Settling o))) as Hp1a.
  { unfold s1a. cbn [rt]. by rewrite set_chain_lookup, decide_True, Hp1. }
  assert (step s1a (React p) = Some s1b) as Hstep2.
  { cbn [step]. by erewrite rc_react_settling. }
  assert (∀ i, i ≤ length ops → calls (rt s1) !! (c0 + i) = Some cl) as Hcalls.
  { intros i Hi. unfold s1. cbn [rt calls]. rewrite lookup_app_r by (unfold c0; lia).
    apply lookup_replicate_2. unfold c0. lia. }
  destruct (rc_deliver_all (S (length ops)) c0 s1b k p k o)
    as (s2 & Hrun2 & Hpend & Hch & Hinv & Hlen & _ & Hrecv).
  { unfold s1b. cbn [rt]. by rewrite set_chain_lookup, decide_True, Hp1a. }
  { intros i Hi. apply Hcalls. lia. }
  exists s1, s2. split_and!; try done.
  - simpl. apply lookup_insert_eq.
  - rewrite rc_run_cons, Hstep1. cbn [mbind option_bind].
    by rewrite rc_run_cons, Hstep2.
  - rewrite Hpend. simpl. apply lookup_delete_eq.
  - intros i Hi. apply Hrecv. lia.
  - rewrite Hlen. unfold s1b, s1a, s1, set_chain. cbn [rt calls].
    by rewrite length_app, length_replicate.
Qed.

(** Two calls for [k], the second made after the first has fully settled
    (its continuation has run and its caller holds the outcome): both
    thunks are invoked. *)
Lemma rc_sequential_calls s k op op' o :
  pendingRequests s !! k = None → thunk_throws op = None →
  let p := length (chains (rt s)) in
  let c0 := length (calls (rt s)) in
  ∃ s1,
    run s [Execute k op; Settle p o; React p; Deliver c0] = Some s1 ∧
    received c0 (rt s1) = Some o ∧
    pendingRequests s1 !! k = None ∧
    invoked (rt s1) = invoked (rt s) ++ [op] ∧
    invoked (rt (execute k op' s1)) = invoked (rt s) ++ [op; op'].
Proof.
  intros Hk Hop p c0.
  destruct (rc_concurrent_calls s k op [] o Hk Hop)
    as (s1 & s2 & Hrun1 & _ & _ & _ & Hrun2 & Hinv & Hpend & Hrecv & _).
  exists s2. split_and!; try done.
  - change [Execute k op; Settle p o; React p; Deliver c0]
      with ((Execute k <$> [op]) ++ Settle p o :: React p :: (Deliver <$> seq c0 1)).
    by rewrite rc_run_app, Hrun1.
  - rewrite <-(Hrecv 0), Nat.add_0_r; [done|simpl; lia].
  - rewrite rc_execute_invokes, Hinv by done. by rewrite <-app_assoc.
Qed.

(** The same when the first thunk throws before returning a promise. *)
Lemma rc_sequential_throws s k op op' e :
  pendingRequests s !! k = None → thunk_throws op = Some e →
  received (length (calls (rt s))) (rt (execute k op s)) = Some (Rejected e) ∧
  pendingRequests (execute k op s) !! k = None ∧
  invoked (rt (execute k op' (execute k op s))) = invoked (rt s) ++ [op; op'].
Proof.
  intros Hk Hop. rewrite (rc_execute_throw _ _ _ e) by done. split_and!.
  - simpl. apply (received_add_call_new _ _ _ (log_invocation op (rt s))).
  - done.
  - rewrite rc_execute_invokes by done. simpl. by rewrite <-app_assoc.
Qed.

(** *** A continuation that outlives its registration

    [clear k] while the first operation for [k] is in flight, then a second
    call for [k]: when the first operation settles, its continuation
    deletes the entry of [k], which by then belongs to the second
    operation. *)
Lemma rc_stale_deletion s k op1 op2 op3 o :
  pendingRequests s !! k = None →
  thunk_throws op1 = None → thunk_throws op2 = None → thunk_throws op3 = None →
  let p1 := length (chains (rt s)) in
  ∃ s1,
    run s [Execute k op1; Clear k; Execute k op2; Settle p1 o; React p1] = Some s1 ∧
    chains (rt s1) !! S p1 = Some (Chain k Running) ∧
    pendingRequests s1 !! k = None ∧
    invoked (rt s1) = invoked (rt s) ++ [op1; op2] ∧
    invoked (rt (execute k op3 s1)) = invoked (rt s) ++ [op1; op2; op3] ∧
    chains (rt (execute k op3 s1)) !! S (S p1) = Some (Chain k Running) ∧
    pendingRequests (execute k op3 s1) !! k = Some (S (S p1)) ∧
    last (calls (rt (execute k op3 s1))) = Some (Call k (Adopt (S (S p1))) None).
Proof.
  intros Hk Hop1 Hop2 Hop3 p1.
  set (sa := execute k op1 s).
  set (sb := clear k sa).
  set (sc := execute k op2 sb).
  assert (sa = State (<[k := p1]> (pendingRequests s))
    (add_call k (Adopt p1) None (spawn k (log_invocation op1 (rt s))))) as Hsa
    by (by apply rc_execute_start).
  assert (pendingRequests sb !! k = None) as Hkb by apply lookup_delete_eq.
  assert (length (chains (rt sb)) = S p1) as Hlen.
  { unfold sb. rewrite Hsa. simpl. rewrite length_app. simpl. unfold p1. lia. }
  assert (sc = State (<[k := S p1]> (pendingRequests sb))
    (add_call k (Adopt (S p1)) None (spawn k (log_invocation op2 (rt sb))))) as Hsc.
  { unfold sc. rewrite rc_execute_start by done. by rewrite Hlen. }
  assert (chains (rt sc) = chains (rt s) ++ [Chain k Running; Chain k Running]) as Hch.
  { rewrite Hsc. unfold sb. rewrite Hsa. simpl. by rewrite <-app_assoc. }
  assert (chains (rt sc) !! p1 = Some (Chain k Running)) as Hp1
    by (rewrite Hch; apply list_lookup_middle; done).
  set (sd := State (pendingRequests sc) (set_chain p1 (Settling o) (rt sc))).
  assert (step sc (Settle p1 o) = Some sd) as Hstep4
    by (cbn [step]; by erewrite settle_running).
  assert (chains (rt sd) !! p1 = Some (Chain k (Settling o))) as Hp1d.
  { unfold sd. cbn [rt]. by rewrite set_chain_lookup, decide_True, Hp1. }
  set (s1 := State (delete k (pendingRequests sd)) (set_chain p1 (Done o) (rt sd))).
  assert (step sd (React p1) = Some s1) as Hstep5
    by (cbn [step]; by erewrite rc_react_settling).
  assert (length (chains (rt s1)) = S (S p1)) as Hlen1.
  { unfold s1, sd. cbn [rt]. rewrite !set_chain_length, Hch, length_app. simpl.
    unfold p1. lia. }
  assert (invoked (rt s1) = invoked (rt s) ++ [op1; op2]) as Hinv1.
  { unfold s1, sd. simpl. rewrite Hsc. unfold sb. rewrite Hsa. simpl.
    by rewrite <-app_assoc. }
  assert (pendingRequests s1 !! k = None) as Hk1 by apply lookup_delete_eq.
  assert (run s [Execute k op1; Clear k; Execute k op2; Settle p1 o; React p1]
          = Some s1) as Hrun.
  { rewrite rc_run_cons. cbn [step mbind option_bind]. fold sa.
    rewrite rc_run_cons. cbn [step mbind option_bind]. fold sb.
    rewrite rc_run_cons. cbn [step mbind option_bind]. fold sc.
    rewrite rc_run_cons, Hstep4. cbn [mbind option_bind].
    by rewrite rc_run_cons, Hstep5. }
  assert (chains (rt s1) !! S p1 = Some (Chain k Running)) as Hp2.
  { unfold s1, sd. cbn [rt]. rewrite !set_chain_lookup, !decide_False by lia.
    rewrite Hch. rewrite lookup_app_r by (unfold p1; lia).
    by replace (S p1 - _) with 1 by (unfold p1; lia). }
  clearbody s1. exists s1. split_and!; try done.
  - rewrite rc_execute_invokes, Hinv1 by done. by rewrite <-app_assoc.
  - rewrite rc_execute_start by done. simpl. rewrite <-Hlen1.
    by apply list_lookup_middle.
  - rewrite rc_execute_start by done. simpl. rewrite Hlen1. apply lookup_insert_eq.
  - rewrite rc_execute_start by done. simpl. rewrite Hlen1. apply last_snoc.
Qed.

(** The three jobs that finish an operation for one attached caller. *)
Lemma rc_settle_react_deliver s p k c o :
  chains (rt s) !! p = Some (Chain k Running) →
  calls (rt s) !! c = Some (Call k (Adopt p) None) →
  ∃ s', run s [Settle p o; React p; Deliver c] = Some s' ∧
    pendingRequests s' = delete k (pendingRequests s) ∧
    received c (rt s') = Some o ∧
    invoked (rt s') = invoked (rt s) ∧
    chains (rt s') !! p = Some (Chain k (Done o)) ∧
    (∀ q, q ≠ p → chains (rt s') !! q = chains (rt s) !! q) ∧
    length (calls (rt s')) = length (calls (rt s)) ∧
    (∀ c', c' ≠ c → calls (rt s') !! c' = calls (rt s) !! c').
Proof.
  intros Hp Hc.
  set (h1 := set_chain p (Settling o) (rt s)).
  set (h2 := set_chain p (Done o) h1).
  set (h3 := MkHost (chains h2) (<[c := Call k (Adopt p) (Some o)]> (calls h2)) (invoked h2)).
  assert (chains h1 !! p = Some (Chain k (Settling o))) as Hp1.
  { unfold h1. by rewrite set_chain_lookup, decide_True, Hp. }
  assert (chains h2 !! p = Some (Chain k (Done o))) as Hp2.
  { unfold h2. by rewrite set_chain_lookup, decide_True, Hp1. }
  assert (step s (Settle p o) = Some (State (pendingRequests s) h1)) as Hs1.
  { cbn [step]. by erewrite settle_running. }
  assert (step (State (pendingRequests s) h1) (React p) =
          Some (State (delete k (pendingRequests s)) h2)) as Hs2.
  { cbn [step]. by rewrite (rc_react_settling p _ k o). }
  assert (step (State (delete k (pendingRequests s)) h2) (Deliver c) =
          Some (State (delete k (pendingRequests s)) h3)) as Hs3.
  { cbn [step rt pendingRequests]. by erewrite deliver_done. }
  exists (State (delete k (pendingRequests s)) h3). split_and!.
  - rewrite rc_run_cons, Hs1. cbn [mbind option_bind].
    rewrite rc_run_cons, Hs2. cbn [mbind option_bind].
    rewrite rc_run_cons, Hs3. done.
  - done.
  - unfold received. cbn [rt h3 calls].
    rewrite list_lookup_insert_eq; [done|]. by eapply lookup_lt_Some.
  - done.
  - done.
  - intros q Hq. cbn [rt h3 chains]. unfold h2, h1.
    rewrite !set_chain_lookup. by rewrite !decide_False by done.
  - cbn [rt h3 calls]. by rewrite length_insert.
  - intros c' Hc'. cbn [rt h3 calls]. by rewrite list_lookup_insert_ne.
Qed.

(** A call for another key leaves the entry of [k'] alone. *)
Lemma rc_execute_other s k k' op :
  k' ≠ k → pendingRequests (execute k op s) !! k' = pendingRequests s !! k'.
Proof.
  intros Hne. unfold execute. destruct (pendingRequests s !! k); [done|].
  destruct (thunk_throws op); [done|]. simpl. by rewrite lookup_insert_ne.
Qed.

(** *** What a trace without calls for [k] leaves alone *)

(** [ev] is a call of [execute] for [k]. *)
Definition rc_calls k ev : bool :=
  match ev with
  | Execute key _ => bool_decide (key = k)
  | _ => false
  end.

(** No event of [evs] is a call of [execute] for [k]. *)
Definition rc_quiet k (evs : list (event K V E)) : bool :=
  forallb (λ ev, negb (rc_calls k ev)) evs.

Lemma rc_step_pending_none k s ev s' :
  pendingRequests s !! k = None → rc_calls k ev = false →
  step s ev = Some s' → pendingRequests s' !! k = None.
Proof.
  intros Hk Hev. destruct ev as [key request|key| |p o|p|c]; simpl.
  - intros [= <-]. simpl in Hev. apply bool_decide_eq_false in Hev.
    by rewrite rc_execute_other.
  - intros [= <-]. simpl. by apply lookup_delete_None; right.
  - by intros [= <-].
  - destruct (settle p o (rt s)); simpl; [|done]. by intros [= <-].
  - intros (key & o & _ & ->)%rc_react_Some. simpl.
    by apply lookup_delete_None; right.
  - destruct (deliver c (rt s)); simpl; [|done]. by intros [= <-].
Qed.

Lemma rc_run_pending_none k s evs s' :
  pendingRequests s !! k = None → rc_quiet k evs = true →
  run s evs = Some s' → pendingRequests s' !! k = None.
Proof.
  revert s. induction evs as [|ev evs IH]; intros s Hk; simpl.
  - by intros _ [= <-].
  - intros [Hev Hevs]%andb_true_iff. apply negb_true_iff in Hev.
    destruct (step s ev) as [s1|] eqn:Hs1; simpl; [|done]. apply IH; [|done].
    by eapply rc_step_pending_none.
Qed.

(** After the continuation of a chain of [k] has run, [k] has no pending
    entry until [execute] is called for [k] again. *)
Lemma rc_settled_stays_unregistered p k o s evs s' :
  chains (rt s) !! p = Some (Chain k (Settling o)) → rc_quiet k evs = true →
  run s (React p :: evs) = Some s' → pendingRequests s' !! k = None.
Proof.
  intros Hp Hevs. rewrite rc_run_cons. cbn [step].
  rewrite (rc_react_settling _ _ _ _ Hp). cbn [mbind option_bind].
  apply rc_run_pending_none; [|done]. simpl. apply lookup_delete_eq.
Qed.

(** A call for a key without a pending entry never attaches: it invokes
    its thunk, and when the thunk returns a promise it registers a new
    chain and adopts it. *)
Lemma rc_execute_fresh_start s k op :
  pendingRequests s !! k = None →
  invoked (rt (execute k op s)) = invoked (rt s) ++ [op] ∧
  (thunk_throws op = None →
     chains (rt (execute k op s)) = chains (rt s) ++ [Chain k Running] ∧
     pendingRequests (execute k op s) !! k = Some (length (chains (rt s))) ∧
     last (calls (rt (execute k op s))) =
       Some (Call k (Adopt (length (chains (rt s)))) None)).
Proof.
  intros Hk. split; [by apply rc_execute_invokes|]. intros Hop.
  rewrite rc_execute_start by done. simpl. split_and!.
  - done.
  - apply lookup_insert_eq.
  - apply last_snoc.
Qed.

(** *** Calls for [k] while its operation stays registered *)

(** The events that leave the registration of [k] alone: all but
    [clear k], [clearAll], and the reaction job of a chain of [k]. *)
Definition rc_keeps k s ev : bool :=
  match ev with
  | Clear key => bool_decide (key ≠ k)
  | ClearAll => false
  | React q => bool_decide (chain_key <$> chains (rt s) !! q ≠ Some k)
  | _ => true
  end.

Fixpoint rc_undisturbed k s (evs : list (event K V E)) : bool :=
  match evs with
  | [] => true
  | ev :: evs =>
      rc_keeps k s ev &&
      match step s ev with
      | Some s' => rc_undisturbed k s' evs
      | None => true
      end
  end.

(** The thunk of a call for a key other than [k]. *)
Definition rc_other_thunk k ev : list (thunk E) :=
  match ev with
  | Execute key request => if decide (key = k) then [] else [request]
  | _ => []
  end.

(** The key of a call of [execute]. *)
Definition rc_called_key ev : list K :=
  match ev with
  | Execute key _ => [key]
  | _ => []
  end.

Lemma rc_execute_heads key request s :
  ∃ src, call_head <$> calls (rt (execute key request s)) =
           (call_head <$> calls (rt s)) ++ [(key, src)] ∧
    (∀ p, pendingRequests s !! key = Some p → src = Adopt p).
Proof.
  unfold execute. destruct (pendingRequests s !! key) as [p|].
  - exists (Adopt p). split; [apply call_heads_add|]. by intros ? [= <-].
  - destruct (thunk_throws request).
    + exists Direct. simpl. by rewrite fmap_app.
    + eexists. simpl. by rewrite fmap_app.
Qed.

Lemma rc_step_registered k p s ev s' :
  pendingRequests s !! k = Some p → rc_keeps k s ev = true →
  step s ev = Some s' →
  pendingRequests s' !! k = Some p ∧
  (∃ ext, invoked (rt s') = invoked (rt s) ++ ext ∧
     ext `sublist_of` rc_other_thunk k ev) ∧
  (∃ new, call_head <$> calls (rt s') = (call_head <$> calls (rt s)) ++ new ∧
     new.*1 = rc_called_key ev ∧ ∀ src, (k, src) ∈ new → src = Adopt p).
Proof.
  intros Hk Hev. destruct ev as [key request|key| |q o|q|c]; simpl.
  - intros [= <-]. split_and!.
    + destruct (decide (key = k)) as [->|Hne].
      * by rewrite (rc_execute_attach _ _ _ p).
      * by rewrite rc_execute_other.
    + case_decide as Hkey.
      * subst key. rewrite (rc_execute_attach _ _ _ p) by done. exists [].
        by rewrite app_nil_r.
      * unfold execute. destruct (pendingRequests s !! key).
        { exists []. rewrite app_nil_r. split; [done|]. apply sublist_nil_l. }
        destruct (thunk_throws request); by exists [request].
    + destruct (rc_execute_heads key request s) as (src & Hheads & Hsrc).
      exists [(key, src)]. split_and!; [done..|].
      intros src' [= <- <-]%list_elem_of_singleton. by apply Hsrc.
  - intros [= <-]. simpl in *. apply bool_decide_eq_true in Hev. split_and!.
    + by rewrite lookup_delete_ne.
    + exists []. by rewrite app_nil_r.
    + exists []. rewrite app_nil_r. split_and!; [done..|]. by intros ? ?%elem_of_nil.
  - done.
  - destruct (settle q o (rt s)) as [h|] eqn:Hset; simpl; [|done]. intros [= <-].
    apply settle_Some in Hset as (ch & _ & _ & ->). simpl. split_and!.
    + done.
    + exists []. by rewrite app_nil_r.
    + exists []. rewrite app_nil_r. split_and!; [done..|]. by intros ? ?%elem_of_nil.
  - intros (key & o & Hq & ->)%rc_react_Some. simpl in *.
    apply bool_decide_eq_true in Hev. rewrite Hq in Hev. simpl in Hev.
    split_and!.
    + rewrite lookup_delete_ne; [done|]. by intros ->.
    + exists []. by rewrite app_nil_r.
    + exists []. rewrite app_nil_r. split_and!; [done..|]. by intros ? ?%elem_of_nil.
  - destruct (deliver c (rt s)) as [h|] eqn:Hdel; simpl; [|done]. intros [= <-].
    simpl. split_and!.
    + done.
    + exists []. rewrite app_nil_r. split; [|done].
      by apply deliver_Some in Hdel as (? & ? & ? & ? & _ & _ & _ & ->).
    + exists []. rewrite app_nil_r. split_and!; [|done|by intros ? ?%elem_of_nil].
      by eapply call_heads_deliver.
Qed.

(** While [k] stays registered with chain [p], no call for [k] invokes its
    thunk, and every call for [k] adopts [p]. *)
Lemma rc_run_registered k p s evs s' :
  pendingRequests s !! k = Some p → rc_undisturbed k s evs = true →
  run s evs = Some s' →
  pendingRequests s' !! k = Some p ∧
  (∃ ext, invoked (rt s') = invoked (rt s) ++ ext ∧
     ext `sublist_of` (evs ≫= rc_other_thunk k)) ∧
  (∃ new, call_head <$> calls (rt s') = (call_head <$> calls (rt s)) ++ new ∧
     new.*1 = evs ≫= rc_called_key ∧ ∀ src, (k, src) ∈ new → src = Adopt p).
Proof.
  revert s. induction evs as [|ev evs IH]; intros s Hk; simpl.
  - intros _ [= <-]. split_and!; [done| |].
    + exists []. by rewrite app_nil_r.
    + exists []. rewrite app_nil_r. split_and!; [done..|]. by intros ? ?%elem_of_nil.
  - intros [Hev Hevs]%andb_true_iff.
    destruct (step s ev) as [s1|] eqn:Hs1; simpl; [|done]. intros Hrun.
    destruct (rc_step_registered k p s ev s1 Hk Hev Hs1)
      as (Hk1 & (ext1 & Hinv1 & Hsub1) & (new1 & Hcalls1 & Hkeys1 & Hsrc1)).
    destruct (IH s1 Hk1 Hevs Hrun)
      as (Hk' & (ext2 & Hinv2 & Hsub2) & (new2 & Hcalls2 & Hkeys2 & Hsrc2)).
    split_and!; [done| |].
    + exists (ext1 ++ ext2). rewrite Hinv2, Hinv1, <-app_assoc. split; [done|].
      by apply sublist_app.
    + exists (new1 ++ new2). rewrite Hcalls2, Hcalls1, <-app_assoc.
      split_and!; [done| |].
      * by rewrite fmap_app, Hkeys1, Hkeys2.
      * intros src [?|?]%elem_of_app; eauto.
Qed.

(** Once the chain is done, each caller that adopted it receives its
    outcome. *)
Lemma rc_deliver_adopted s c k p o :
  chains (rt s) !! p = Some (Chain k (Done o)) →
  calls (rt s) !! c = Some (Call k (Adopt p) None) →
  ∃ s', step s (Deliver c) = Some s' ∧ received c (rt s') = Some o.
Proof.
  intros Hp Hc. eexists. split.
  - cbn [step]. by erewrite deliver_done.
  - unfold received. simpl.
    by rewrite list_lookup_insert_eq by (by eapply lookup_lt_Some).
Qed.

End facts.
End RequestCoalescerFacts.

(** * Facts about CachedRequestCoalescer *)

Module CachedRequestCoalescerFacts.
Import CachedRequestCoalescer.

(** A key type without [NaN], such as the strings: on it [===] is the
    equality of the [Map]. *)
Definition NaN_free (K : Type) `{!JSKey K} : Prop :=
  ∀ k : K, isNaN k = false.

(** A key type without [undefined]: on it [accessOrder[0]] is [undefined]
    only when the array is empty. *)
Definition undefined_free (K : Type) `{!JSKey K} : Prop :=
  ∀ k : K, isUndefined k = false.

Lemma string_NaN_free : NaN_free string.
Proof. done. Qed.

Lemma string_undefined_free : undefined_free string.
Proof. done. Qed.

Section facts.
Context `{Countable K} `{!JSKey K} {V E : Type}.
Implicit Types (s : state K V E) (k key : K) (op request : thunk E)
  (o : outcome V E) (ev : event K V E) (l : list K) (entry : CacheEntry V).

(** The facts that speak of the access order as a list of distinct keys
    are about keys other than [NaN]; those that speak of the key evicted
    are about keys other than [undefined]. *)
Hypothesis no_NaN : NaN_free K.
Hypothesis no_undefined : undefined_free K.

(** *** [indexOf] and [splice] on the access order *)

Lemma splice_key_nil k : splice_key k [] = [].
Proof. unfold splice_key, indexOf. by destruct (isNaN k). Qed.

(** [NaN] is never found: its earlier occurrences stay. *)
Lemma splice_key_NaN k l : isNaN k = true → splice_key k l = l.
Proof. intros Hk. unfold splice_key, indexOf. by rewrite Hk. Qed.

Lemma splice_key_found k x l :
  isNaN k = false →
  splice_key k (x :: l) = if decide (x = k) then l else x :: splice_key k l.
Proof.
  intros Hk. unfold splice_key, indexOf. rewrite Hk. simpl.
  case_decide; simpl; [done|]. by destruct (list_find _ l) as [[i y]|].
Qed.

Lemma splice_key_cons k x l :
  splice_key k (x :: l) = if decide (x = k) then l else x :: splice_key k l.
Proof. apply splice_key_found, no_NaN. Qed.

Lemma filter_ne_absent k l : k ∉ l → filter (λ x, x ≠ k) l = l.
Proof.
  induction l as [|x l IH]; [done|]. intros [Hx Hl]%not_elem_of_cons.
  rewrite filter_cons_True by done. by rewrite IH.
Qed.


Lemma splice_key_filter k l :
  NoDup l → splice_key k l = filter (λ x, x ≠ k) l.
Proof.
  induction 1 as [|x l Hx Hl IH]; [by rewrite splice_key_nil|].
  rewrite splice_key_cons, filter_cons. case_decide as Hxk.
  - subst x. rewrite decide_False by naive_solver. by rewrite filter_ne_absent.
  - rewrite decide_True by done. by rewrite IH.
Qed.


Lemma elem_of_splice_key k l x :
  NoDup l → x ∈ splice_key k l ↔ x ∈ l ∧ x ≠ k.
Proof. intros Hl. rewrite splice_key_filter, list_elem_of_filter by done. tauto. Qed.

Lemma NoDup_splice_key k l : NoDup l → NoDup (splice_key k l).
Proof. intros Hl. rewrite splice_key_filter by done. by apply NoDup_filter. Qed.

Lemma NoDup_touch k l : NoDup l → NoDup (splice_key k l ++ [k]).
Proof.
  intros Hl. apply NoDup_app. split_and!.
  - by apply NoDup_splice_key.
  - intros x [_ Hx]%elem_of_splice_key Hin%list_elem_of_singleton; done.
  - apply NoDup_singleton.
Qed.

Lemma elem_of_touch k l x :
  NoDup l → x ∈ splice_key k l ++ [k] ↔ x ∈ l ∨ x = k.
Proof.
  intros Hl. rewrite elem_of_app, elem_of_splice_key, list_elem_of_singleton by done.
  destruct (decide (x = k)); tauto.
Qed.

Lemma last_touch k l : last (splice_key k l ++ [k]) = Some k.
Proof. apply last_snoc. Qed.

(** *** Traces *)

Lemma run_app s evs1 evs2 :
  run s (evs1 ++ evs2) = s' ← run s evs1; run s' evs2.
Proof.
  revert s. induction evs1 as [|ev evs1 IH]; intros s; simpl; [done|].
  destruct (step s ev); simpl; [apply IH|done].
Qed.

Lemma reachable_init opts t : reachable (@init K _ _ V E opts t).
Proof. by exists opts, t, []. Qed.

Lemma reachable_step s ev s' : reachable s → step s ev = Some s' → reachable s'.
Proof.
  intros (opts & t & evs & Hevs) Hstep. exists opts, t, (evs ++ [ev]).
  rewrite run_app, Hevs; simpl. by rewrite Hstep.
Qed.

Lemma reachable_run s evs s' : reachable s → run s evs = Some s' → reachable s'.
Proof.
  revert s. induction evs as [|ev evs IH]; intros s Hs; simpl; [by intros [= <-]|].
  destruct (step s ev) as [s1|] eqn:Hstep; simpl; [|done].
  eauto using reachable_step.
Qed.

Lemma reachable_ind (P : state K V E → Prop) :
  (∀ opts t, P (init opts t)) →
  (∀ s ev s', P s → step s ev = Some s' → P s') →
  ∀ s, reachable s → P s.
Proof.
  intros Hinit Hstep s (opts & t & evs & Hevs). revert s Hevs.
  induction evs as [|ev evs IH] using rev_ind; intros s; simpl.
  - by intros [= <-].
  - rewrite run_app. destruct (run (init opts t) evs) as [s1|]; simpl; [|done].
    destruct (step s1 ev) as [s2|] eqn:Hs2; simpl; [|done]. intros [= <-]. eauto.
Qed.

Lemma run_ind (P : state K V E → Prop) s evs s' :
  (∀ s ev s', P s → step s ev = Some s' → P s') →
  P s → run s evs = Some s' → P s'.
Proof.
  intros Hstep. revert s. induction evs as [|ev evs IH]; intros s Hs; simpl.
  - by intros [= <-].
  - destruct (step s ev) as [s1|] eqn:Hs1; simpl; [|done]. eauto.
Qed.

(** *** Validity of cache entries *)

Definition ttl_configured (opts : CachedCoalescerOptions) : Prop :=
  ∃ t, ttl opts = Some t ∧ t ≠ 0%Z.

Lemma truthy_ttl opts : truthy (ttl opts) = true ↔ ttl_configured opts.
Proof.
  unfold truthy, ttl_configured. destruct (ttl opts) as [t|].
  - rewrite bool_decide_eq_true. naive_solver.
  - naive_solver.
Qed.

Lemma isCacheValid_true entry s :
  isCacheValid entry s = true ↔
  ∃ t, ttl (options s) = Some t ∧ t ≠ 0%Z ∧ (now s - timestamp entry < t)%Z.
Proof.
  unfold isCacheValid, truthy. destruct (ttl (options s)) as [t|]; simpl.
  - case_bool_decide as Ht; simpl.
    + rewrite bool_decide_eq_true. naive_solver.
    + split; [done|]. intros (t' & [= <-] & ? & _). done.
  - naive_solver.
Qed.


Lemma isCached_true k s :
  isCached k s = true ↔
  ∃ entry, cache s !! k = Some entry ∧ isCacheValid entry s = true.
Proof. unfold isCached. destruct (cache s !! k); naive_solver. Qed.

Lemma isCached_false k s :
  isCached k s = false ↔
  ∀ entry, cache s !! k = Some entry → isCacheValid entry s = false.
Proof. unfold isCached. destruct (cache s !! k); naive_solver. Qed.

(** *** [execute], branch by branch *)

Lemma execute_hit s k op entry :
  cache s !! k = Some entry → isCacheValid entry s = true →
  execute k op s =
    with_host (add_call k Direct (Some (Fulfilled (result entry))) (rt s))
      (updateAccessOrder k s).
Proof. unfold execute. by intros -> ->. Qed.

Lemma execute_miss s k op :
  isCached k s = false →
  execute k op s =
    match pendingRequests s !! k with
    | Some pending => with_host (add_call k (Adopt pending) None (rt s)) s
    | None =>
        let h := log_invocation op (rt s) in
        match thunk_throws op with
        | Some e => with_host (add_call k Direct (Some (Rejected e)) h) s
        | None =>
            with_host (add_call k (Adopt (length (chains h))) None (spawn k h))
              (with_pending (<[k := length (chains h)]> (pendingRequests s)) s)
        end
    end.
Proof.
  unfold isCached, execute. destruct (cache s !! k) as [entry|]; [|done].
  by intros ->.
Qed.

Lemma execute_attach s k op p :
  isCached k s = false → pendingRequests s !! k = Some p →
  execute k op s = with_host (add_call k (Adopt p) None (rt s)) s.
Proof. intros Hc Hp. by rewrite execute_miss, Hp. Qed.

Lemma execute_start s k op :
  isCached k s = false → pendingRequests s !! k = None → thunk_throws op = None →
  execute k op s =
    with_host
      (add_call k (Adopt (length (chains (rt s)))) None
         (spawn k (log_invocation op (rt s))))
      (with_pending (<[k := length (chains (rt s))]> (pendingRequests s)) s).
Proof. intros Hc Hp Hop. by rewrite execute_miss, Hp, Hop. Qed.

Lemma execute_throw s k op e :
  isCached k s = false → pendingRequests s !! k = None → thunk_throws op = Some e →
  execute k op s =
    with_host (add_call k Direct (Some (Rejected e)) (log_invocation op (rt s))) s.
Proof. intros Hc Hp Hop. by rewrite execute_miss, Hp, Hop. Qed.

Lemma execute_invokes s k op :
  isCached k s = false → pendingRequests s !! k = None →
  invoked (rt (execute k op s)) = invoked (rt s) ++ [op].
Proof.
  intros Hc Hk. rewrite execute_miss, Hk by done. simpl.
  by destruct (thunk_throws op).
Qed.

Lemma execute_options s k op : options (execute k op s) = options s.
Proof.
  unfold execute. destruct (cache s !! k) as [entry|];
    [destruct (isCacheValid entry s); [done|]|];
    (destruct (pendingRequests s !! k); [done|]); by destruct (thunk_throws op).
Qed.

Lemma execute_now s k op : now (execute k op s) = now s.
Proof.
  unfold execute. destruct (cache s !! k) as [entry|];
    [destruct (isCacheValid entry s); [done|]|];
    (destruct (pendingRequests s !! k); [done|]); by destruct (thunk_throws op).
Qed.

Lemma execute_cache s k op : cache (execute k op s) = cache s.
Proof.
  unfold execute. destruct (cache s !! k) as [entry|];
    [destruct (isCacheValid entry s); [done|]|];
    (destruct (pendingRequests s !! k); [done|]); by destruct (thunk_throws op).
Qed.

(** *** Eviction and admission *)

Lemma evict_cases s :
  (evict s = s) ∨
  (∃ m lruKey rest, maxSize (options s) = Some m ∧ m ≠ 0%Z ∧
     (m ≤ Z.of_nat (size (cache s)))%Z ∧ accessOrder s = lruKey :: rest ∧
     evict s = with_accessOrder rest (with_cache (delete lruKey (cache s)) s)).
Proof.
  unfold evict. destruct (maxSize (options s)) as [m|] eqn:Hm; [|by left].
  destruct (truthy (Some m) && bool_decide (m ≤ Z.of_nat (size (cache s)))%Z) eqn:Hif;
    [|by left].
  apply andb_true_iff in Hif as [Hm0%bool_decide_eq_true Hsz%bool_decide_eq_true].
  destruct (accessOrder s) as [|lruKey rest] eqn:Hao; [by left|].
  destruct (isUndefined lruKey); [by left|].
  right. by exists m, lruKey, rest.
Qed.

Lemma evict_defined s m lruKey rest :
  maxSize (options s) = Some m → m ≠ 0%Z → (m ≤ Z.of_nat (size (cache s)))%Z →
  accessOrder s = lruKey :: rest → isUndefined lruKey = false →
  evict s = with_accessOrder rest (with_cache (delete lruKey (cache s)) s).
Proof.
  intros Hm Hm0 Hsz Hao Hu. unfold evict. rewrite Hm, Hao, Hu. unfold truthy.
  by rewrite !bool_decide_eq_true_2.
Qed.

(** The key [undefined] at the front of the access order is never
    evicted, and nothing else is evicted in its place. *)
Lemma evict_undefined s lruKey rest :
  accessOrder s = lruKey :: rest → isUndefined lruKey = true → evict s = s.
Proof.
  intros Hao Hu. unfold evict. rewrite Hao, Hu.
  destruct (maxSize (options s)); [|done]. by destruct (_ && _).
Qed.

Lemma evict_full s m lruKey rest :
  maxSize (options s) = Some m → m ≠ 0%Z → (m ≤ Z.of_nat (size (cache s)))%Z →
  accessOrder s = lruKey :: rest →
  evict s = with_accessOrder rest (with_cache (delete lruKey (cache s)) s).
Proof. intros Hm Hm0 Hsz Hao. apply (evict_defined s m); [done..|apply no_undefined]. Qed.

Lemma evict_below s m :
  maxSize (options s) = Some m → (Z.of_nat (size (cache s)) < m)%Z → evict s = s.
Proof.
  intros Hm Hsz. unfold evict. rewrite Hm.
  rewrite (bool_decide_eq_false_2 (m ≤ _)%Z) by lia. by rewrite andb_false_r.
Qed.

Lemma evict_unbounded s : truthy (maxSize (options s)) = false → evict s = s.
Proof.
  unfold evict. destruct (maxSize (options s)) as [m|]; [|done]. by intros ->.
Qed.

Lemma evict_frame s :
  pendingRequests (evict s) = pendingRequests s ∧ options (evict s) = options s ∧
  now (evict s) = now s ∧ rt (evict s) = rt s.
Proof.
  destruct (evict_cases s) as [->|(m & lruKey & rest & _ & _ & _ & _ & ->)]; done.
Qed.

Lemma setCacheEntry_cache key res s :
  cache (setCacheEntry key res s) = <[key := Entry res (now s)]> (cache (evict s)).
Proof.
  unfold setCacheEntry; simpl. by destruct (evict_frame s) as (_ & _ & -> & _).
Qed.

Lemma setCacheEntry_accessOrder key res s :
  accessOrder (setCacheEntry key res s) = splice_key key (accessOrder (evict s)) ++ [key].
Proof. done. Qed.

Lemma setCacheEntry_frame key res s :
  pendingRequests (setCacheEntry key res s) = pendingRequests s ∧
  options (setCacheEntry key res s) = options s ∧
  now (setCacheEntry key res s) = now s ∧ rt (setCacheEntry key res s) = rt s.
Proof. unfold setCacheEntry; simpl. apply evict_frame. Qed.

(** *** The reaction job *)

(** The coalescer after the continuation of a chain of [key] has run on
    the outcome [o]. *)
Definition after_handler key o s : state K V E :=
  match o with
  | Fulfilled res => (on_fulfilled key res s).1
  | Rejected error => (on_rejected key error s).1
  end.

Lemma after_handler_frame key o s :
  pendingRequests (after_handler key o s) = delete key (pendingRequests s) ∧
  options (after_handler key o s) = options s ∧
  now (after_handler key o s) = now s ∧ rt (after_handler key o s) = rt s.
Proof.
  destruct o as [res|e]; simpl; [|done].
  destruct (truthy (ttl (options s))); [|done].
  apply (setCacheEntry_frame key res (with_pending _ s)).
Qed.

Lemma after_handler_rejected key e s :
  after_handler key (Rejected e) s = with_pending (delete key (pendingRequests s)) s.
Proof. done. Qed.

Lemma after_handler_uncached key res s :
  truthy (ttl (options s)) = false →
  after_handler key (Fulfilled res) s = with_pending (delete key (pendingRequests s)) s.
Proof. simpl. by intros ->. Qed.

Lemma after_handler_cached key res s :
  truthy (ttl (options s)) = true →
  after_handler key (Fulfilled res) s =
    setCacheEntry key res (with_pending (delete key (pendingRequests s)) s).
Proof. simpl. by intros ->. Qed.

Lemma evict_with_host h s : evict (with_host h s) = with_host h (evict s).
Proof.
  unfold evict; simpl. destruct (maxSize (options s)) as [m|]; [|done].
  destruct (_ && _); [|done]. destruct (accessOrder s) as [|lruKey rest]; [done|].
  by destruct (isUndefined lruKey).
Qed.

Lemma evict_with_pending m s : evict (with_pending m s) = with_pending m (evict s).
Proof.
  unfold evict; simpl. destruct (maxSize (options s)) as [m'|]; [|done].
  destruct (_ && _); [|done]. destruct (accessOrder s) as [|lruKey rest]; [done|].
  by destruct (isUndefined lruKey).
Qed.

Lemma after_handler_with_host key o h s :
  after_handler key o (with_host h s) = with_host h (after_handler key o s).
Proof.
  destruct o as [res|e]; simpl; [|done].
  destruct (truthy (ttl (options s))); [|done].
  unfold setCacheEntry. change (with_pending ?m (with_host h s))
    with (with_host h (with_pending m s)).
  by rewrite evict_with_host.
Qed.

Lemma after_handler_cache_with_pending key o m s :
  cache (after_handler key o (with_pending m s)) = cache (after_handler key o s) ∧
  accessOrder (after_handler key o (with_pending m s)) =
    accessOrder (after_handler key o s).
Proof.
  destruct o as [res|e]; simpl; [|done].
  destruct (truthy (ttl (options s))); [|done].
  unfold setCacheEntry. change (with_pending ?m' (with_pending m s))
    with (with_pending m' s).
  by rewrite !evict_with_pending.
Qed.

Lemma react_Some p s s' :
  react p s = Some s' →
  ∃ key o, chains (rt s) !! p = Some (Chain key (Settling o)) ∧
    s' = with_host (set_chain p (Done o) (rt s)) (after_handler key o s).
Proof.
  unfold react. destruct (due p (rt s)) as [[key o]|] eqn:Hdue; simpl; [|done].
  intros Hs'. apply due_Some in Hdue. exists key, o. split; [done|].
  destruct (after_handler_frame key o s) as (_ & _ & _ & Hrt).
  destruct o; simpl in *; injection Hs' as <-; [by rewrite Hrt|done].
Qed.

Lemma react_settling p s key o :
  chains (rt s) !! p = Some (Chain key (Settling o)) →
  react p s = Some (with_host (set_chain p (Done o) (rt s)) (after_handler key o s)).
Proof.
  intros Hdue%due_Some. unfold react. rewrite Hdue; simpl.
  destruct (after_handler_frame key o s) as (_ & _ & _ & Hrt).
  destruct o; simpl in *; [by rewrite Hrt|done].
Qed.

(** *** What no step changes: the options; and the clock never goes back *)

Lemma step_options s ev s' : step s ev = Some s' → options s' = options s.
Proof.
  destruct ev as [key request|key| |ms|p o|p|c]; simpl.
  - intros [= <-]. apply execute_options.
  - by intros [= <-].
  - by intros [= <-].
  - by intros [= <-].
  - destruct (settle p o (rt s)); simpl; [|done]. by intros [= <-].
  - intros (key & o & _ & ->)%react_Some. simpl. apply after_handler_frame.
  - destruct (deliver c (rt s)); simpl; [|done]. by intros [= <-].
Qed.

Lemma run_options s evs s' : run s evs = Some s' → options s' = options s.
Proof.
  revert s. induction evs as [|ev evs IH]; intros s; simpl; [by intros [= <-]|].
  destruct (step s ev) as [s1|] eqn:Hs1; simpl; [|done].
  intros Hrun. rewrite (IH _ Hrun). by eapply step_options.
Qed.

Lemma step_now s ev s' : step s ev = Some s' → (now s ≤ now s')%Z.
Proof.
  destruct ev as [key request|key| |ms|p o|p|c]; simpl.
  - intros [= <-]. by rewrite execute_now.
  - by intros [= <-].
  - by intros [= <-].
  - intros [= <-]. simpl. lia.
  - destruct (settle p o (rt s)); simpl; [|done]. by intros [= <-].
  - intros (key & o & _ & ->)%react_Some. simpl.
    by destruct (after_handler_frame key o s) as (_ & _ & -> & _).
  - destruct (deliver c (rt s)); simpl; [|done]. by intros [= <-].
Qed.

(** *** Coherence of the pending map with the host *)

Definition coherent s : Prop :=
  host_ok (rt s) ∧ pending_ok (pendingRequests s) (rt s).

Lemma coherent_init opts t : coherent (@init K _ _ V E opts t).
Proof. split; [apply host_ok_empty|apply pending_ok_empty]. Qed.

Lemma execute_coherent key request s : coherent s → coherent (execute key request s).
Proof.
  intros [Hh Hp]. unfold execute.
  assert (coherent
    match pendingRequests s !! key with
    | Some pending => with_host (add_call key (Adopt pending) None (rt s)) s
    | None =>
        let h := log_invocation request (rt s) in
        match thunk_throws request with
        | Some e => with_host (add_call key Direct (Some (Rejected e)) h) s
        | None =>
            with_host (add_call key (Adopt (length (chains h))) None (spawn key h))
              (with_pending (<[key := length (chains h)]> (pendingRequests s)) s)
        end
    end) as Hmiss.
  { destruct (pendingRequests s !! key) as [p|] eqn:Hkey.
    - destruct (Hp _ _ Hkey) as (st & Hst & _).
      split; simpl; [by eapply host_ok_attach|done].
    - destruct (thunk_throws request) as [e|]; simpl.
      + split; simpl; [by apply host_ok_direct, host_ok_log|done].
      + split; simpl.
        * eapply host_ok_attach; [by apply host_ok_spawn, host_ok_log|].
          simpl. by rewrite lookup_app_r, Nat.sub_diag by lia.
        * by apply (pending_ok_register key _ (rt s)). }
  destruct (cache s !! key) as [entry|]; [|done].
  destruct (isCacheValid entry s); [|done].
  split; simpl; [by apply host_ok_direct|done].
Qed.

Lemma step_coherent s ev s' : coherent s → step s ev = Some s' → coherent s'.
Proof.
  intros [Hh Hp]. destruct ev as [key request|key| |ms|p o|p|c]; simpl.
  - intros [= <-]. by apply execute_coherent.
  - intros [= <-]. split; simpl; [done|by apply pending_ok_delete].
  - intros [= <-]. split; simpl; [done|apply pending_ok_empty].
  - by intros [= <-].
  - destruct (settle p o (rt s)) as [h|] eqn:Hset; simpl; [|done]. intros [= <-].
    split; simpl; [by eapply host_ok_settle|by eapply pending_ok_settle].
  - intros (key & o & Hdue%due_Some & ->)%react_Some.
    destruct (after_handler_frame key o s) as (Hpend & _ & _ & _).
    split; simpl; [by eapply host_ok_finish|].
    rewrite Hpend. by eapply pending_ok_finish.
  - destruct (deliver c (rt s)) as [h|] eqn:Hdel; simpl; [|done]. intros [= <-].
    split; simpl; [by eapply host_ok_deliver|by eapply pending_ok_deliver].
Qed.

Lemma reachable_coherent s : reachable s → coherent s.
Proof. apply reachable_ind; eauto using coherent_init, step_coherent. Qed.

(** *** The cache and the access order list the same keys *)

Definition lru_inv s : Prop :=
  NoDup (accessOrder s) ∧ ∀ k, k ∈ accessOrder s ↔ is_Some (cache s !! k).

Lemma lru_inv_ext s s' :
  cache s' = cache s → accessOrder s' = accessOrder s → lru_inv s → lru_inv s'.
Proof. unfold lru_inv. by intros -> ->. Qed.

Lemma lru_inv_init opts t : lru_inv (@init K _ _ V E opts t).
Proof.
  split; simpl; [apply NoDup_nil_2|]. intros k.
  rewrite elem_of_nil, lookup_empty. split; [done|]. by intros [? ?].
Qed.

Lemma lru_inv_update k s :
  lru_inv s → is_Some (cache s !! k) → lru_inv (updateAccessOrder k s).
Proof.
  intros [Hnd Hkeys] Hk. split; simpl; [by apply NoDup_touch|].
  intros x. rewrite elem_of_touch, Hkeys by done.
  split; [|by left]. by intros [?| ->].
Qed.

Lemma lru_inv_evict s : lru_inv s → lru_inv (evict s).
Proof.
  intros [Hnd Hkeys].
  destruct (evict_cases s) as [->|(m & lruKey & rest & _ & _ & _ & Hao & ->)]; [done|].
  rewrite Hao in Hnd, Hkeys. apply NoDup_cons in Hnd as [Hlru Hnd].
  split; simpl; [done|]. intros x. rewrite lookup_delete_is_Some, <-Hkeys, elem_of_cons.
  split; [|by intros [? [?|?]]]. intros Hx. split; [|by right]. by intros <-.
Qed.

Lemma lru_inv_set key res s : lru_inv s → lru_inv (setCacheEntry key res s).
Proof.
  intros [Hnd Hkeys]%lru_inv_evict. split.
  - rewrite setCacheEntry_accessOrder. by apply NoDup_touch.
  - intros x. rewrite setCacheEntry_accessOrder, setCacheEntry_cache.
    rewrite elem_of_touch, Hkeys, lookup_insert_is_Some by done.
    destruct (decide (key = x)); naive_solver.
Qed.

Lemma lru_inv_invalidate key s : lru_inv s → lru_inv (invalidate key s).
Proof.
  intros [Hnd Hkeys]. split; simpl; [by apply NoDup_splice_key|].
  intros x. rewrite elem_of_splice_key, Hkeys, lookup_delete_is_Some by done.
  naive_solver.
Qed.

Lemma lru_inv_after_handler key o s : lru_inv s → lru_inv (after_handler key o s).
Proof.
  intros Hinv. destruct o as [res|e]; simpl; [|done].
  destruct (truthy (ttl (options s))); [|done].
  by apply lru_inv_set.
Qed.

Lemma execute_lru_inv key request s : lru_inv s → lru_inv (execute key request s).
Proof.
  intros Hinv. unfold execute.
  destruct (cache s !! key) as [entry|] eqn:Hk;
    [destruct (isCacheValid entry s);
      [by apply (lru_inv_update key s)|]|];
    (destruct (pendingRequests s !! key); [done|]);
    by destruct (thunk_throws request).
Qed.

Lemma step_lru_inv s ev s' : lru_inv s → step s ev = Some s' → lru_inv s'.
Proof.
  intros Hinv. destruct ev as [key request|key| |ms|p o|p|c]; simpl.
  - intros [= <-]. by apply execute_lru_inv.
  - intros [= <-]. by apply lru_inv_invalidate.
  - intros [= <-]. apply (lru_inv_init (options s) 0).
  - by intros [= <-].
  - destruct (settle p o (rt s)); simpl; [|done]. by intros [= <-].
  - intros (key & o & _ & ->)%react_Some. by apply (lru_inv_after_handler key o s).
  - destruct (deliver c (rt s)); simpl; [|done]. by intros [= <-].
Qed.

Lemma reachable_lru_inv s : reachable s → lru_inv s.
Proof. apply reachable_ind; eauto using lru_inv_init, step_lru_inv. Qed.

(** *** A key with a pending request has no valid cache entry *)

Lemma isCached_weaken k s s' :
  (cache s' !! k = cache s !! k ∨ cache s' !! k = None) →
  options s' = options s → (now s ≤ now s')%Z →
  isCached k s = false → isCached k s' = false.
Proof.
  intros Hc Hopts Hnow. rewrite !isCached_false. intros Hs entry Hentry.
  destruct Hc as [Hc|Hc]; [|congruence]. rewrite Hc in Hentry.
  specialize (Hs _ Hentry). apply not_true_iff_false. apply not_true_iff_false in Hs.
  rewrite isCacheValid_true in *. rewrite Hopts.
  intros (t & Ht & Ht0 & Hlt). apply Hs. exists t. split_and!; [done..|lia].
Qed.

Lemma isCached_ext k s s' :
  cache s' !! k = cache s !! k → options s' = options s → now s' = now s →
  isCached k s' = isCached k s.
Proof.
  intros Hc Hopts Hnow. unfold isCached, isCacheValid. by rewrite Hc, Hopts, Hnow.
Qed.

Lemma evict_lookup k s :
  cache (evict s) !! k = cache s !! k ∨ cache (evict s) !! k = None.
Proof.
  destruct (evict_cases s) as [->|(m & lruKey & rest & _ & _ & _ & _ & ->)]; [by left|].
  simpl. destruct (decide (lruKey = k)) as [->|].
  - right. apply lookup_delete_eq.
  - left. by apply lookup_delete_ne.
Qed.

Lemma after_handler_lookup key o s k :
  k ≠ key →
  cache (after_handler key o s) !! k = cache s !! k ∨
  cache (after_handler key o s) !! k = None.
Proof.
  intros Hne. destruct o as [res|e]; [|by left].
  destruct (truthy (ttl (options s))) eqn:Httl.
  - rewrite after_handler_cached, setCacheEntry_cache by done.
    rewrite lookup_insert_ne by done.
    apply (evict_lookup k (with_pending _ s)).
  - rewrite after_handler_uncached by done. by left.
Qed.

Definition fresh s : Prop :=
  ∀ k, is_Some (pendingRequests s !! k) → isCached k s = false.

Lemma fresh_init opts t : fresh (@init K _ _ V E opts t).
Proof. intros k. simpl. rewrite lookup_empty. by intros [? ?]. Qed.

Lemma execute_fresh key request s : fresh s → fresh (execute key request s).
Proof.
  intros Hf k. destruct (isCached key s) eqn:Hkey.
  - apply isCached_true in Hkey as (entry & Hentry & Hvalid).
    rewrite (execute_hit _ _ _ entry) by done. simpl. apply Hf.
  - rewrite execute_miss by done.
    destruct (pendingRequests s !! key) as [p|] eqn:Hp; [apply Hf|].
    destruct (thunk_throws request) as [e|]; [apply Hf|]. simpl.
    rewrite lookup_insert_is_Some. intros [<-|[_ Hk]]; [done|by apply Hf].
Qed.

Lemma step_fresh s ev s' : fresh s → step s ev = Some s' → fresh s'.
Proof.
  intros Hf. destruct ev as [key request|key| |ms|p o|p|c]; simpl.
  - intros [= <-]. by apply execute_fresh.
  - intros [= <-] k. simpl. rewrite lookup_delete_is_Some. intros [Hne Hk].
    rewrite <-(Hf k Hk). apply isCached_ext; simpl; [|done..].
    by apply lookup_delete_ne.
  - intros [= <-] k. simpl. rewrite lookup_empty. by intros [? ?].
  - intros [= <-] k Hk. eapply isCached_weaken, (Hf k Hk); simpl; [by left|done|lia].
  - destruct (settle p o (rt s)); simpl; [|done]. intros [= <-]. apply Hf.
  - intros (key & o & _ & ->)%react_Some k. simpl.
    destruct (after_handler_frame key o s) as (Hpend & Hopts & Hnow & _).
    rewrite Hpend, lookup_delete_is_Some. intros [Hne Hk].
    apply (isCached_weaken k s); simpl; [|done|by rewrite Hnow|by apply Hf].
    by apply after_handler_lookup.
  - destruct (deliver c (rt s)); simpl; [|done]. intros [= <-]. apply Hf.
Qed.

Lemma reachable_fresh s : reachable s → fresh s.
Proof. apply reachable_ind; eauto using fresh_init, step_fresh. Qed.

(** *** Without a ttl nothing is ever cached *)

Lemma step_uncached s ev s' :
  truthy (ttl (options s)) = false → cache s = ∅ → step s ev = Some s' → cache s' = ∅.
Proof.
  intros Httl Hc. destruct ev as [key request|key| |ms|p o|p|c]; simpl.
  - intros [= <-]. by rewrite execute_cache.
  - intros [= <-]. simpl. rewrite Hc. apply delete_empty.
  - by intros [= <-].
  - by intros [= <-].
  - destruct (settle p o (rt s)); simpl; [|done]. by intros [= <-].
  - intros (key & [res|e] & _ & ->)%react_Some; simpl; [|done]. by rewrite Httl.
  - destruct (deliver c (rt s)); simpl; [|done]. by intros [= <-].
Qed.

Lemma reachable_uncached s :
  reachable s → truthy (ttl (options s)) = false → cache s = ∅.
Proof.
  revert s. apply (reachable_ind (λ s, truthy (ttl (options s)) = false → cache s = ∅)).
  - done.
  - intros s ev s' IH Hstep. rewrite (step_options _ _ _ Hstep). intros Httl.
    eapply step_uncached; eauto.
Qed.

(** *** Attaching many callers, and delivering to them *)

Lemma attach_all ops s k p :
  isCached k s = false → pendingRequests s !! k = Some p →
  run s (Execute k <$> ops) =
    Some (with_host
            (MkHost (chains (rt s))
               (calls (rt s) ++ replicate (length ops) (Call k (Adopt p) None))
               (invoked (rt s))) s).
Proof.
  revert s. induction ops as [|op ops IH]; intros s Hc Hk; simpl.
  - rewrite app_nil_r. by destruct s as [? ? ? ? ? []].
  - rewrite (execute_attach _ _ _ p) by done. rewrite IH by done. simpl.
    unfold with_host; simpl. by rewrite <-app_assoc.
Qed.

Lemma deliver_all n c0 s k p key o :
  chains (rt s) !! p = Some (Chain key (Done o)) →
  (∀ i, i < n → calls (rt s) !! (c0 + i) = Some (Call k (Adopt p) None)) →
  ∃ h, run s (Deliver <$> seq c0 n) = Some (with_host h s) ∧
    chains h = chains (rt s) ∧ invoked h = invoked (rt s) ∧
    length (calls h) = length (calls (rt s)) ∧
    (∀ c, c < c0 → calls h !! c = calls (rt s) !! c) ∧
    (∀ i, i < n → received (c0 + i) h = Some o).
Proof.
  revert c0 s. induction n as [|n IH]; intros c0 s Hp Hcalls; simpl.
  - exists (rt s). split; [by destruct s|]. repeat split; try done. intros i ?; lia.
  - pose proof (Hcalls 0 ltac:(lia)) as Hc0. rewrite Nat.add_0_r in Hc0.
    erewrite deliver_done by done. simpl.
    edestruct (IH (S c0)) as (h & Hrun & Hch & Hinv & Hlen & Hold & Hnew);
      [| |rewrite Hrun]; simpl; [done| |].
    { intros i Hi. rewrite list_lookup_insert_ne by lia.
      replace (S (c0 + i)) with (c0 + S i) by lia. apply Hcalls. lia. }
    exists h. simpl in *. repeat split; try done.
    + by rewrite Hlen, length_insert.
    + intros c Hc. rewrite Hold by lia. by rewrite list_lookup_insert_ne by lia.
    + intros [|i] Hi.
      * unfold received. rewrite Nat.add_0_r, Hold by lia.
        by rewrite list_lookup_insert_eq by (by eapply lookup_lt_Some).
      * replace (c0 + S i) with (S c0 + i) by lia. apply Hnew. lia.
Qed.

Lemma run_cons s ev evs : run s (ev :: evs) = s' ← step s ev; run s' evs.
Proof. done. Qed.

(** [S (length ops)] calls for [k] in a row on a key that is neither cached
    nor pending: one invocation, one chain, and every caller receives the
    outcome [o] with which that chain settles. *)
Lemma concurrent_calls s k op ops o :
  isCached k s = false → pendingRequests s !! k = None → thunk_throws op = None →
  let p := length (chains (rt s)) in
  let c0 := length (calls (rt s)) in
  ∃ s1 s2,
    run s (Execute k <$> op :: ops) = Some s1 ∧
    invoked (rt s1) = invoked (rt s) ++ [op] ∧
    pendingRequests s1 !! k = Some p ∧
    (∀ i, i ≤ length ops → calls (rt s1) !! (c0 + i) = Some (Call k (Adopt p) None)) ∧
    run s1 (Settle p o :: React p :: (Deliver <$> seq c0 (S (length ops)))) = Some s2 ∧
    invoked (rt s2) = invoked (rt s) ++ [op] ∧
    pendingRequests s2 !! k = None ∧
    (∀ i, i ≤ length ops → received (c0 + i) (rt s2) = Some o) ∧
    length (calls (rt s2)) = c0 + S (length ops) ∧
    cache s2 = cache (after_handler k o s) ∧
    accessOrder s2 = accessOrder (after_handler k o s) ∧
    options s2 = options s ∧ now s2 = now s.
Proof.
  intros Hc Hk Hop p c0.
  set (cl := Call k (Adopt p) (None : option (outcome V E))).
  set (s0 := with_pending (<[k := p]> (pendingRequests s)) s).
  set (s1 := with_host
    (MkHost (chains (rt s) ++ [Chain k Running])
       (calls (rt s) ++ replicate (S (length ops)) cl) (invoked (rt s) ++ [op])) s0).
  set (s1a := with_host (set_chain p (Settling o) (rt s1)) s1).
  set (s1b := with_host (set_chain p (Done o) (rt s1a)) (after_handler k o s1a)).
  assert (run s (Execute k <$> op :: ops) = Some s1) as Hrun1.
  { rewrite fmap_cons, run_cons. cbn [step mbind option_bind].
    rewrite execute_start by done.
    rewrite (attach_all _ _ _ p); [|done|simpl; apply lookup_insert_eq].
    unfold s1, with_host. simpl. by rewrite <-app_assoc. }
  assert (chains (rt s1) !! p = Some (Chain k Running)) as Hp1.
  { simpl. by rewrite lookup_app_r, Nat.sub_diag by (unfold p; lia). }
  assert (step s1 (Settle p o) = Some s1a) as Hstep1.
  { cbn [step]. by erewrite settle_running. }
  assert (chains (rt s1a) !! p = Some (Chain k (Settling o))) as Hp1a.
  { unfold s1a. cbn [rt with_host]. by rewrite set_chain_lookup, decide_True, Hp1. }
  assert (step s1a (React p) = Some s1b) as Hstep2.
  { cbn [step]. by erewrite react_settling. }
  assert (∀ i, i ≤ length ops → calls (rt s1) !! (c0 + i) = Some cl) as Hcalls.
  { intros i Hi. unfold s1. cbn [rt calls with_host].
    rewrite lookup_app_r by (unfold c0; lia).
    apply lookup_replicate_2. unfold c0. lia. }
  destruct (deliver_all (S (length ops)) c0 s1b k p k o)
    as (h & Hrun2 & Hch & Hinv & Hlen & _ & Hrecv).
  { unfold s1b. cbn [rt with_host]. by rewrite set_chain_lookup, decide_True, Hp1a. }
  { intros i Hi. apply Hcalls. lia. }
  destruct (after_handler_frame k o s1a) as (Hpend & _).
  exists s1, (with_host h s1b). split_and!; try done.
  - simpl. apply lookup_insert_eq.
  - rewrite run_cons, Hstep1. cbn [mbind option_bind].
    by rewrite run_cons, Hstep2.
  - simpl. rewrite Hpend. apply lookup_delete_eq.
  - intros i Hi. apply Hrecv. lia.
  - cbn [rt with_host]. rewrite Hlen.
    unfold s1b, s1a, s1, set_chain. cbn [rt calls with_host].
    by rewrite length_app, length_replicate.
  - unfold s1b, s1a, s1, s0. cbn [cache with_host].
    rewrite !after_handler_with_host. cbn [cache with_host].
    apply after_handler_cache_with_pending.
  - unfold s1b, s1a, s1, s0. cbn [accessOrder with_host].
    rewrite !after_handler_with_host. cbn [accessOrder with_host].
    apply after_handler_cache_with_pending.
  - simpl. by destruct (after_handler_frame k o s1a) as (_ & -> & _).
  - simpl. by destruct (after_handler_frame k o s1a) as (_ & _ & -> & _).
Qed.

(** *** Two sequential calls *)

Lemma after_handler_cache_key k o s :
  cache (after_handler k o s) !! k =
    match o with
    | Fulfilled v =>
        if truthy (ttl (options s)) then Some (Entry v (now s)) else cache s !! k
    | Rejected _ => cache s !! k
    end.
Proof.
  destruct o as [v|e]; [|done]. destruct (truthy (ttl (options s))) eqn:Httl.
  - rewrite after_handler_cached, setCacheEntry_cache by done. apply lookup_insert_eq.
  - by rewrite after_handler_uncached.
Qed.

(** The outcome [o] of a settled call is still validly cached [ms]
    milliseconds later: it is a result, a ttl is configured, and [ms] is
    below it. *)
Definition still_cached (opts : CachedCoalescerOptions) (o : outcome V E) (ms : Z) : Prop :=
  match o, ttl opts with
  | Fulfilled _, Some t => t ≠ 0%Z ∧ (ms < t)%Z
  | _, _ => False
  end.

Lemma isCached_later k o s s' ms :
  isCached k s = false → (0 ≤ ms)%Z →
  cache s' = cache (after_handler k o s) → options s' = options s →
  now s' = (now s + ms)%Z →
  (still_cached (options s) o ms →
     ∃ v, o = Fulfilled v ∧ cache s' !! k = Some (Entry v (now s)) ∧
       isCacheValid (Entry v (now s)) s' = true) ∧
  (¬ still_cached (options s) o ms → isCached k s' = false).
Proof.
  intros Hc Hms Hcache Hopts Hnow. unfold still_cached.
  assert (cache s' !! k = cache s !! k → isCached k s' = false) as Hsame.
  { intros Hk. apply (isCached_weaken k s); [by left|done|lia|done]. }
  pose proof (after_handler_cache_key k o s) as Hkey. rewrite <-Hcache in Hkey.
  destruct o as [v|e]; [|split; [done|auto]]. unfold truthy in Hkey.
  destruct (ttl (options s)) as [t|] eqn:Httl; [|split; [done|auto]].
  case_bool_decide as Ht0.
  - split.
    + intros [_ Hlt]. exists v. split_and!; [done..|].
      apply isCacheValid_true. exists t. rewrite Hopts, Hnow. simpl.
      split_and!; [done..|lia].
    + intros Hnot. apply isCached_false. intros entry. rewrite Hkey. intros [= <-].
      apply not_true_iff_false. rewrite isCacheValid_true, Hopts, Hnow. simpl.
      intros (t' & ? & _ & ?). simplify_eq. apply Hnot. split; [done|lia].
  - split; [by intros [? _]|auto].
Qed.

(** Two calls for [k], the second made [ms] milliseconds after the first has
    fully settled.  The second thunk is invoked unless the first result is
    still validly cached, in which case the second caller is given that
    result and nothing is invoked. *)
Lemma sequential_calls s k op op' o ms :
  isCached k s = false → pendingRequests s !! k = None → thunk_throws op = None →
  let p := length (chains (rt s)) in
  let c0 := length (calls (rt s)) in
  ∃ s1,
    run s [Execute k op; Settle p o; React p; Deliver c0; Advance ms] = Some s1 ∧
    received c0 (rt s1) = Some o ∧
    pendingRequests s1 !! k = None ∧
    invoked (rt s1) = invoked (rt s) ++ [op] ∧
    (still_cached (options s) o (Z.of_N ms) →
       ∃ v, o = Fulfilled v ∧
         invoked (rt (execute k op' s1)) = invoked (rt s) ++ [op] ∧
         received (S c0) (rt (execute k op' s1)) = Some (Fulfilled v)) ∧
    (¬ still_cached (options s) o (Z.of_N ms) →
       invoked (rt (execute k op' s1)) = invoked (rt s) ++ [op; op']).
Proof.
  intros Hc Hk Hop p c0.
  destruct (concurrent_calls s k op [] o Hc Hk Hop)
    as (s1 & s2 & Hrun1 & _ & _ & _ & Hrun2 & Hinv & Hpend & Hrecv & Hlen
        & Hcache & _ & Hopts & Hnow).
  set (s3 := with_now (now s2 + Z.of_N ms) s2).
  destruct (isCached_later k o s s3 (Z.of_N ms)) as [Hhit Hmiss];
    [done|lia|done|done|by simpl; rewrite Hnow|].
  exists s3. split_and!; try done.
  - change [Execute k op; Settle p o; React p; Deliver c0; Advance ms]
      with ((Execute k <$> [op]) ++
            (Settle p o :: React p ::
               (Deliver <$> seq c0 (S (length (@nil (thunk E)))))) ++ [Advance ms]).
    rewrite run_app, Hrun1. cbn [mbind option_bind]. unfold p, c0.
    by rewrite run_app, Hrun2.
  - simpl. rewrite <-(Hrecv 0), Nat.add_0_r; [done|simpl; lia].
  - intros (v & -> & Hentry & Hvalid)%Hhit. exists v. split; [done|].
    rewrite (execute_hit _ _ _ _ Hentry Hvalid). simpl. split; [done|].
    replace (S c0) with (length (calls (rt s2))) by (simpl in Hlen; lia).
    apply received_add_call_new.
  - intros Hnot%Hmiss. rewrite execute_invokes by done. simpl.
    by rewrite Hinv, <-app_assoc.
Qed.

Lemma sequential_throws s k op op' e :
  isCached k s = false → pendingRequests s !! k = None → thunk_throws op = Some e →
  received (length (calls (rt s))) (rt (execute k op s)) = Some (Rejected e) ∧
  pendingRequests (execute k op s) !! k = None ∧
  invoked (rt (execute k op' (execute k op s))) = invoked (rt s) ++ [op; op'].
Proof.
  intros Hc Hk Hop. rewrite (execute_throw _ _ _ e) by done. split_and!.
  - simpl. apply (received_add_call_new _ _ _ (log_invocation op (rt s))).
  - done.
  - rewrite execute_invokes by done. simpl. by rewrite <-app_assoc.
Qed.

(** *** What a trace without calls for [k] leaves alone *)

Lemma step_pending_none k s ev s' :
  pendingRequests s !! k = None → (∀ op, ev ≠ Execute k op) →
  step s ev = Some s' → pendingRequests s' !! k = None.
Proof.
  intros Hk Hev. destruct ev as [key request|key| |ms|p o|p|c]; simpl.
  - intros [= <-]. assert (key ≠ k) as Hne by (intros ->; by eapply Hev).
    unfold execute.
    destruct (cache s !! key) as [entry|];
      [destruct (isCacheValid entry s); [done|]|];
      (destruct (pendingRequests s !! key); [done|]);
      (destruct (thunk_throws request); [done|]); simpl;
      by rewrite lookup_insert_ne.
  - intros [= <-]. simpl. by apply lookup_delete_None; right.
  - by intros [= <-].
  - by intros [= <-].
  - destruct (settle p o (rt s)); simpl; [|done]. by intros [= <-].
  - intros (key & o & _ & ->)%react_Some. simpl.
    destruct (after_handler_frame key o s) as (-> & _).
    by apply lookup_delete_None; right.
  - destruct (deliver c (rt s)); simpl; [|done]. by intros [= <-].
Qed.

Lemma run_pending_none k s evs s' :
  pendingRequests s !! k = None → (∀ k' op, Execute k' op ∈ evs → k' ≠ k) →
  run s evs = Some s' → pendingRequests s' !! k = None.
Proof.
  revert s. induction evs as [|ev evs IH]; intros s Hk Hevs; simpl.
  - by intros [= <-].
  - destruct (step s ev) as [s1|] eqn:Hs1; simpl; [|done]. apply IH.
    + eapply step_pending_none; [done| |done]. intros op ->.
      by eapply (Hevs k op); [left|].
    + intros k' op Hin. apply (Hevs k' op). by right.
Qed.

(** *** A chain keeps its number and its key *)

Lemma execute_chains key request s :
  chains (rt (execute key request s)) = chains (rt s) ∨
  chains (rt (execute key request s)) = chains (rt s) ++ [Chain key Running].
Proof.
  unfold execute.
  destruct (cache s !! key) as [entry|];
    [destruct (isCacheValid entry s); [by left|]|];
    (destruct (pendingRequests s !! key); [by left|]);
    (destruct (thunk_throws request); [by left|by right]).
Qed.

Lemma step_chain_key p k st s ev s' :
  chains (rt s) !! p = Some (Chain k st) → step s ev = Some s' →
  ∃ st', chains (rt s') !! p = Some (Chain k st').
Proof.
  intros Hp. destruct ev as [key request|key| |ms|q o|q|c]; simpl.
  - intros [= <-]. destruct (execute_chains key request s) as [->| ->]; [eauto|].
    exists st. by apply lookup_app_l_Some.
  - intros [= <-]. eauto.
  - intros [= <-]. eauto.
  - intros [= <-]. eauto.
  - destruct (settle q o (rt s)) as [h|] eqn:Hset; simpl; [|done]. intros [= <-].
    apply settle_Some in Hset as (ch & _ & _ & ->). cbn [rt with_host].
    rewrite set_chain_lookup. case_decide; [subst q|eauto]. rewrite Hp. simpl. eauto.
  - intros (key & o & _ & ->)%react_Some. cbn [rt with_host].
    rewrite set_chain_lookup. case_decide; [subst q|eauto]. rewrite Hp. simpl. eauto.
  - destruct (deliver c (rt s)) as [h|] eqn:Hdel; simpl; [|done]. intros [= <-].
    apply deliver_Some in Hdel as (? & ? & ? & ? & _ & _ & _ & ->). simpl. eauto.
Qed.

Lemma run_chain_key p k st s evs s' :
  chains (rt s) !! p = Some (Chain k st) → run s evs = Some s' →
  ∃ st', chains (rt s') !! p = Some (Chain k st').
Proof.
  revert s st. induction evs as [|ev evs IH]; intros s st Hp; simpl.
  - intros [= <-]. eauto.
  - destruct (step s ev) as [s1|] eqn:Hs1; simpl; [|done].
    destruct (step_chain_key _ _ _ _ _ _ Hp Hs1) as [st1 Hst1]. eauto.
Qed.

Lemma not_ttl_configured opts : ¬ ttl_configured opts ↔ truthy (ttl opts) = false.
Proof. rewrite <-truthy_ttl. by destruct (truthy (ttl opts)). Qed.

(** *** Admission at capacity, and what a read hit protects *)



(** *** The access order is the order of last use *)













(** *** A continuation that outlives its registration

    [invalidate k] while the first operation for [k] is in flight, then a
    second call for [k]: when the first operation settles, its continuation
    deletes the entry of [k], which by then belongs to the second
    operation, and (with a ttl configured, on success) caches its own
    result.  The third call is made [ms] milliseconds later. *)
Lemma stale_deletion s k op1 op2 op3 o ms :
  isCached k s = false → pendingRequests s !! k = None →
  thunk_throws op1 = None → thunk_throws op2 = None → thunk_throws op3 = None →
  let p1 := length (chains (rt s)) in
  ∃ s1,
    run s [Execute k op1; Invalidate k; Execute k op2; Settle p1 o; React p1;
           Advance ms] = Some s1 ∧
    chains (rt s1) !! S p1 = Some (Chain k Running) ∧
    pendingRequests s1 !! k = None ∧
    invoked (rt s1) = invoked (rt s) ++ [op1; op2] ∧
    (¬ still_cached (options s) o (Z.of_N ms) →
       invoked (rt (execute k op3 s1)) = invoked (rt s) ++ [op1; op2; op3] ∧
       chains (rt (execute k op3 s1)) !! S (S p1) = Some (Chain k Running) ∧
       pendingRequests (execute k op3 s1) !! k = Some (S (S p1)) ∧
       last (calls (rt (execute k op3 s1))) = Some (Call k (Adopt (S (S p1))) None)) ∧
    (still_cached (options s) o (Z.of_N ms) →
       ∃ v, o = Fulfilled v ∧
         invoked (rt (execute k op3 s1)) = invoked (rt s) ++ [op1; op2] ∧
         chains (rt (execute k op3 s1)) = chains (rt s1) ∧
         pendingRequests (execute k op3 s1) !! k = None ∧
         last (calls (rt (execute k op3 s1))) =
           Some (Call k Direct (Some (Fulfilled v)))).
Proof.
  intros Hc Hk Hop1 Hop2 Hop3 p1.
  set (sa := execute k op1 s).
  set (sb := invalidate k sa).
  set (sc := execute k op2 sb).
  assert (sa = with_host
      (add_call k (Adopt p1) None (spawn k (log_invocation op1 (rt s))))
      (with_pending (<[k := p1]> (pendingRequests s)) s)) as Hsa
    by (by apply execute_start).
  assert (pendingRequests sb !! k = None) as Hkb by apply lookup_delete_eq.
  assert (cache sb !! k = None) as Hcb by apply lookup_delete_eq.
  assert (isCached k sb = false) as Hcachedb by (unfold isCached; by rewrite Hcb).
  assert (length (chains (rt sb)) = S p1) as Hlen.
  { unfold sb. rewrite Hsa. simpl. rewrite length_app. simpl. unfold p1. lia. }
  assert (sc = with_host
      (add_call k (Adopt (S p1)) None (spawn k (log_invocation op2 (rt sb))))
      (with_pending (<[k := S p1]> (pendingRequests sb)) sb)) as Hsc.
  { unfold sc. rewrite execute_start by done. by rewrite Hlen. }
  assert (chains (rt sc) = chains (rt s) ++ [Chain k Running; Chain k Running]) as Hch.
  { rewrite Hsc. unfold sb. rewrite Hsa. simpl. by rewrite <-app_assoc. }
  assert (chains (rt sc) !! p1 = Some (Chain k Running)) as Hp1
    by (rewrite Hch; apply list_lookup_middle; done).
  set (sd := with_host (set_chain p1 (Settling o) (rt sc)) sc).
  assert (step sc (Settle p1 o) = Some sd) as Hstep4
    by (cbn [step]; by erewrite settle_running).
  assert (chains (rt sd) !! p1 = Some (Chain k (Settling o))) as Hp1d.
  { unfold sd. cbn [rt with_host]. by rewrite set_chain_lookup, decide_True, Hp1. }
  set (se := with_host (set_chain p1 (Done o) (rt sd)) (after_handler k o sd)).
  assert (step sd (React p1) = Some se) as Hstep5
    by (cbn [step]; by erewrite react_settling).
  set (s1 := with_now (now se + Z.of_N ms) se).
  destruct (after_handler_frame k o sd) as (Hpend1 & Hopts1 & Hnow1 & _).
  assert (options sd = options s) as Hopts.
  { unfold sd. rewrite Hsc. unfold sb. by rewrite Hsa. }
  assert (length (chains (rt s1)) = S (S p1)) as Hlen1.
  { unfold s1, se, sd. cbn [rt with_host with_now].
    rewrite !set_chain_length, Hch, length_app. simpl. unfold p1. lia. }
  assert (invoked (rt s1) = invoked (rt s) ++ [op1; op2]) as Hinv1.
  { unfold s1, se, sd. cbn [rt with_host with_now]. unfold set_chain. cbn [invoked].
    rewrite Hsc. unfold sb. rewrite Hsa. simpl. by rewrite <-app_assoc. }
  assert (pendingRequests s1 !! k = None) as Hk1.
  { unfold s1, se. cbn [pendingRequests with_host with_now]. rewrite Hpend1.
    apply lookup_delete_eq. }
  assert (run s [Execute k op1; Invalidate k; Execute k op2; Settle p1 o; React p1;
                 Advance ms] = Some s1) as Hrun.
  { rewrite run_cons. cbn [step mbind option_bind]. fold sa.
    rewrite run_cons. cbn [step mbind option_bind]. fold sb.
    rewrite run_cons. cbn [step mbind option_bind]. fold sc.
    rewrite run_cons, Hstep4. cbn [mbind option_bind].
    by rewrite run_cons, Hstep5. }
  assert (chains (rt s1) !! S p1 = Some (Chain k Running)) as Hp2.
  { unfold s1, se, sd. cbn [rt with_host with_now].
    rewrite !set_chain_lookup, !decide_False by lia.
    rewrite Hch. rewrite lookup_app_r by (unfold p1; lia).
    by replace (S p1 - _) with 1 by (unfold p1; lia). }
  destruct (isCached_later k o sd s1 (Z.of_N ms)) as [Hhit Hmiss].
  { unfold isCached. unfold sd. cbn [cache with_host]. rewrite Hsc.
    cbn [cache with_host with_pending]. by rewrite Hcb. }
  { lia. }
  { done. }
  { done. }
  { unfold s1, se. cbn [now with_host with_now]. by rewrite Hnow1. }
  rewrite Hopts in Hhit, Hmiss.
  clearbody s1. exists s1. split_and!; try done.
  - intros Hc1%Hmiss. split_and!.
    + rewrite execute_invokes, Hinv1 by done. by rewrite <-app_assoc.
    + rewrite execute_start by done. simpl. rewrite <-Hlen1.
      by apply list_lookup_middle.
    + rewrite execute_start by done. simpl. rewrite Hlen1. apply lookup_insert_eq.
    + rewrite execute_start by done. simpl. rewrite Hlen1. apply last_snoc.
  - intros (v & -> & Hentry & Hvalid)%Hhit. exists v. split; [done|].
    rewrite (execute_hit _ _ _ _ Hentry Hvalid). simpl. split_and!; try done.
    apply last_snoc.
Qed.

(** *** The size of the cache *)

Definition bounded s : Prop :=
  ∀ M, maxSize (options s) = Some M → (1 ≤ M)%Z →
    (Z.of_nat (size (cache s)) ≤ M)%Z.

Lemma size_insert_le (m : gmap K (CacheEntry V)) k e : size (<[k := e]> m) ≤ S (size m).
Proof.
  destruct (m !! k) eqn:Hk.
  - rewrite map_size_insert_Some by done. lia.
  - rewrite map_size_insert_None by done. lia.
Qed.

Lemma size_delete_le (m : gmap K (CacheEntry V)) k : size (delete k m) ≤ size m.
Proof.
  destruct (m !! k) eqn:Hk.
  - assert (is_Some (m !! k)) as Hs by (by eexists).
    pose proof (map_size_delete_Some k m Hs). lia.
  - rewrite delete_id by done. lia.
Qed.

Lemma lru_inv_nonempty s :
  lru_inv s → 0 < size (cache s) →
  ∃ lruKey rest, accessOrder s = lruKey :: rest ∧ is_Some (cache s !! lruKey).
Proof.
  intros [_ Hkeys] Hsize. destruct (accessOrder s) as [|lruKey rest] eqn:Hao.
  - assert (cache s = ∅) as Hempty.
    { apply map_empty. intros k. apply eq_None_not_Some. rewrite <-Hkeys.
      apply not_elem_of_nil. }
    rewrite Hempty, map_size_empty in Hsize. lia.
  - exists lruKey, rest. split; [done|]. apply Hkeys. left.
Qed.

Lemma bounded_set key res s : lru_inv s → bounded s → bounded (setCacheEntry key res s).
Proof.
  intros Hinv Hb M HM HM1.
  destruct (setCacheEntry_frame key res s) as (_ & Hopt & _).
  rewrite Hopt in HM. rewrite setCacheEntry_cache.
  pose proof (size_insert_le (cache (evict s)) key (Entry res (now s))) as Hins.
  specialize (Hb M HM HM1).
  destruct (decide (Z.of_nat (size (cache s)) < M)%Z) as [Hlt|Hge].
  - rewrite (evict_below s M) in * by done. lia.
  - destruct (lru_inv_nonempty s Hinv) as (lruKey & rest & Hao & Hin); [lia|].
    rewrite (evict_full s M lruKey rest) in * by (done || lia).
    cbn [cache with_accessOrder with_cache] in *.
    pose proof (map_size_delete_Some lruKey (cache s) Hin). lia.
Qed.

Lemma bounded_after_handler key o s :
  lru_inv s → bounded s → bounded (after_handler key o s).
Proof.
  intros Hinv Hb. destruct o as [res|e]; [|done].
  destruct (truthy (ttl (options s))) eqn:Httl.
  - rewrite after_handler_cached by done.
    apply (bounded_set key res (with_pending _ s)); done.
  - by rewrite after_handler_uncached.
Qed.

Lemma step_bounded s ev s' :
  lru_inv s → bounded s → step s ev = Some s' → bounded s'.
Proof.
  intros Hinv Hb. destruct ev as [key request|key| |ms|p o|p|c]; simpl.
  - intros [= <-] M. rewrite execute_options, execute_cache. apply Hb.
  - intros [= <-] M HM HM1. simpl in *. specialize (Hb M HM HM1).
    pose proof (size_delete_le (cache s) key). lia.
  - intros [= <-] M HM HM1. simpl. rewrite map_size_empty. lia.
  - by intros [= <-].
  - destruct (settle p o (rt s)); simpl; [|done]. by intros [= <-].
  - intros (key & o & _ & ->)%react_Some. by apply (bounded_after_handler key o s).
  - destruct (deliver c (rt s)); simpl; [|done]. by intros [= <-].
Qed.

Lemma reachable_bounded s : reachable s → bounded s.
Proof.
  intros Hs. cut (lru_inv s ∧ bounded s); [by intros [_ ?]|].
  revert s Hs. apply reachable_ind.
  - intros opts t. split; [apply lru_inv_init|].
    intros M _ HM. simpl. rewrite map_size_empty. lia.
  - intros s ev s' [Hinv Hb] Hstep. split; [by eapply step_lru_inv|by eapply step_bounded].
Qed.

(** *** Timestamps *)

Definition stamps_ok s : Prop :=
  ∀ k entry, cache s !! k = Some entry → (timestamp entry ≤ now s)%Z.

Lemma stamps_ok_evict s : stamps_ok s → stamps_ok (evict s).
Proof.
  intros Hs k entry Hk. destruct (evict_frame s) as (_ & _ & -> & _).
  destruct (evict_lookup k s) as [Heq|Heq]; rewrite Heq in Hk; [by eapply Hs|done].
Qed.

Lemma stamps_ok_after_handler key o s : stamps_ok s → stamps_ok (after_handler key o s).
Proof.
  intros Hs. destruct o as [res|e]; [|done].
  destruct (truthy (ttl (options s))) eqn:Httl; [|by rewrite after_handler_uncached].
  rewrite after_handler_cached by done. intros k entry.
  destruct (setCacheEntry_frame key res (with_pending (delete key (pendingRequests s)) s))
    as (_ & _ & -> & _).
  rewrite setCacheEntry_cache. cbn [now with_pending].
  destruct (decide (k = key)) as [->|Hne].
  - rewrite lookup_insert_eq. intros [= <-]. simpl. lia.
  - rewrite lookup_insert_ne by done. intros Hk.
    pose proof (stamps_ok_evict (with_pending (delete key (pendingRequests s)) s) Hs
                  k entry Hk) as Hle.
    destruct (evict_frame (with_pending (delete key (pendingRequests s)) s))
      as (_ & _ & Hnow & _).
    by rewrite Hnow in Hle.
Qed.

Lemma step_stamps_ok s ev s' : stamps_ok s → step s ev = Some s' → stamps_ok s'.
Proof.
  intros Hs. destruct ev as [key request|key| |ms|p o|p|c]; simpl.
  - intros [= <-] k entry. rewrite execute_now, execute_cache. apply Hs.
  - intros [= <-] k entry. simpl. intros [_ Hk]%lookup_delete_Some. by eapply Hs.
  - intros [= <-] k entry. simpl. by rewrite lookup_empty.
  - intros [= <-] k entry. simpl. intros Hk%Hs. lia.
  - destruct (settle p o (rt s)); simpl; [|done]. by intros [= <-].
  - intros (key & o & _ & ->)%react_Some. by apply (stamps_ok_after_handler key o s).
  - destruct (deliver c (rt s)); simpl; [|done]. by intros [= <-].
Qed.

Lemma reachable_stamps_ok s : reachable s → stamps_ok s.
Proof.
  apply reachable_ind; [|eauto using step_stamps_ok].
  intros opts t k entry. simpl. by rewrite lookup_empty.
Qed.

(** *** Finishing an operation *)

Lemma settle_react s p k o :
  chains (rt s) !! p = Some (Chain k Running) →
  ∃ s', run s [Settle p o; React p] = Some s' ∧
    cache s' = cache (after_handler k o s) ∧
    accessOrder s' = accessOrder (after_handler k o s) ∧
    pendingRequests s' = delete k (pendingRequests s) ∧
    options s' = options s ∧ now s' = now s ∧
    chains (rt s') !! p = Some (Chain k (Done o)) ∧
    (∀ q, q ≠ p → chains (rt s') !! q = chains (rt s) !! q) ∧
    calls (rt s') = calls (rt s) ∧ invoked (rt s') = invoked (rt s).
Proof.
  intros Hp.
  set (h1 := set_chain p (Settling o) (rt s)).
  set (h2 := set_chain p (Done o) h1).
  assert (chains h1 !! p = Some (Chain k (Settling o))) as Hp1.
  { unfold h1. by rewrite set_chain_lookup, decide_True, Hp. }
  assert (chains h2 !! p = Some (Chain k (Done o))) as Hp2.
  { unfold h2. by rewrite set_chain_lookup, decide_True, Hp1. }
  assert (step s (Settle p o) = Some (with_host h1 s)) as Hs1.
  { cbn [step]. by erewrite settle_running. }
  assert (step (with_host h1 s) (React p) =
          Some (with_host h2 (after_handler k o (with_host h1 s)))) as Hs2.
  { cbn [step]. by rewrite (react_settling p _ k o). }
  exists (with_host h2 (after_handler k o (with_host h1 s))).
  destruct (after_handler_frame k o (with_host h1 s)) as (Hpend & Hopt & Hnow & Hrt).
  rewrite after_handler_with_host in *.
  split_and!; try done.
  - rewrite run_cons, Hs1. cbn [mbind option_bind]. by rewrite run_cons, Hs2.
  - intros q Hq. cbn [rt with_host]. unfold h2, h1.
    rewrite !set_chain_lookup. by rewrite !decide_False by done.
Qed.

Lemma settle_react_deliver s p k c o :
  chains (rt s) !! p = Some (Chain k Running) →
  calls (rt s) !! c = Some (Call k (Adopt p) None) →
  ∃ s', run s [Settle p o; React p; Deliver c] = Some s' ∧
    cache s' = cache (after_handler k o s) ∧
    accessOrder s' = accessOrder (after_handler k o s) ∧
    pendingRequests s' = delete k (pendingRequests s) ∧
    options s' = options s ∧ now s' = now s ∧
    received c (rt s') = Some o ∧ invoked (rt s') = invoked (rt s).
Proof.
  intros Hp Hc.
  destruct (settle_react s p k o Hp)
    as (s2 & Hrun & Hcache & Hao & Hpend & Hopt & Hnow & Hp2 & _ & Hcalls & Hinv).
  set (h3 := MkHost (chains (rt s2)) (<[c := Call k (Adopt p) (Some o)]> (calls (rt s2)))
               (invoked (rt s2))).
  assert (step s2 (Deliver c) = Some (with_host h3 s2)) as Hs3.
  { cbn [step]. erewrite deliver_done; [done| |done..]. by rewrite Hcalls. }
  exists (with_host h3 s2). split_and!; try done.
  - pose proof (run_app s [Settle p o; React p] [Deliver c]) as Happ.
    simpl app in Happ. rewrite Happ, Hrun. cbn [mbind option_bind].
    rewrite run_cons, Hs3. done.
  - unfold received. cbn [rt with_host h3 calls].
    rewrite list_lookup_insert_eq; [done|]. rewrite Hcalls. by eapply lookup_lt_Some.
Qed.

(** Calls of [execute] touch neither the cache, nor the clock, nor the
    options. *)
Lemma run_executes s k ops :
  ∃ s', run s (Execute k <$> ops) = Some s' ∧
    cache s' = cache s ∧ now s' = now s ∧ options s' = options s.
Proof.
  revert s. induction ops as [|op ops IH]; intros s.
  - by exists s.
  - destruct (IH (execute k op s)) as (s' & Hrun & Hcache & Hnow & Hopt).
    exists s'. rewrite fmap_cons, run_cons. cbn [step mbind option_bind].
    rewrite Hrun, Hcache, Hnow, Hopt.
    by rewrite execute_cache, execute_now, execute_options.
Qed.

Lemma size_pos_is_Some (m : gmap K (CacheEntry V)) k : is_Some (m !! k) → 0 < size m.
Proof.
  intros [e He]. destruct (size m) eqn:Hsize; [|lia].
  apply map_size_empty_inv in Hsize. by rewrite Hsize, lookup_empty in He.
Qed.

(** The result of an operation that succeeds under a positive ttl is
    cached when its continuation runs, whatever was registered for the
    key, and the next call is answered with it. *)
Lemma late_result_is_cached s p k v t :
  ttl (options s) = Some t → (0 < t)%Z →
  chains (rt s) !! p = Some (Chain k Running) →
  ∃ s', run s [Settle p (Fulfilled v); React p] = Some s' ∧
    isCached k s' = true ∧
    (∀ op, invoked (rt (execute k op s')) = invoked (rt s) ∧
       received (length (calls (rt s))) (rt (execute k op s')) = Some (Fulfilled v)).
Proof.
  intros Httl Ht Hp.
  destruct (settle_react s p k (Fulfilled v) Hp)
    as (s' & Hrun & Hcache & _ & _ & Hopt & Hnow & _ & _ & Hcalls & Hinv).
  assert (truthy (ttl (options s)) = true) as Htruthy.
  { rewrite Httl. simpl. apply bool_decide_eq_true. lia. }
  assert (cache s' !! k = Some (Entry v (now s))) as Hk.
  { rewrite Hcache, after_handler_cache_key. by rewrite Htruthy. }
  assert (isCacheValid (Entry v (now s)) s' = true) as Hvalid.
  { apply isCacheValid_true. exists t. rewrite Hopt, Hnow. simpl.
    split_and!; [done|lia|lia]. }
  exists s'. split_and!; [done|apply isCached_true; eauto|].
  intros op. rewrite (execute_hit _ _ _ _ Hk Hvalid). cbn [rt with_host].
  split; [by rewrite <-Hinv|].
  rewrite <-Hcalls. apply received_add_call_new.
Qed.

(** *** After a settlement, until the next call for [k] *)

(** [ev] is a call of [execute] for [k]. *)
Definition calls_for k ev : bool :=
  match ev with
  | Execute key _ => bool_decide (key = k)
  | _ => false
  end.

(** No event of [evs] is a call of [execute] for [k]. *)
Definition quiet k (evs : list (event K V E)) : bool :=
  forallb (λ ev, negb (calls_for k ev)) evs.

Lemma quiet_no_call k evs :
  quiet k evs = true → ∀ k' op, Execute k' op ∈ evs → k' ≠ k.
Proof.
  unfold quiet. rewrite forallb_forall. intros Hq k' op Hin%list_elem_of_In ->.
  specialize (Hq _ Hin). simpl in Hq. by rewrite bool_decide_eq_true_2 in Hq.
Qed.

(** After the continuation of a chain of [k] has run, [k] has no pending
    entry until [execute] is called for [k] again. *)
Lemma settled_stays_unregistered p k o s evs s' :
  chains (rt s) !! p = Some (Chain k (Settling o)) → quiet k evs = true →
  run s (React p :: evs) = Some s' → pendingRequests s' !! k = None.
Proof.
  intros Hp Hevs. pose proof (quiet_no_call k evs Hevs) as Hno.
  rewrite run_cons. cbn [step].
  rewrite (react_settling _ _ _ _ Hp). cbn [mbind option_bind].
  apply run_pending_none; [|done]. simpl.
  destruct (after_handler_frame k o s) as (-> & _). apply lookup_delete_eq.
Qed.

(** A call for a key without a pending entry never attaches: when the key
    is not validly cached it invokes its thunk, and when the thunk returns
    a promise it registers a new chain and adopts it. *)
Lemma execute_fresh_start s k op :
  pendingRequests s !! k = None → isCached k s = false →
  invoked (rt (execute k op s)) = invoked (rt s) ++ [op] ∧
  (thunk_throws op = None →
     chains (rt (execute k op s)) = chains (rt s) ++ [Chain k Running] ∧
     pendingRequests (execute k op s) !! k = Some (length (chains (rt s))) ∧
     last (calls (rt (execute k op s))) =
       Some (Call k (Adopt (length (chains (rt s)))) None)).
Proof.
  intros Hk Hc. split; [by apply execute_invokes|]. intros Hop.
  rewrite execute_start by done. simpl. split_and!.
  - done.
  - apply lookup_insert_eq.
  - apply last_snoc.
Qed.

(** A call for a validly cached key is answered with the entry: nothing is
    invoked, no chain is added, nothing is registered. *)
Lemma execute_answered s k op entry :
  cache s !! k = Some entry → isCacheValid entry s = true →
  invoked (rt (execute k op s)) = invoked (rt s) ∧
  chains (rt (execute k op s)) = chains (rt s) ∧
  pendingRequests (execute k op s) = pendingRequests s ∧
  last (calls (rt (execute k op s))) =
    Some (Call k Direct (Some (Fulfilled (result entry)))) ∧
  received (length (calls (rt s))) (rt (execute k op s)) =
    Some (Fulfilled (result entry)).
Proof.
  intros Hentry Hvalid. rewrite (execute_hit _ _ _ _ Hentry Hvalid). simpl.
  split_and!; [done..|apply last_snoc|apply received_add_call_new].
Qed.

(** *** Calls for [k] while its operation stays registered *)

(** The events that leave the registration of [k] alone: all but
    [invalidate k], [clear], and the reaction job of a chain of [k]. *)
Definition keeps k s ev : bool :=
  match ev with
  | Invalidate key => bool_decide (key ≠ k)
  | Clear => false
  | React q => bool_decide (chain_key <$> chains (rt s) !! q ≠ Some k)
  | _ => true
  end.

Fixpoint undisturbed k s (evs : list (event K V E)) : bool :=
  match evs with
  | [] => true
  | ev :: evs =>
      keeps k s ev &&
      match step s ev with
      | Some s' => undisturbed k s' evs
      | None => true
      end
  end.

(** The thunk of a call for a key other than [k]. *)
Definition other_thunk k ev : list (thunk E) :=
  match ev with
  | Execute key request => if decide (key = k) then [] else [request]
  | _ => []
  end.

(** The key of a call of [execute]. *)
Definition called_key ev : list K :=
  match ev with
  | Execute key _ => [key]
  | _ => []
  end.

Lemma execute_other s k k' op :
  k' ≠ k → pendingRequests (execute k op s) !! k' = pendingRequests s !! k'.
Proof.
  intros Hne. unfold execute.
  destruct (cache s !! k) as [entry|];
    [destruct (isCacheValid entry s); [done|]|];
    (destruct (pendingRequests s !! k); [done|]);
    (destruct (thunk_throws op); [done|]); simpl; by rewrite lookup_insert_ne.
Qed.

Lemma execute_invoked_cases key request s :
  invoked (rt (execute key request s)) = invoked (rt s) ∨
  invoked (rt (execute key request s)) = invoked (rt s) ++ [request].
Proof.
  unfold execute.
  destruct (cache s !! key) as [entry|];
    [destruct (isCacheValid entry s); [by left|]|];
    (destruct (pendingRequests s !! key); [by left|]);
    (destruct (thunk_throws request); by right).
Qed.

Lemma execute_heads key request s :
  ∃ src, call_head <$> calls (rt (execute key request s)) =
           (call_head <$> calls (rt s)) ++ [(key, src)] ∧
    (∀ p, isCached key s = false → pendingRequests s !! key = Some p →
       src = Adopt p).
Proof.
  destruct (isCached key s) eqn:Hc.
  - apply isCached_true in Hc as (entry & Hentry & Hvalid).
    rewrite (execute_hit _ _ _ _ Hentry Hvalid). exists Direct. simpl.
    by rewrite fmap_app.
  - rewrite execute_miss by done. destruct (pendingRequests s !! key) as [p|].
    + exists (Adopt p). simpl. rewrite fmap_app. split; [done|]. by intros ? _ [= <-].
    + destruct (thunk_throws request).
      * exists Direct. simpl. by rewrite fmap_app.
      * eexists. simpl. by rewrite fmap_app.
Qed.

Lemma step_registered k p s ev s' :
  fresh s → pendingRequests s !! k = Some p → keeps k s ev = true →
  step s ev = Some s' →
  pendingRequests s' !! k = Some p ∧
  (∃ ext, invoked (rt s') = invoked (rt s) ++ ext ∧
     ext `sublist_of` other_thunk k ev) ∧
  (∃ new, call_head <$> calls (rt s') = (call_head <$> calls (rt s)) ++ new ∧
     new.*1 = called_key ev ∧ ∀ src, (k, src) ∈ new → src = Adopt p).
Proof.
  intros Hf Hk Hev.
  assert (isCached k s = false) as Hc by (apply Hf; by exists p).
  destruct ev as [key request|key| |ms|q o|q|c]; simpl.
  - intros [= <-]. split_and!.
    + destruct (decide (key = k)) as [->|Hne].
      * by rewrite (execute_attach _ _ _ p).
      * by rewrite execute_other.
    + case_decide as Hkey.
      * subst key. rewrite (execute_attach _ _ _ p) by done. exists [].
        by rewrite app_nil_r.
      * destruct (execute_invoked_cases key request s) as [->| ->].
        { exists []. rewrite app_nil_r. split; [done|]. apply sublist_nil_l. }
        by exists [request].
    + destruct (execute_heads key request s) as (src & Hheads & Hsrc).
      exists [(key, src)]. split_and!; [done..|].
      intros src' [= <- <-]%list_elem_of_singleton. by apply Hsrc.
  - intros [= <-]. simpl in *. apply bool_decide_eq_true in Hev. split_and!.
    + by rewrite lookup_delete_ne.
    + exists []. by rewrite app_nil_r.
    + exists []. rewrite app_nil_r. split_and!; [done..|]. by intros ? ?%elem_of_nil.
  - done.
  - intros [= <-]. simpl. split_and!.
    + done.
    + exists []. by rewrite app_nil_r.
    + exists []. rewrite app_nil_r. split_and!; [done..|]. by intros ? ?%elem_of_nil.
  - destruct (settle q o (rt s)) as [h|] eqn:Hset; simpl; [|done]. intros [= <-].
    apply settle_Some in Hset as (ch & _ & _ & ->). simpl. split_and!.
    + done.
    + exists []. by rewrite app_nil_r.
    + exists []. rewrite app_nil_r. split_and!; [done..|]. by intros ? ?%elem_of_nil.
  - intros (key & o & Hq & ->)%react_Some. simpl in *.
    apply bool_decide_eq_true in Hev. rewrite Hq in Hev. simpl in Hev.
    destruct (after_handler_frame key o s) as (Hpend & _ & _ & Hrt).
    rewrite Hpend. split_and!.
    + rewrite lookup_delete_ne; [done|]. by intros ->.
    + exists []. by rewrite app_nil_r.
    + exists []. rewrite app_nil_r. split_and!; [done..|]. by intros ? ?%elem_of_nil.
  - destruct (deliver c (rt s)) as [h|] eqn:Hdel; simpl; [|done]. intros [= <-].
    simpl. split_and!.
    + done.
    + exists []. rewrite app_nil_r. split; [|done].
      by apply deliver_Some in Hdel as (? & ? & ? & ? & _ & _ & _ & ->).
    + exists []. rewrite app_nil_r. split_and!; [|done|by intros ? ?%elem_of_nil].
      by eapply call_heads_deliver.
Qed.

(** While [k] stays registered with chain [p], no call for [k] invokes its
    thunk, and every call for [k] adopts [p]. *)
Lemma run_registered k p s evs s' :
  fresh s → pendingRequests s !! k = Some p → undisturbed k s evs = true →
  run s evs = Some s' →
  pendingRequests s' !! k = Some p ∧
  (∃ ext, invoked (rt s') = invoked (rt s) ++ ext ∧
     ext `sublist_of` (evs ≫= other_thunk k)) ∧
  (∃ new, call_head <$> calls (rt s') = (call_head <$> calls (rt s)) ++ new ∧
     new.*1 = evs ≫= called_key ∧ ∀ src, (k, src) ∈ new → src = Adopt p).
Proof.
  revert s. induction evs as [|ev evs IH]; intros s Hf Hk; simpl.
  - intros _ [= <-]. split_and!; [done| |].
    + exists []. by rewrite app_nil_r.
    + exists []. rewrite app_nil_r. split_and!; [done..|]. by intros ? ?%elem_of_nil.
  - intros [Hev Hevs]%andb_true_iff.
    destruct (step s ev) as [s1|] eqn:Hs1; simpl; [|done]. intros Hrun.
    destruct (step_registered k p s ev s1 Hf Hk Hev Hs1)
      as (Hk1 & (ext1 & Hinv1 & Hsub1) & (new1 & Hcalls1 & Hkeys1 & Hsrc1)).
    destruct (IH s1 (step_fresh _ _ _ Hf Hs1) Hk1 Hevs Hrun)
      as (Hk' & (ext2 & Hinv2 & Hsub2) & (new2 & Hcalls2 & Hkeys2 & Hsrc2)).
    split_and!; [done| |].
    + exists (ext1 ++ ext2). rewrite Hinv2, Hinv1, <-app_assoc. split; [done|].
      by apply sublist_app.
    + exists (new1 ++ new2). rewrite Hcalls2, Hcalls1, <-app_assoc.
      split_and!; [done| |].
      * by rewrite fmap_app, Hkeys1, Hkeys2.
      * intros src [?|?]%elem_of_app; eauto.
Qed.

(** Once the chain is done, each caller that adopted it receives its
    outcome. *)
Lemma deliver_adopted s c k p o :
  chains (rt s) !! p = Some (Chain k (Done o)) →
  calls (rt s) !! c = Some (Call k (Adopt p) None) →
  ∃ s', step s (Deliver c) = Some s' ∧ received c (rt s') = Some o.
Proof.
  intros Hp Hc. eexists. split.
  - cbn [step]. by erewrite deliver_done.
  - unfold received. simpl.
    by rewrite list_lookup_insert_eq by (by eapply lookup_lt_Some).
Qed.

End facts.
End CachedRequestCoalescerFacts.

(** * Facts about JSON.stringify *)

Module JSONFacts.
Import JSON.

(** Induction over values, through the arrays and the objects. *)
Lemma value_ind (P : value → Prop) :
  P Undefined → P Null → (∀ b, P (Bool b)) → (∀ n, P (Num n)) → (∀ s, P (Str s)) →
  (∀ items, Forall P items → P (Arr items)) →
  (∀ props, Forall (λ p, P p.2) props → P (Obj props)) →
  ∀ v, P v.
Proof.
  intros Hu Hn Hb Hnum Hs Ha Ho. fix IH 1. intros [| |b|n|s|items|props].
  - exact Hu.
  - exact Hn.
  - apply Hb.
  - apply Hnum.
  - apply Hs.
  - apply Ha. induction items as [|x items IHitems]; constructor;
      [apply IH|exact IHitems].
  - apply Ho. induction props as [|[k x] props IHprops]; constructor;
      [apply IH|exact IHprops].
Qed.

(** The serialisation as a total function: [undefined] reads as [null], as
    it does inside an array. *)
Definition ser (v : value) : list ascii :=
  default (chars "null") (SerializeJSONProperty v).

Lemma chars_app s1 s2 : chars (s1 +:+ s2) = chars s1 ++ chars s2.
Proof. induction s1 as [|c s1 IH]; simpl; [done|]. by rewrite IH. Qed.

Lemma chars_inj s1 s2 : chars s1 = chars s2 → s1 = s2.
Proof.
  intros Heq. rewrite <-(String.string_of_list_ascii_of_string s1).
  rewrite <-(String.string_of_list_ascii_of_string s2). unfold chars in Heq.
  by rewrite Heq.
Qed.

(** *** Escaped strings decode uniquely *)

Definition all_ascii : list ascii := ascii_of_nat <$> seq 0 256.

Lemma elem_of_all_ascii c : c ∈ all_ascii.
Proof.
  rewrite <-(ascii_nat_embedding c). apply list_elem_of_fmap_2, elem_of_seq.
  pose proof (nat_ascii_bounded c). lia.
Qed.

Lemma escape_prefix_free c1 c2 : escape c1 `prefix_of` escape c2 → c1 = c2.
Proof.
  assert (Forall (λ c1, Forall (λ c2, escape c1 `prefix_of` escape c2 → c1 = c2)
                          all_ascii) all_ascii) as Hall
    by (refine (bool_decide_unpack _ _); vm_compute; exact I).
  rewrite Forall_forall in Hall. specialize (Hall c1 (elem_of_all_ascii c1)).
  rewrite Forall_forall in Hall. exact (Hall c2 (elem_of_all_ascii c2)).
Qed.

Lemma escape_head c : ∃ h t, escape c = h :: t ∧ h ≠ dq.
Proof.
  assert (Forall (λ c, escape c ≠ [] ∧ head (escape c) ≠ Some dq) all_ascii) as Hall
    by (refine (bool_decide_unpack _ _); vm_compute; exact I).
  rewrite Forall_forall in Hall. destruct (Hall c (elem_of_all_ascii c)) as [Hne Hh].
  destruct (escape c) as [|h t]; [done|]. exists h, t. split; [done|].
  intros ->. by destruct Hh.
Qed.

Lemma escape_unique l1 l2 r1 r2 :
  flat_map escape l1 ++ dq :: r1 = flat_map escape l2 ++ dq :: r2 →
  l1 = l2 ∧ r1 = r2.
Proof.
  revert l2. induction l1 as [|c1 l1 IH]; intros [|c2 l2]; simpl.
  - by intros [= <-].
  - destruct (escape_head c2) as (h & t & -> & Hh). simpl. by intros [= <-].
  - destruct (escape_head c1) as (h & t & -> & Hh). simpl. by intros [= ->].
  - rewrite <-!app_assoc. intros Heq.
    assert (c1 = c2) as <-.
    { destruct (app_eq_inv _ _ _ _ Heq) as [(k & Hk & _)|(k & Hk & _)].
      - symmetry. apply escape_prefix_free. by exists k.
      - apply escape_prefix_free. by exists k. }
    apply app_inv_head in Heq. destruct (IH _ Heq) as [-> ->]. done.
Qed.

Lemma quote_unique s1 s2 r1 r2 :
  QuoteJSONString s1 ++ r1 = QuoteJSONString s2 ++ r2 → s1 = s2 ∧ r1 = r2.
Proof.
  unfold QuoteJSONString. simpl. rewrite <-!app_assoc. simpl. intros [= Heq].
  apply escape_unique in Heq as [Hs ->]. split; [|done]. by apply chars_inj.
Qed.

(** *** Decimal numerals decode uniquely before a character that is not a
    digit *)

Definition is_digit (c : ascii) : Prop := (48 ≤ N_of_ascii c ≤ 57)%N.

Definition no_digit_head (r : list ascii) : Prop :=
  match r with
  | [] => True
  | c :: _ => ¬ is_digit c
  end.

Lemma pretty_N_char_digit x : (x < 10)%N → is_digit (pretty_N_char x).
Proof.
  intros Hx. assert (x = 0 ∨ x = 1 ∨ x = 2 ∨ x = 3 ∨ x = 4 ∨ x = 5 ∨ x = 6 ∨
                     x = 7 ∨ x = 8 ∨ x = 9)%N as Hcases by lia.
  unfold is_digit. destruct Hcases as [->|[->|[->|[->|[->|[->|[->|[->|[->| ->]]]]]]]]];
    simpl; lia.
Qed.

Lemma pretty_N_go_digits x s :
  ∃ d, chars (pretty_N_go x s) = d ++ chars s ∧ Forall is_digit d ∧
       ((0 < x)%N → d ≠ []).
Proof.
  revert s. induction (N.lt_wf_0 x) as [x _ IH]. intros s.
  destruct (decide (x = 0)%N) as [->|Hx].
  - exists []. rewrite pretty_N_go_0. split_and!; [done|constructor|lia].
  - rewrite pretty_N_go_step by lia.
    destruct (IH (x `div` 10)%N) with (s := String (pretty_N_char (x `mod` 10)) s)
      as (d & Hd & Hdig & _).
    { apply N.div_lt; lia. }
    exists (d ++ [pretty_N_char (x `mod` 10)]). split_and!.
    + rewrite Hd. simpl. by rewrite <-app_assoc.
    + apply Forall_app. split; [done|]. constructor; [|constructor].
      apply pretty_N_char_digit. apply N.mod_lt. lia.
    + intros _. by destruct d.
Qed.

Lemma pretty_N_digits (x : N) :
  Forall is_digit (chars (pretty x)) ∧ chars (pretty x) ≠ [].
Proof.
  unfold pretty, pretty_N. case_decide as Hx.
  - split; [|done]. constructor; [|constructor]. unfold is_digit. simpl. lia.
  - destruct (pretty_N_go_digits x "") as (d & Hd & Hdig & Hne).
    rewrite Hd. simpl. rewrite app_nil_r. split; [done|]. apply Hne. lia.
Qed.

(** A numeral: digits, possibly after a minus sign. *)
Definition numeral (l : list ascii) : Prop :=
  (Forall is_digit l ∧ l ≠ []) ∨
  (∃ d, l = "-"%char :: d ∧ Forall is_digit d ∧ d ≠ []).

Lemma pretty_Z_numeral (z : Z) : numeral (chars (pretty z)).
Proof.
  destruct z as [|p|p]; unfold pretty, pretty_Z.
  - left. split; [|done]. constructor; [|constructor]. unfold is_digit. simpl. lia.
  - left. apply (pretty_N_digits (N.pos p)).
  - right. exists (chars (pretty (N.pos p))). split; [done|].
    apply (pretty_N_digits (N.pos p)).
Qed.

Lemma digits_unique d1 d2 r1 r2 :
  Forall is_digit d1 → Forall is_digit d2 → no_digit_head r1 → no_digit_head r2 →
  d1 ++ r1 = d2 ++ r2 → d1 = d2 ∧ r1 = r2.
Proof.
  intros Hd1. revert d2. induction Hd1 as [|c1 d1 Hc1 _ IH]; intros d2 Hd2 Hr1 Hr2.
  - destruct Hd2 as [|c2 d2 Hc2 _]; simpl; [done|]. intros ->. by destruct Hr1.
  - destruct Hd2 as [|c2 d2 Hc2 Hd2]; simpl.
    + intros <-. by destruct Hr2.
    + intros [= <- Heq]. destruct (IH d2 Hd2 Hr1 Hr2 Heq) as [-> ->]. done.
Qed.

Lemma numeral_unique l1 l2 r1 r2 :
  numeral l1 → numeral l2 → no_digit_head r1 → no_digit_head r2 →
  l1 ++ r1 = l2 ++ r2 → l1 = l2 ∧ r1 = r2.
Proof.
  assert (¬ is_digit "-"%char) as Hminus by (unfold is_digit; simpl; lia).
  intros [[Hd1 Hne1]|(d1 & -> & Hd1 & Hne1)] [[Hd2 Hne2]|(d2 & -> & Hd2 & Hne2)]
    Hr1 Hr2 Heq.
  - by apply digits_unique.
  - destruct Hd1 as [|c d1 Hc _]; [done|]. simpl in Heq. injection Heq as -> _. done.
  - destruct Hd2 as [|c d2 Hc _]; [done|]. simpl in Heq. injection Heq as <- _. done.
  - simpl in Heq. injection Heq as Heq.
    destruct (digits_unique d1 d2 r1 r2) as [-> ->]; done.
Qed.

Lemma numeral_head l :
  numeral l → ∃ c t, l = c :: t ∧ (is_digit c ∨ c = "-"%char).
Proof.
  intros [[Hd Hne]|(d & -> & _)].
  - destruct Hd as [|c d Hc _]; [done|]. exists c, d. auto.
  - exists "-"%char, d. auto.
Qed.

(** *** Values decode uniquely *)

(** The kind of a value, and the kind its first character announces. *)
Definition kind (v : value) : nat :=
  match v with
  | Undefined => 0 | Null => 1 | Bool _ => 2 | Num _ => 3 | Str _ => 4
  | Arr _ => 5 | Obj _ => 6
  end.

Definition tag (c : ascii) : nat :=
  let n := N_of_ascii c in
  if decide (n = 110)%N then 1
  else if decide (n = 116 ∨ n = 102)%N then 2
  else if decide (48 ≤ n ≤ 57 ∨ n = 45)%N then 3
  else if decide (n = 34)%N then 4
  else if decide (n = 91)%N then 5
  else if decide (n = 123)%N then 6
  else 0.

(** What may follow a value inside an array or an object. *)
Definition sep_head (t : list ascii) : Prop :=
  ∃ c t', t = c :: t' ∧ (c = ","%char ∨ c = "]"%char ∨ c = "}"%char).

Lemma sep_head_no_digit t : sep_head t → no_digit_head t.
Proof.
  intros (c & t' & -> & [->|[->| ->]]); unfold no_digit_head, is_digit; simpl; lia.
Qed.

Lemma sep_head_tag c t : sep_head (c :: t) → tag c = 0.
Proof. by intros (c' & t' & [= <- <-] & [->|[->| ->]]). Qed.

Lemma representable_Some v :
  representable v = true → SerializeJSONProperty v = Some (ser v).
Proof. unfold ser. destruct v as [| |[]|[]| | |]; done. Qed.

Lemma ser_tag v :
  representable v = true → ∃ c t, ser v = c :: t ∧ tag c = kind v.
Proof.
  unfold ser. destruct v as [| |[]|[z| | |]|s|items|props]; simpl; try done;
    try (intros _; eexists _, _; split; [reflexivity|done]).
  intros _. destruct (numeral_head _ (pretty_Z_numeral z)) as (c & t & -> & Hc).
  exists c, t. split; [done|]. unfold tag, is_digit in *.
  destruct Hc as [Hc| ->]; [|done]. repeat (case_decide; try lia).
Qed.

(** A comma-separated sequence before its closing character decodes
    uniquely when its elements do. *)
Lemma commas_unique {A} (enc : A → list ascii) (close : ascii) (Q : A → Prop)
    l1 l2 r1 r2 :
  sep_head [close] → close ≠ ","%char →
  Forall (λ x1, ∀ x2 t1 t2, Q x2 → sep_head t1 → sep_head t2 →
                 enc x1 ++ t1 = enc x2 ++ t2 → x1 = x2 ∧ t1 = t2) l1 →
  Forall (λ x, ∃ c t, enc x = c :: t ∧ tag c ≠ 0) l1 →
  Forall (λ x, ∃ c t, enc x = c :: t ∧ tag c ≠ 0) l2 →
  Forall Q l2 →
  commas (enc <$> l1) ++ close :: r1 = commas (enc <$> l2) ++ close :: r2 →
  l1 = l2 ∧ r1 = r2.
Proof.
  intros Hclose Hcomma Hdec. revert l2.
  assert (tag close = 0) as Hctag by (by eapply sep_head_tag).
  assert (∀ l : list A, ∀ r, sep_head
            (match enc <$> l with [] => close :: r | _ => ","%char :: commas (enc <$> l) ++ close :: r end))
    as Hsep.
  { intros l r. destruct (enc <$> l).
    - destruct Hclose as (c & t' & [= <- <-] & Hc). by eexists _, _.
    - eexists _, _. split; [done|]. by left. }
  assert (∀ x (l : list A) r,
            commas (enc <$> x :: l) ++ close :: r =
            enc x ++ match enc <$> l with [] => close :: r
                     | _ => ","%char :: commas (enc <$> l) ++ close :: r end)
    as Hcons.
  { intros x l r. rewrite fmap_cons. simpl. destruct (enc <$> l); [done|].
    rewrite <-app_assoc. done. }
  induction Hdec as [|x1 l1 Hx1 _ IH]; intros l2 Hh1 Hh2 HQ.
  - destruct Hh2 as [|x2 l2 (c & t & Hx2 & Hc) _].
    + simpl. by intros [= <-].
    + rewrite Hcons, Hx2. simpl. intros [= <- _]. done.
  - apply Forall_cons in Hh1 as [(c1 & t1 & Hc1 & Htag1) Hh1].
    destruct Hh2 as [|x2 l2 _ Hh2].
    + rewrite Hcons, Hc1. simpl. intros [= -> _]. done.
    + apply Forall_cons in HQ as [HQ2 HQ]. rewrite !Hcons. intros Heq.
      apply Hx1 in Heq as [<- Heq]; [|done|apply Hsep..].
      destruct l1 as [|y1 l1], l2 as [|y2 l2]; simpl in Heq.
      * by injection Heq as <-.
      * injection Heq as Heq _. by destruct Hcomma.
      * injection Heq as Heq _. by destruct Hcomma.
      * injection Heq as Heq.
        destruct (IH (y2 :: l2)) as [-> ->]; done.
Qed.

(** The serialisations of representable values decode uniquely before a
    separator. *)
Definition decodes (v1 : value) : Prop :=
  representable v1 = true →
  ∀ v2 r1 r2, representable v2 = true → sep_head r1 → sep_head r2 →
    ser v1 ++ r1 = ser v2 ++ r2 → v1 = v2 ∧ r1 = r2.

Lemma items_ser (items : list value) :
  map (λ x, default (chars "null") (SerializeJSONProperty x)) items = ser <$> items.
Proof. done. Qed.

Lemma props_ser (props : list (string * value)) :
  forallb (λ p, representable p.2) props = true →
  omap (λ p, member p.1 <$> SerializeJSONProperty p.2) props =
    (λ p, member p.1 (ser p.2)) <$> props.
Proof.
  induction props as [|[k v] props IH]; [done|].
  cbn [forallb snd]. intros [Hv Hprops]%andb_prop.
  cbn [omap list_omap fmap list_fmap fst snd].
  rewrite (representable_Some v Hv). cbn [fmap option_fmap option_map].
  f_equal. by apply IH.
Qed.

Lemma Forall_forallb {A} (f : A → bool) l : forallb f l = true ↔ Forall (λ x, f x = true) l.
Proof.
  induction l as [|x l IH]; simpl.
  - split; [constructor|done].
  - rewrite andb_true_iff, Forall_cons, IH. done.
Qed.

Lemma ser_heads (items : list value) :
  forallb representable items = true →
  Forall (λ x, ∃ c t, ser x = c :: t ∧ tag c ≠ 0) items.
Proof.
  rewrite Forall_forallb. intros Hall. eapply Forall_impl; [exact Hall|].
  intros v Hv. simpl in Hv.
  destruct (ser_tag v Hv) as (c & t & Hc & Htag). exists c, t. split; [done|].
  rewrite Htag. by destruct v.
Qed.

Lemma member_heads (props : list (string * value)) :
  Forall (λ p, ∃ c t, member p.1 (ser p.2) = c :: t ∧ tag c ≠ 0) props.
Proof. apply Forall_forall. intros [k v] _. by eexists _, _. Qed.

Lemma same_kind v1 v2 r1 r2 :
  representable v1 = true → representable v2 = true →
  ser v1 ++ r1 = ser v2 ++ r2 → kind v1 = kind v2.
Proof.
  intros (c1 & t1 & -> & <-)%ser_tag (c2 & t2 & -> & <-)%ser_tag. simpl.
  by intros [= -> _].
Qed.

Lemma ser_decodes v : decodes v.
Proof.
  induction v as [| |b1|n1|s1|items1 IH|props1 IH] using value_ind;
    intros Hv1 v2 r1 r2 Hv2 Hr1 Hr2 Heq;
    pose proof (same_kind _ _ _ _ Hv1 Hv2 Heq) as Hkind;
    destruct v2 as [| |b2|n2|s2|items2|props2]; try discriminate Hkind;
    try discriminate Hv1; clear Hkind.
  - apply app_inv_head in Heq. done.
  - destruct b1, b2; try discriminate Heq; apply app_inv_head in Heq; done.
  - destruct n1 as [z1| | |], n2 as [z2| | |]; try discriminate Hv1;
      try discriminate Hv2.
    unfold ser in Heq. simpl in Heq.
    apply numeral_unique in Heq as [Heq ->];
      [|apply pretty_Z_numeral|apply pretty_Z_numeral
       |by apply sep_head_no_digit|by apply sep_head_no_digit].
    apply chars_inj, (inj pretty) in Heq. by subst.
  - apply quote_unique in Heq as [-> ->]. done.
  - unfold ser in Heq. simpl in Heq. rewrite !items_ser in Heq.
    unfold bracket in Heq. simpl in Heq. rewrite <-!app_assoc in Heq. simpl in Heq.
    injection Heq as Heq. simpl in Hv1, Hv2.
    apply (commas_unique ser "]" (λ x, representable x = true)) in Heq as [-> ->];
      [done|by eexists _, _; eauto|done| |by apply ser_heads..|by apply Forall_forallb].
    apply Forall_forallb in Hv1. clear -IH Hv1.
    induction IH as [|x l Hx _ IHl]; [constructor|].
    apply Forall_cons in Hv1 as [Hv Hl]. constructor; [|by apply IHl].
    intros x2 t1 t2 Hx2 Ht1 Ht2. by apply Hx.
  - unfold ser in Heq. simpl in Heq. simpl in Hv1, Hv2.
    rewrite !props_ser in Heq by done.
    unfold brace in Heq. simpl in Heq. rewrite <-!app_assoc in Heq. simpl in Heq.
    injection Heq as Heq.
    apply (commas_unique (λ p, member p.1 (ser p.2)) "}"
             (λ p, representable p.2 = true)) in Heq as [-> ->];
      [done|by eexists _, _; eauto|done| |apply member_heads..|by apply Forall_forallb].
    apply Forall_forallb in Hv1. clear -IH Hv1.
    induction IH as [|[k1 x1] l Hx _ IHl]; [constructor|].
    apply Forall_cons in Hv1 as [Hv Hl]. constructor; [|by apply IHl].
    cbn [snd] in Hx, Hv.
    intros [k2 x2] t1 t2 Hx2 Ht1 Ht2. unfold member. cbn [fst snd] in *.
    rewrite <-!app_assoc. intros [-> Heq]%quote_unique.
    injection Heq as Heq.
    apply Hx in Heq as [-> ->]; done.
Qed.

(** *** createKey *)

Lemma string_of_list_ascii_inj l1 l2 :
  String.string_of_list_ascii l1 = String.string_of_list_ascii l2 → l1 = l2.
Proof.
  intros Heq. rewrite <-(String.list_ascii_of_string_of_list_ascii l1).
  rewrite <-(String.list_ascii_of_string_of_list_ascii l2). by rewrite Heq.
Qed.

Lemma createKey_inj xs ys :
  forallb representable xs = true → forallb representable ys = true →
  createKey xs = createKey ys → xs = ys.
Proof.
  intros Hxs Hys Heq%string_of_list_ascii_inj.
  unfold SerializeJSONArray in Heq. rewrite !items_ser in Heq.
  unfold bracket in Heq. injection Heq as Heq.
  apply (commas_unique ser "]" (λ x, representable x = true)) in Heq as [-> _];
    [done|by eexists _, _; eauto|done| |by apply ser_heads..|by apply Forall_forallb].
  apply Forall_forallb in Hxs. eapply Forall_impl; [exact Hxs|].
  intros x Hx x2 t1 t2 Hx2 Ht1 Ht2. by apply ser_decodes.
Qed.

(** *** What the JSON text forgets *)

(** The value that is read back from the text of [v] when [v] is an array
    element: [undefined], [NaN] and the infinities become [null], and a
    property whose value is [undefined] is dropped. *)
Definition is_undefined (v : value) : bool :=
  match v with Undefined => true | _ => false end.

Fixpoint normalise (v : value) : value :=
  match v with
  | Undefined => Null
  | Num (Int z) => Num (Int z)
  | Num _ => Null
  | Arr items => Arr (map normalise items)
  | Obj props =>
      Obj (omap (λ p, if is_undefined p.2 then None
                      else Some (p.1, normalise p.2)) props)
  | v => v
  end.

(** Every whole number in [v] is a safe integer. *)
Fixpoint safe (v : value) : bool :=
  match v with
  | Num (Int z) => bool_decide (Z.abs z ≤ 9007199254740991)%Z
  | Arr items => forallb safe items
  | Obj props => forallb (λ p, safe p.2) props
  | _ => true
  end.

Lemma defined_Some v : v ≠ Undefined → SerializeJSONProperty v = Some (ser v).
Proof. unfold ser. destruct v as [| |[]|[]| | |]; done. Qed.

Lemma normalise_defined v : normalise v ≠ Undefined.
Proof. by destruct v as [| |[]|[]| | |]. Qed.

Lemma ser_normalise v : ser (normalise v) = ser v.
Proof.
  induction v as [| |b|n|s|items IH|props IH] using value_ind; try done.
  - by destruct n.
  - unfold ser. cbn [normalise SerializeJSONProperty default]. apply (f_equal bracket).
    induction IH as [|x l Hx _ IHl]; [done|]. cbn [map].
    f_equal; [exact Hx|exact IHl].
  - unfold ser. cbn [normalise SerializeJSONProperty default]. apply (f_equal brace).
    induction IH as [|[k x] l Hx _ IHl]; [done|].
    cbn [omap list_omap fst snd] in *.
    destruct (is_undefined x) eqn:Hu.
    + assert (x = Undefined) as -> by (by destruct x).
      cbn [SerializeJSONProperty fmap option_fmap option_map]. apply IHl.
    + assert (x ≠ Undefined) as Hdef by (by intros ->).
      cbn [omap list_omap fst snd].
      rewrite (defined_Some x Hdef), (defined_Some _ (normalise_defined x)), Hx.
      cbn [fmap option_fmap option_map]. by rewrite IHl.
Qed.

Lemma representable_normalise v : safe v = true → representable (normalise v) = true.
Proof.
  induction v as [| |b|n|s|items IH|props IH] using value_ind; try done.
  - by destruct n.
  - cbn [safe normalise representable]. intros Hsafe%Forall_forallb.
    apply Forall_forallb, Forall_fmap.
    induction IH as [|x l Hx _ IHl]; [constructor|].
    apply Forall_cons in Hsafe as [Hs Hl]. constructor; [by apply Hx|by apply IHl].
  - cbn [safe normalise representable]. intros Hsafe%Forall_forallb.
    apply Forall_forallb.
    induction IH as [|[k x] l Hx _ IHl]; [constructor|].
    apply Forall_cons in Hsafe as [Hs Hl]. cbn [omap list_omap fst snd] in *.
    destruct (is_undefined x) eqn:Hu; [by apply IHl|].
    constructor; [by apply Hx|by apply IHl].
Qed.

Lemma createKey_normalise xs : createKey (normalise <$> xs) = createKey xs.
Proof.
  unfold createKey, SerializeJSONArray. rewrite !items_ser. do 2 f_equal.
  rewrite <-list_fmap_compose. apply list_fmap_ext. intros _ x _. apply ser_normalise.
Qed.

Lemma createKey_eq_iff xs ys :
  forallb safe xs = true → forallb safe ys = true →
  createKey xs = createKey ys ↔ normalise <$> xs = normalise <$> ys.
Proof.
  intros Hxs%Forall_forallb Hys%Forall_forallb. split.
  - rewrite <-(createKey_normalise xs), <-(createKey_normalise ys).
    apply createKey_inj; apply Forall_forallb, Forall_fmap.
    + eapply Forall_impl; [exact Hxs|]. intros x. apply representable_normalise.
    + eapply Forall_impl; [exact Hys|]. intros x. apply representable_normalise.
  - intros Heq. by rewrite <-(createKey_normalise xs), Heq, createKey_normalise.
Qed.

(** *** Structural equality

    Two values are structurally equal when they are the same primitive,
    arrays of structurally equal elements in the same order, or objects
    with the same property names and structurally equal values under each
    name, in whatever order the properties are enumerated. *)
#[local] Unset Elimination Schemes.
#[local] Set Elimination Schemes.



End JSONFacts.

(** * Facts about coalesceFunction *)

Module coalesceFunctionFacts.
Import RequestCoalescer RequestCoalescerFacts.
Section facts.
Context {A V E : Type} (fn : A → thunk E) (keyFn : A → string).

Implicit Types (s : state string V E) (ev : coalesceFunction.event A V E).

(** The closure drives its coalescer through [execute] only. *)
Lemma wrapper_step s ev :
  coalesceFunction.step fn keyFn s ev = step s (coalesceFunction.to_coalescer fn keyFn ev).
Proof. by destruct ev. Qed.

Lemma wrapper_run s evs :
  coalesceFunction.run fn keyFn s evs = run s (coalesceFunction.to_coalescer fn keyFn <$> evs).
Proof.
  revert s. induction evs as [|ev evs IH]; intros s; [done|].
  rewrite fmap_cons, rc_run_cons. cbn [coalesceFunction.run].
  rewrite wrapper_step. destruct (step s _) as [s'|]; [apply IH|done].
Qed.

Lemma wrapper_reachable s :
  coalesceFunction.reachable fn keyFn s → reachable s.
Proof. intros [evs Hrun]. rewrite wrapper_run in Hrun. by eexists. Qed.

(** Every operation in flight is the one registered for its key. *)
Definition registered (s : state string V E) : Prop :=
  ∀ p k st, chains (rt s) !! p = Some (Chain k st) → (∀ o, st ≠ Done o) →
    pendingRequests s !! k = Some p.

Lemma registered_init : registered (@init string _ _ V E).
Proof. intros p k st. simpl. by rewrite lookup_nil. Qed.

Lemma registered_execute key request s : registered s → registered (execute key request s).
Proof.
  intros Hreg. unfold execute. destruct (pendingRequests s !! key) as [q|] eqn:Hkey.
  { exact Hreg. }
  destruct (thunk_throws request); [exact Hreg|].
  intros p k st. cbn [rt pendingRequests add_call spawn log_invocation chains].
  intros [Hp|[Hlen Hp]]%lookup_app_Some Hst.
  - rewrite lookup_insert_ne; [by eapply Hreg|].
    intros <-. by rewrite (Hreg _ _ _ Hp Hst) in Hkey.
  - destruct (p - length (chains (rt s))) as [|?] eqn:Hdiff; [|done].
    injection Hp as <- <-. replace p with (length (chains (rt s))) by lia.
    apply lookup_insert_eq.
Qed.

Lemma registered_step s ev s' : registered s → coalesceFunction.step fn keyFn s ev = Some s' → registered s'.
Proof.
  intros Hreg. destruct ev as [args|p o|p|c]; cbn [coalesceFunction.step
    coalesceFunction.to_coalescer step].
  - intros [= <-]. by apply registered_execute.
  - destruct (settle p o (rt s)) as [h|] eqn:Hsettle; [|done]. intros [= <-].
    apply settle_Some in Hsettle as (ch & Hch & Hrun & ->).
    intros q k st. cbn [rt pendingRequests]. rewrite set_chain_lookup.
    case_decide as Hq.
    + subst q. rewrite Hch. intros [= <- <-] _.
      apply (Hreg p _ Running); [by destruct ch; simplify_eq/=|done].
    + apply Hreg.
  - intros (key & o & Hp & ->)%rc_react_Some.
    intros q k st. cbn [rt pendingRequests]. rewrite set_chain_lookup.
    case_decide as Hq.
    + subst q. rewrite Hp. intros [= <- <-] Hst. by destruct (Hst o).
    + intros Hch Hst. rewrite lookup_delete_ne; [by eapply Hreg|].
      intros <-. pose proof (Hreg _ _ _ Hch Hst) as H1.
      rewrite (Hreg p key (Settling o)) in H1 by done. by injection H1.
  - destruct (deliver c (rt s)) as [h|] eqn:Hdel; [|done]. intros [= <-].
    apply deliver_Some in Hdel as (key & p & o & ch & _ & _ & _ & ->). exact Hreg.
Qed.

Lemma reachable_registered s : coalesceFunction.reachable fn keyFn s → registered s.
Proof.
  intros [evs Hrun]. revert Hrun. generalize registered_init.
  generalize (@init string _ _ V E). induction evs as [|ev evs IH]; intros s0 Hreg.
  - by intros [= <-].
  - cbn [coalesceFunction.run]. destruct (coalesceFunction.step fn keyFn s0 ev) as [s1|] eqn:Hstep; [|done].
    apply IH. by eapply registered_step.
Qed.

(** Operations in flight have different keys, all registered. *)
Lemma running_keys (pend : gmap string nat) (cs : list (chain string V E)) :
  (∀ p k st, cs !! p = Some (Chain k st) → (∀ o, st ≠ Done o) → pend !! k = Some p) →
  NoDup (chain_key <$> filter (λ ch, running ch = true) cs) ∧
  ∀ k, k ∈ chain_key <$> filter (λ ch, running ch = true) cs → is_Some (pend !! k).
Proof.
  assert (∀ ch : chain string V E, running ch = true → ∀ o, chain_st ch ≠ Done o)
    as Hrunning.
  { intros [k st] Hr o. unfold running in Hr. simpl in *. by intros ->. }
  induction cs as [|c cs IH] using rev_ind; intros Hreg.
  - split; [constructor|]. intros k. by rewrite elem_of_nil.
  - destruct IH as [Hnd Hin].
    { intros p k st Hp. apply Hreg. by apply lookup_app_l_Some. }
    rewrite filter_app, fmap_app.
    destruct (decide (running c = true)) as [Hc|Hc].
    + rewrite filter_cons_True, filter_nil by done. cbn [fmap list_fmap].
      destruct c as [k st]. cbn [chain_key].
      assert (pend !! k = Some (length cs)) as Hk.
      { apply (Hreg _ _ st); [apply list_lookup_middle; done|].
        apply (Hrunning _ Hc). }
      split.
      * apply NoDup_app. split_and!; [done| |apply NoDup_singleton].
        intros x Hx ->%list_elem_of_singleton.
        apply list_elem_of_fmap in Hx as ([k' st'] & Hkey & Hch). simpl in Hkey. subst k'.
        apply list_elem_of_filter in Hch as [Hr Hch].
        apply list_elem_of_lookup in Hch as [p Hp].
        pose proof (lookup_lt_Some _ _ _ Hp) as Hlt.
        rewrite (Hreg p k st') in Hk; [injection Hk; lia| |by apply (Hrunning _ Hr)].
        by apply lookup_app_l_Some.
      * intros x [Hx| ->%list_elem_of_singleton]%elem_of_app; [by apply Hin|done].
    + rewrite filter_cons_False, filter_nil by done. by rewrite fmap_nil, app_nil_r.
Qed.

Lemma registered_count s : registered s → in_flight (rt s) ≤ size (pendingRequests s).
Proof.
  intros Hreg. destruct (running_keys (pendingRequests s) (chains (rt s)) Hreg)
    as [Hnd Hin].
  unfold in_flight. rewrite <-(length_fmap chain_key), <-length_map_to_list.
  rewrite <-(length_fmap fst (map_to_list _)).
  apply submseteq_length, NoDup_submseteq; [done|].
  intros k [p Hp]%Hin. apply list_elem_of_fmap. exists (k, p). split; [done|].
  by apply elem_of_map_to_list.
Qed.

End facts.
End coalesceFunctionFacts.


(** * Facts about the logger *)

Module LoggerFacts.

(** The four names of the level map are not names of [Object.prototype]. *)
Lemma logLevelMap_inherited name :
  name ∈ Logger.prototype_properties →
  Logger.logLevelMap name = Some (Logger.Inherited name).
Proof.
  intros Hname. unfold Logger.logLevelMap.
  assert (∀ own, bool_decide (own ∈ Logger.prototype_properties) = false →
            name ≠ own) as Hown.
  { intros own Hown%bool_decide_eq_false_1 ->. done. }
  rewrite !decide_False by (apply Hown; vm_compute; reflexivity).
  by rewrite bool_decide_eq_true_2.
Qed.

Import Logger.

(** The last [n] elements of a list. *)
Definition keep_last {A} (n : nat) (l : list A) : list A := drop (length l - n) l.

Lemma keep_last_short {A} n (l : list A) : length l ≤ n → keep_last n l = l.
Proof. intros Hle. unfold keep_last. by replace (length l - n) with 0 by lia. Qed.

Lemma length_keep_last {A} n (l : list A) : length (keep_last n l) = length l `min` n.
Proof. unfold keep_last. rewrite length_drop. lia. Qed.

Lemma keep_last_app {A} n (l r : list A) :
  keep_last n (keep_last n l ++ r) = keep_last n (l ++ r).
Proof.
  destruct (decide (length l ≤ n)) as [Hle|Hgt].
  - by rewrite (keep_last_short n l).
  - unfold keep_last at 1 3. rewrite !length_app, length_keep_last.
    replace (length l `min` n + length r - n) with (length r) by lia.
    replace (length l + length r - n) with ((length l - n) + length r) by lia.
    rewrite <-(drop_drop (l ++ r)). rewrite (drop_app_le l) by lia. done.
Qed.

Section facts.
Context (env : Env) (this : Logger).

Definition method_of (level : LogLevel) : console_method :=
  match level with
  | DEBUG => console_debug | INFO => console_info
  | WARN => console_warn | ERROR => console_error
  end.

(** Whether [log] writes a line to the console for [level]. *)
Definition printed (level : LogLevel) : bool :=
  isDevelopment this ||
  match level with WARN | ERROR => true | _ => false end.

(** The context that [apiError] passes on. *)
Definition api_context (error : Error) (context : option ContextRecord) : ContextRecord :=
  set_property "status" (err_response_status error)
    (set_property "method" (err_config_method error)
       (set_property "url" (err_config_url error) (default [] context))).

(** The level, message, context and error with which a call reaches
    [log]; [None] for [clearLogs]. *)
Definition call_params (c : call) :
    option (LogLevel * string * option ContextRecord * option Error) :=
  match c with
  | Debug message context => Some (DEBUG, message, context, None)
  | Info message context => Some (INFO, message, context, None)
  | Warn message context error => Some (WARN, message, context, error)
  | Error_ message context error => Some (ERROR, message, context, error)
  | ApiError message error context =>
      Some (ERROR, "API Error: " +:+ message, Some (api_context error context),
            Some error)
  | UserAction action context => Some (INFO, "User Action: " +:+ action, context, None)
  | Performance operation duration context =>
      Some (INFO,
            "Performance: " +:+ operation +:+ " took " +:+
              number_toString duration +:+ "ms",
            context, None)
  | ClearLogs => None
  end.

Definition call_level (c : call) : option LogLevel :=
  (λ params, params.1.1.1) <$> call_params c.

(** The entry stored for a call when the clock has been read [d] times. *)
Definition entry_of (d : nat) (c : call) : option LogEntry :=
  '(level, message, context, error) ← call_params c;
  Some (Entry (toISOString env (S d)) level message context error).

(** A logging call that passes the threshold. *)
Definition accepted (c : call) : Prop :=
  ∃ level, call_level c = Some level ∧ shouldLog this level = true.

Lemma step_params s c level message context error :
  call_params c = Some (level, message, context, error) →
  step env this s c = log env this level message context error s.
Proof. destruct c; intros [= <- <- <- <-]; done. Qed.

Lemma log_rejected level message context error s :
  shouldLog this level = false → log env this level message context error s = s.
Proof. intros Hno. unfold log. by rewrite Hno. Qed.

Lemma log_accepted level message context error s :
  shouldLog this level = true →
  log env this level message context error s =
    storeLog env (Entry (toISOString env (S (dates s))) level message context error)
      (State (appLogs s)
         (if printed level
          then console s ++
                 [(method_of level, (formatMessage env level message context error s).1)]
          else console s)
         (S (S (dates s)))).
Proof.
  intros Hyes. unfold log, printed. rewrite Hyes. cbn [negb].
  unfold formatMessage, now. cbn [dates appLogs console fst].
  destruct (isDevelopment this), level; reflexivity.
Qed.

Lemma getLogs_storeLog entry s :
  getLogs env (storeLog env entry s) =
    if hasWindow env then keep_last 100 (getLogs env s ++ [entry]) else [].
Proof.
  unfold getLogs, storeLog. destruct (hasWindow env); [|done]. cbn [appLogs default].
  case_bool_decide as Hlen; [done|]. rewrite keep_last_short; [done|lia].
Qed.

Lemma step_accepted s c level message context error :
  call_params c = Some (level, message, context, error) →
  shouldLog this level = true →
  getLogs env (step env this s c) =
    (if hasWindow env
     then keep_last 100
            (getLogs env s ++
               [Entry (toISOString env (S (dates s))) level message context error])
     else []) ∧
  console (step env this s c) =
    (if printed level
     then console s ++
            [(method_of level, (formatMessage env level message context error s).1)]
     else console s) ∧
  dates (step env this s c) = S (S (dates s)).
Proof.
  intros Hparams Hyes. rewrite (step_params _ _ _ _ _ _ Hparams).
  rewrite log_accepted by done. rewrite getLogs_storeLog.
  split; [|unfold storeLog; by destruct (hasWindow env)].
  unfold getLogs. by destruct (hasWindow env).
Qed.

Lemma step_rejected s c level :
  call_level c = Some level → shouldLog this level = false → step env this s c = s.
Proof.
  unfold call_level. destruct (call_params c) as [[[[l m] ctx] e]|] eqn:Hparams; [|done].
  intros [= <-] Hno. rewrite (step_params _ _ _ _ _ _ Hparams). by apply log_rejected.
Qed.

(** The entries stored by a run of accepted calls, the clock having been
    read [d] times before. *)
Fixpoint entries_from (d : nat) (cs : list call) : list LogEntry :=
  match cs with
  | [] => []
  | c :: cs => option_list (entry_of d c) ++ entries_from (S (S d)) cs
  end.

Lemma run_accepted s cs :
  hasWindow env = true → Forall accepted cs → length (getLogs env s) ≤ 100 →
  getLogs env (run env this s cs) =
    keep_last 100 (getLogs env s ++ entries_from (dates s) cs).
Proof.
  intros Hwin Hall. revert s. induction Hall as [|c cs (level & Hlevel & Hyes) _ IH];
    intros s Hlen.
  - cbn [run foldl entries_from]. rewrite app_nil_r. by rewrite keep_last_short.
  - unfold call_level in Hlevel.
    destruct (call_params c) as [[[[l m] ctx] e]|] eqn:Hparams; [|done].
    injection Hlevel as <-.
    destruct (step_accepted s c _ _ _ _ Hparams Hyes) as (Hlogs & _ & Hdates).
    rewrite Hwin in Hlogs.
    change (run env this s (c :: cs)) with (run env this (step env this s c) cs).
    rewrite IH by (rewrite Hlogs, length_keep_last; lia).
    rewrite Hlogs, Hdates, keep_last_app, <-app_assoc.
    cbn [entries_from]. unfold entry_of. rewrite Hparams. done.
Qed.

Lemma step_length_logs s c :
  length (getLogs env s) ≤ 100 → length (getLogs env (step env this s c)) ≤ 100.
Proof.
  intros Hlen. destruct (call_params c) as [[[[l m] ctx] e]|] eqn:Hparams.
  - destruct (shouldLog this l) eqn:Hl.
    + destruct (step_accepted s c _ _ _ _ Hparams Hl) as (-> & _).
      destruct (hasWindow env); [|simpl; lia]. rewrite length_keep_last. lia.
    + rewrite (step_rejected s c l); [done| |done]. unfold call_level. by rewrite Hparams.
  - destruct c; try done. cbn [step]. unfold clearLogs, getLogs in *.
    destruct (hasWindow env); simpl; lia.
Qed.

Lemma run_length_logs s cs :
  length (getLogs env s) ≤ 100 → length (getLogs env (run env this s cs)) ≤ 100.
Proof.
  revert s. induction cs as [|c cs IH]; intros s Hlen; [done|].
  apply (IH (step env this s c)). by apply step_length_logs.
Qed.

Definition loud (line : console_method * string) : Prop :=
  line.1 = console_warn ∨ line.1 = console_error.

Lemma step_console s c :
  console (step env this s c) = console s ∨
  ∃ level text, call_level c = Some level ∧ printed level = true ∧
    console (step env this s c) = console s ++ [(method_of level, text)].
Proof.
  destruct (call_params c) as [[[[l m] ctx] e]|] eqn:Hparams.
  - destruct (shouldLog this l) eqn:Hl.
    + destruct (step_accepted s c _ _ _ _ Hparams Hl) as (_ & Hconsole & _).
      destruct (printed l) eqn:Hprinted; [|by left]. right.
      eexists l, _. split_and!; [|done..]. unfold call_level. by rewrite Hparams.
    + left. rewrite (step_rejected s c l); [done| |done].
      unfold call_level. by rewrite Hparams.
  - left. destruct c; try done. cbn [step]. unfold clearLogs.
    by destruct (hasWindow env).
Qed.

Lemma set_property_nonempty key v props : set_property key v props ≠ [].
Proof. destruct props as [|[k x] props]; simpl; [done|]. by case_decide. Qed.

End facts.
Lemma append_assoc (x y z : string) : (x +:+ y) +:+ z = x +:+ (y +:+ z).
Proof.
  induction x as [|c x IH]; [done|].
  change (String c ((x +:+ y) +:+ z) = String c (x +:+ (y +:+ z))). by rewrite IH.
Qed.

Lemma append_empty (x : string) : x +:+ EmptyString = x.
Proof.
  induction x as [|c x IH]; [done|].
  change (String c (x +:+ EmptyString) = String c x). by rewrite IH.
Qed.

Lemma last_keep_last {A} n (l : list A) e : last (keep_last (S n) (l ++ [e])) = Some e.
Proof.
  unfold keep_last. rewrite length_app. simpl.
  rewrite drop_app_le by lia. apply last_snoc.
Qed.

Lemma length_entries_from env this d cs :
  Forall (accepted this) cs → length (entries_from env d cs) = length cs.
Proof.
  intros Hall. revert d. induction Hall as [|c cs (level & Hlevel & _) _ IH]; intros d.
  - done.
  - cbn [entries_from]. rewrite length_app, IH. unfold entry_of, call_level in *.
    by destruct (call_params c) as [[[[l m] ctx] e]|].
Qed.

Lemma step_no_window env this s c :
  hasWindow env = false → appLogs (step env this s c) = appLogs s.
Proof.
  intros Hwin. destruct (call_params c) as [[[[l m] ctx] e]|] eqn:Hparams.
  - rewrite (step_params _ _ _ _ _ _ _ _ Hparams).
    destruct (shouldLog this l) eqn:Hl.
    + rewrite log_accepted by done. unfold storeLog. by rewrite Hwin.
    + by rewrite log_rejected.
  - destruct c; try done. cbn [step]. unfold clearLogs. by rewrite Hwin.
Qed.

End LoggerFacts.


(** * A cached coalescer seen as a plain one *)

Module UncachedFacts.
Import RequestCoalescerFacts CachedRequestCoalescerFacts.

(** The part of a cached coalescer that a plain coalescer has, and the
    plain counterpart of each event: [invalidate(k)] is [clear(k)],
    [clear()] is [clearAll()], the clock has none. *)
Definition plain `{Countable K} {V E : Type} (s : CachedRequestCoalescer.state K V E) : RequestCoalescer.state K V E :=
  RequestCoalescer.State (CachedRequestCoalescer.pendingRequests s) (CachedRequestCoalescer.rt s).

Definition plain_event {K V E : Type} (ev : CachedRequestCoalescer.event K V E) : option (RequestCoalescer.event K V E) :=
  match ev with
  | CachedRequestCoalescer.Execute key request => Some (RequestCoalescer.Execute key request)
  | CachedRequestCoalescer.Invalidate key => Some (RequestCoalescer.Clear key)
  | CachedRequestCoalescer.Clear => Some RequestCoalescer.ClearAll
  | CachedRequestCoalescer.Advance _ => None
  | CachedRequestCoalescer.Settle p o => Some (RequestCoalescer.Settle p o)
  | CachedRequestCoalescer.React p => Some (RequestCoalescer.React p)
  | CachedRequestCoalescer.Deliver c => Some (RequestCoalescer.Deliver c)
  end.

Lemma plain_step `{Countable K} `{!CachedRequestCoalescer.JSKey K} {V E : Type} (s : CachedRequestCoalescer.state K V E) ev :
  CachedRequestCoalescer.truthy (CachedRequestCoalescer.ttl (CachedRequestCoalescer.options s)) = false → CachedRequestCoalescer.cache s = ∅ →
  plain <$> CachedRequestCoalescer.step s ev =
    match plain_event ev with
    | Some ev' => RequestCoalescer.step (plain s) ev'
    | None => Some (plain s)
    end.
Proof.
  intros Httl Hcache. destruct ev as [key request|key| |ms|p o|p|c];
    cbn [plain_event CachedRequestCoalescer.step RequestCoalescer.step fmap option_fmap option_map]; try done.
  - f_equal. unfold CachedRequestCoalescer.execute, RequestCoalescer.execute, plain. rewrite Hcache, lookup_empty.
    cbn [RequestCoalescer.pendingRequests RequestCoalescer.rt].
    destruct (CachedRequestCoalescer.pendingRequests s !! key); [done|].
    by destruct (thunk_throws request).
  - unfold plain. cbn [RequestCoalescer.rt RequestCoalescer.pendingRequests]. by destruct (settle p o (CachedRequestCoalescer.rt s)).
  - unfold CachedRequestCoalescer.react, RequestCoalescer.react, plain. cbn [RequestCoalescer.rt RequestCoalescer.pendingRequests].
    destruct (due p (CachedRequestCoalescer.rt s)) as [[key [v|e]]|]; [|done..].
    cbn [mbind option_bind CachedRequestCoalescer.on_fulfilled RequestCoalescer.on_fulfilled].
    cbn [CachedRequestCoalescer.options CachedRequestCoalescer.with_pending]. by rewrite Httl.
  - unfold plain. cbn [RequestCoalescer.rt RequestCoalescer.pendingRequests]. by destruct (deliver c (CachedRequestCoalescer.rt s)).
Qed.

Lemma plain_run `{Countable K} `{!CachedRequestCoalescer.JSKey K} {V E : Type} (s : CachedRequestCoalescer.state K V E) evs :
  CachedRequestCoalescer.truthy (CachedRequestCoalescer.ttl (CachedRequestCoalescer.options s)) = false → CachedRequestCoalescer.cache s = ∅ →
  plain <$> CachedRequestCoalescer.run s evs = RequestCoalescer.run (plain s) (omap plain_event evs).
Proof.
  revert s. induction evs as [|ev evs IH]; intros s Httl Hcache; [done|].
  pose proof (plain_step s ev Httl Hcache) as Hstep.
  cbn [CachedRequestCoalescer.run omap list_omap].
  destruct (CachedRequestCoalescer.step s ev) as [s'|] eqn:Hs'; cbn [mbind option_bind].
  - rewrite IH.
    + cbn [fmap option_fmap option_map] in Hstep.
      destruct (plain_event ev) as [ev'|];
        [|by assert (plain s' = plain s) as -> by congruence].
      rewrite rc_run_cons, <-Hstep. done.
    + by rewrite (step_options _ _ _ Hs').
    + by eapply step_uncached.
  - cbn [fmap option_fmap option_map] in *.
    destruct (plain_event ev) as [ev'|]; [|done].
    by rewrite rc_run_cons, <-Hstep.
Qed.

End UncachedFacts.

(** * The specification, claim by claim *)

Module RC := RequestCoalescer.
Module CRC := CachedRequestCoalescer.
Module CF := coalesceFunction.
Module LG := Logger.
Import RequestCoalescerFacts CachedRequestCoalescerFacts UncachedFacts.

(** ** Concrete thunks, traces and states for the scenarios *)

Definition fetch : thunk string := Thunk 0 None.
Definition failingOp : thunk string := Thunk 1 None.
Definition succeedingOp : thunk string := Thunk 2 None.
Definition op1 : thunk string := Thunk 1 None.
Definition op2 : thunk string := Thunk 2 None.
Definition op3 : thunk string := Thunk 3 None.

(** The plain coalescer after the events [evs]. *)
Definition plain_after_events (evs : list (RC.event string string string)) :
    RC.state string string string :=
  default RC.init (RC.run RC.init evs).

(** Concrete states for the scenarios: the coalescer created at time [0]
    with [opts], after the events [evs]. *)
Definition after_events (opts : CRC.CachedCoalescerOptions)
    (evs : list (CRC.event string string string)) : CRC.state string string string :=
  default (CRC.init opts 0) (CRC.run (CRC.init opts 0) evs).

(** The same for a coalescer whose keys may be [NaN] or [undefined]. *)
Definition after_key_events (opts : CRC.CachedCoalescerOptions)
    (evs : list (CRC.event CRC.jskey string string)) :
    CRC.state CRC.jskey string string :=
  default (CRC.init opts 0) (CRC.run (CRC.init opts 0) evs).

Definition scenario_B_events : list (CRC.event string string string) :=
  [CRC.Execute "k" fetch; CRC.Settle 0 (Fulfilled "v"); CRC.React 0; CRC.Deliver 0].

Definition scenario_C_events : list (CRC.event string string string) :=
  [CRC.Execute "k1" fetch; CRC.Settle 0 (Fulfilled "v1"); CRC.React 0;
   CRC.Execute "k2" fetch; CRC.Settle 1 (Fulfilled "v2"); CRC.React 1;
   CRC.Execute "k1" fetch;
   CRC.Execute "k3" fetch; CRC.Settle 2 (Fulfilled "v3"); CRC.React 2].

Definition refresh_events : list (CRC.event string string string) :=
  [CRC.Execute "k1" fetch; CRC.Settle 0 (Fulfilled "v1"); CRC.React 0;
   CRC.Execute "k2" fetch; CRC.Settle 1 (Fulfilled "v2"); CRC.React 1;
   CRC.Advance 1000;
   CRC.Execute "k2" fetch; CRC.Settle 2 (Fulfilled "w2")].

(** A thunk that throws before it returns a promise. *)
Definition throwingOp : thunk string := Thunk 4 (Some "thrown").

(** A function of one argument list, told apart by its first argument. *)
Definition fetchUser (args : list JSON.value) : thunk string :=
  match args with
  | JSON.Null :: _ => Thunk 1 None
  | JSON.Undefined :: _ => Thunk 2 None
  | _ => Thunk 0 None
  end.

(** The private coalescer of [coalesceFunction(fetchUser)] after the events
    [evs]. *)
Definition wrapper_after_events (evs : list (CF.event (list JSON.value) string string)) :
    RC.state string string string :=
  default RC.init (CF.run fetchUser createKey RC.init evs).

(** Three surroundings of the logger; the clock counts its readings. *)
Definition production : LG.Env := LG.MkEnv false "info" true (λ n, pretty n).
Definition development : LG.Env := LG.MkEnv true "error" true (λ n, pretty n).
Definition server : LG.Env := LG.MkEnv false "debug" false (λ n, pretty n).

Definition networkError : LG.Error :=
  LG.MkError "Network Error" None JSON.Undefined JSON.Undefined JSON.Undefined.

(** C1 (amended).  When a pending operation exists for [k], [execute k op]
    hands the caller that same pending promise and never invokes [op]: the
    call only adds a caller that adopts the registered promise
    ([RequestCoalescer] in every state, [CachedRequestCoalescer] in every
    reachable state).  Consequently [S (length ops)] calls for [k] issued in
    a row, before the first operation settles, invoke only the first thunk,
    once, and every one of the callers receives the outcome of that single
    operation.  The same holds when other events come between the calls,
    as long as they leave the registration of [k] alone ([rc_undisturbed],
    [undisturbed]: no [clear k], [clearAll], [invalidate k] or [clear], and
    no reaction job of a chain of [k]): [k] stays registered with the same
    chain [p], the only thunks invoked are thunks of calls for other keys,
    and each call for [k] adopts [p].  In every reachable state two callers
    that hold the outcome of the same chain hold the same outcome, and a
    caller that adopted a chain receives its outcome once the chain is
    done. *)
Theorem coalescing_shares_the_pending_operation `{Countable K} `{!CRC.JSKey K} {V E : Type} :
  (∀ (s : RC.state K V E) k op p,
     RC.pendingRequests s !! k = Some p →
     let s' := RC.execute k op s in
     calls (RC.rt s') = calls (RC.rt s) ++ [Call k (Adopt p) None] ∧
     invoked (RC.rt s') = invoked (RC.rt s) ∧
     chains (RC.rt s') = chains (RC.rt s) ∧
     RC.pendingRequests s' = RC.pendingRequests s) ∧
  (∀ (s : CRC.state K V E) k op p,
     CRC.reachable s → CRC.pendingRequests s !! k = Some p →
     let s' := CRC.execute k op s in
     calls (CRC.rt s') = calls (CRC.rt s) ++ [Call k (Adopt p) None] ∧
     invoked (CRC.rt s') = invoked (CRC.rt s) ∧
     chains (CRC.rt s') = chains (CRC.rt s) ∧
     CRC.pendingRequests s' = CRC.pendingRequests s ∧
     CRC.cache s' = CRC.cache s) ∧
  (∀ (s : RC.state K V E) k op ops o,
     RC.pendingRequests s !! k = None → thunk_throws op = None →
     let p := length (chains (RC.rt s)) in
     let c0 := length (calls (RC.rt s)) in
     ∃ s1 s2,
       RC.run s (RC.Execute k <$> op :: ops) = Some s1 ∧
       invoked (RC.rt s1) = invoked (RC.rt s) ++ [op] ∧
       (∀ i, i ≤ length ops →
          calls (RC.rt s1) !! (c0 + i) = Some (Call k (Adopt p) None)) ∧
       RC.run s1 (RC.Settle p o :: RC.React p ::
                    (RC.Deliver <$> seq c0 (S (length ops)))) = Some s2 ∧
       invoked (RC.rt s2) = invoked (RC.rt s) ++ [op] ∧
       (∀ i, i ≤ length ops → received (c0 + i) (RC.rt s2) = Some o)) ∧
  (∀ (s : CRC.state K V E) k op ops o,
     CRC.isCached k s = false →
     CRC.pendingRequests s !! k = None → thunk_throws op = None →
     let p := length (chains (CRC.rt s)) in
     let c0 := length (calls (CRC.rt s)) in
     ∃ s1 s2,
       CRC.run s (CRC.Execute k <$> op :: ops) = Some s1 ∧
       invoked (CRC.rt s1) = invoked (CRC.rt s) ++ [op] ∧
       (∀ i, i ≤ length ops →
          calls (CRC.rt s1) !! (c0 + i) = Some (Call k (Adopt p) None)) ∧
       CRC.run s1 (CRC.Settle p o :: CRC.React p ::
                     (CRC.Deliver <$> seq c0 (S (length ops)))) = Some s2 ∧
       invoked (CRC.rt s2) = invoked (CRC.rt s) ++ [op] ∧
       (∀ i, i ≤ length ops → received (c0 + i) (CRC.rt s2) = Some o)) ∧
  (∀ (s s' : RC.state K V E) k p evs,
     RC.pendingRequests s !! k = Some p →
     rc_undisturbed k s evs = true → RC.run s evs = Some s' →
     RC.pendingRequests s' !! k = Some p ∧
     (∃ ext, invoked (RC.rt s') = invoked (RC.rt s) ++ ext ∧
        ext `sublist_of` (evs ≫= rc_other_thunk k)) ∧
     (∃ new,
        call_head <$> calls (RC.rt s') = (call_head <$> calls (RC.rt s)) ++ new ∧
        new.*1 = evs ≫= rc_called_key ∧
        ∀ src, (k, src) ∈ new → src = Adopt p)) ∧
  (∀ (s s' : CRC.state K V E) k p evs,
     CRC.reachable s → CRC.pendingRequests s !! k = Some p →
     undisturbed k s evs = true → CRC.run s evs = Some s' →
     CRC.pendingRequests s' !! k = Some p ∧
     (∃ ext, invoked (CRC.rt s') = invoked (CRC.rt s) ++ ext ∧
        ext `sublist_of` (evs ≫= other_thunk k)) ∧
     (∃ new,
        call_head <$> calls (CRC.rt s') = (call_head <$> calls (CRC.rt s)) ++ new ∧
        new.*1 = evs ≫= called_key ∧
        ∀ src, (k, src) ∈ new → src = Adopt p)) ∧
  (∀ (s : RC.state K V E) c1 c2 k1 k2 p o1 o2,
     RC.reachable s →
     calls (RC.rt s) !! c1 = Some (Call k1 (Adopt p) (Some o1)) →
     calls (RC.rt s) !! c2 = Some (Call k2 (Adopt p) (Some o2)) →
     o1 = o2) ∧
  (∀ (s : CRC.state K V E) c1 c2 k1 k2 p o1 o2,
     CRC.reachable s →
     calls (CRC.rt s) !! c1 = Some (Call k1 (Adopt p) (Some o1)) →
     calls (CRC.rt s) !! c2 = Some (Call k2 (Adopt p) (Some o2)) →
     o1 = o2) ∧
  (∀ (s : RC.state K V E) c k p o,
     chains (RC.rt s) !! p = Some (Chain k (Done o)) →
     calls (RC.rt s) !! c = Some (Call k (Adopt p) None) →
     ∃ s', RC.step s (RC.Deliver c) = Some s' ∧ received c (RC.rt s') = Some o) ∧
  (∀ (s : CRC.state K V E) c k p o,
     chains (CRC.rt s) !! p = Some (Chain k (Done o)) →
     calls (CRC.rt s) !! c = Some (Call k (Adopt p) None) →
     ∃ s', CRC.step s (CRC.Deliver c) = Some s' ∧ received c (CRC.rt s') = Some o).
Proof.
  split_and!.
  - intros s k op p Hp. by rewrite (rc_execute_attach _ _ _ p).
  - intros s k op p Hs Hp.
    rewrite (execute_attach _ _ _ p); [done| |done].
    apply reachable_fresh; [done|by exists p].
  - intros s k op ops o Hk Hop.
    destruct (rc_concurrent_calls s k op ops o Hk Hop)
      as (s1 & s2 & ? & ? & ? & ? & ? & ? & ? & ? & _).
    by exists s1, s2.
  - intros s k op ops o Hc Hk Hop.
    destruct (concurrent_calls s k op ops o Hc Hk Hop)
      as (s1 & s2 & ? & ? & ? & ? & ? & ? & ? & ? & _).
    by exists s1, s2.
  - intros s s' k p evs Hk Hevs Hrun. by apply (rc_run_registered k p s evs s').
  - intros s s' k p evs Hs Hk Hevs Hrun.
    apply (run_registered k p s evs s'); [by apply reachable_fresh|done..].
  - intros s c1 c2 k1 k2 p o1 o2 [Hh _]%rc_reachable_coherent Hc1 Hc2.
    by destruct (host_ok_shared _ _ _ _ _ _ _ _ Hh Hc1 Hc2).
  - intros s c1 c2 k1 k2 p o1 o2 [Hh _]%reachable_coherent Hc1 Hc2.
    by destruct (host_ok_shared _ _ _ _ _ _ _ _ Hh Hc1 Hc2).
  - intros s c k p o. apply rc_deliver_adopted.
  - intros s c k p o. apply deliver_adopted.
Qed.

(** When the entry of ["k"] is removed between two concurrent calls, both
    thunks are invoked.  First with [clear] between the calls; then with the
    settlement of an operation that was cleared earlier: the call with
    [op3] is made while the operation started by the call with [op2] is
    still running, yet [op3] is invoked and the two callers receive
    different values. *)
Lemma removed_entry_splits_concurrent_calls :
  (∃ s : RC.state string string string,
     RC.run RC.init [RC.Execute "k" op1; RC.Clear "k"; RC.Execute "k" op2] = Some s ∧
     chain_state_of 0 (RC.rt s) = Some Running ∧
     invoked (RC.rt s) = [op1; op2]) ∧
  (∃ s1 s2 s3 : RC.state string string string,
     RC.run RC.init [RC.Execute "k" op1; RC.Clear "k"; RC.Execute "k" op2;
                     RC.Settle 0 (Fulfilled "v1"); RC.React 0] = Some s1 ∧
     chain_state_of 1 (RC.rt s1) = Some Running ∧
     RC.isPending "k" s1 = false ∧
     RC.run s1 [RC.Execute "k" op3] = Some s2 ∧
     chain_state_of 1 (RC.rt s2) = Some Running ∧
     invoked (RC.rt s2) = [op1; op2; op3] ∧
     RC.run s2 [RC.Settle 1 (Fulfilled "v2"); RC.React 1;
                RC.Settle 2 (Fulfilled "v3"); RC.React 2;
                RC.Deliver 1; RC.Deliver 2] = Some s3 ∧
     received 1 (RC.rt s3) = Some (Fulfilled "v2") ∧
     received 2 (RC.rt s3) = Some (Fulfilled "v3")).
Proof.
  split.
  - exists (plain_after_events [RC.Execute "k" op1; RC.Clear "k"; RC.Execute "k" op2]).
    split_and!; vm_compute; reflexivity.
  - exists (plain_after_events
      [RC.Execute "k" op1; RC.Clear "k"; RC.Execute "k" op2;
       RC.Settle 0 (Fulfilled "v1"); RC.React 0]),
      (plain_after_events
      [RC.Execute "k" op1; RC.Clear "k"; RC.Execute "k" op2;
       RC.Settle 0 (Fulfilled "v1"); RC.React 0; RC.Execute "k" op3]),
      (plain_after_events
      [RC.Execute "k" op1; RC.Clear "k"; RC.Execute "k" op2;
       RC.Settle 0 (Fulfilled "v1"); RC.React 0; RC.Execute "k" op3;
       RC.Settle 1 (Fulfilled "v2"); RC.React 1;
       RC.Settle 2 (Fulfilled "v3"); RC.React 2;
       RC.Deliver 1; RC.Deliver 2]).
    split_and!; vm_compute; reflexivity.
Qed.

(** Scenario A of the specification, and its cached counterpart: three
    concurrent calls for ["u1"] on a new coalescer; and three calls for
    ["u1"] with a complete operation for ["u2"] between them. *)

Lemma coalescing_scenario_A :
  (∃ s1 s2 : RC.state string string string,
     RC.run RC.init (RC.Execute "u1" <$> [fetch; fetch; fetch]) = Some s1 ∧
     invoked (RC.rt s1) = [fetch] ∧
     RC.run s1 (RC.Settle 0 (Fulfilled "id u1") :: RC.React 0 ::
                  (RC.Deliver <$> [0; 1; 2])) = Some s2 ∧
     invoked (RC.rt s2) = [fetch] ∧
     (∀ i, i ≤ 2 → received i (RC.rt s2) = Some (Fulfilled "id u1"))) ∧
  (let s : CRC.state string string string :=
     CRC.execute "u1" fetch (CRC.init (CRC.Options (Some 1000%Z) None) 0) in
   invoked (CRC.rt (CRC.execute "u1" fetch s)) = invoked (CRC.rt s) ∧
   calls (CRC.rt (CRC.execute "u1" fetch s)) =
     calls (CRC.rt s) ++ [Call "u1" (Adopt 0) None]) ∧
  (let s : RC.state string string string := RC.execute "u1" op1 RC.init in
   let evs := [RC.Execute "u2" op2; RC.Execute "u1" op3; RC.Settle 1 (Fulfilled "v2");
               RC.React 1; RC.Deliver 1; RC.Execute "u1" op3] in
   let s' := plain_after_events (RC.Execute "u1" op1 :: evs) in
   RC.pendingRequests s' !! "u1" = Some 0 ∧
   ∃ ext, invoked (RC.rt s') = [op1] ++ ext ∧ ext `sublist_of` [op2]).
Proof.
  destruct (coalescing_shares_the_pending_operation (K:=string) (V:=string) (E:=string))
    as (_ & Hattach & Hmany & _ & Hgen & _).
  split_and!.
  - destruct (Hmany RC.init "u1" fetch [fetch; fetch] (Fulfilled "id u1"))
      as (s1 & s2 & Hrun1 & Hinv1 & _ & Hrun2 & Hinv2 & Hrecv);
      [(vm_compute; reflexivity)|(vm_compute; reflexivity)|].
    exists s1, s2. split_and!; assumption.
  - intros s.
    destruct (Hattach s "u1" fetch 0) as (Hcalls & Hinv & _).
    + exists (CRC.Options (Some 1000%Z) None), 0%Z, [CRC.Execute "u1" fetch].
      (vm_compute; reflexivity).
    + (vm_compute; reflexivity).
    + split; assumption.
  - intros s evs s'.
    destruct (Hgen s s' "u1" 0 evs) as (Hk & Hext & _);
      [(vm_compute; reflexivity)..|].
    split; [exact Hk|exact Hext].
Defined.

(** C2 (amended).  The continuation installed when [execute] starts an
    operation removes the pending entry of its key when the operation
    settles, whether it succeeded or failed; no caller holds the outcome
    before that step, and in every reachable state a caller that holds the
    outcome of a chain finds that chain no longer registered.  After the
    continuation has run the key has no pending entry until [execute] is
    called for it again ([rc_quiet], [quiet]: whatever else happens in
    between).  A call for the key made then never attaches: on
    [RequestCoalescer] it invokes its thunk; on [CachedRequestCoalescer] it
    invokes its thunk when the key is not validly cached at that moment,
    and is given the cached result, with nothing invoked, when it is.
    When only the delivery of the outcome and [ms] milliseconds lie between
    the settlement and the second call, the key is validly cached exactly
    when the first result is [still_cached]: it succeeded, a ttl other
    than [0] is configured and [ms] is below it; then only the first thunk
    was invoked, otherwise both. *)
Theorem settlement_clears_the_pending_entry `{Countable K} `{!CRC.JSKey K} {V E : Type} :
  (∀ (s : RC.state K V E) p k o,
     chains (RC.rt s) !! p = Some (Chain k (Settling o)) →
     ∃ s', RC.step s (RC.React p) = Some s' ∧
       RC.pendingRequests s' = delete k (RC.pendingRequests s) ∧
       chains (RC.rt s') !! p = Some (Chain k (Done o)) ∧
       calls (RC.rt s') = calls (RC.rt s)) ∧
  (∀ (s : RC.state K V E) c k p o,
     RC.reachable s → calls (RC.rt s) !! c = Some (Call k (Adopt p) (Some o)) →
     chains (RC.rt s) !! p = Some (Chain k (Done o)) ∧
     RC.pendingRequests s !! k ≠ Some p) ∧
  (∀ (s : CRC.state K V E) p k o,
     chains (CRC.rt s) !! p = Some (Chain k (Settling o)) →
     ∃ s', CRC.step s (CRC.React p) = Some s' ∧
       CRC.pendingRequests s' = delete k (CRC.pendingRequests s) ∧
       chains (CRC.rt s') !! p = Some (Chain k (Done o)) ∧
       calls (CRC.rt s') = calls (CRC.rt s)) ∧
  (∀ (s : CRC.state K V E) c k p o,
     CRC.reachable s → calls (CRC.rt s) !! c = Some (Call k (Adopt p) (Some o)) →
     chains (CRC.rt s) !! p = Some (Chain k (Done o)) ∧
     CRC.pendingRequests s !! k ≠ Some p) ∧
  (∀ (s : RC.state K V E) k op o,
     RC.pendingRequests s !! k = None → thunk_throws op = None →
     let p := length (chains (RC.rt s)) in
     let c0 := length (calls (RC.rt s)) in
     ∃ s1,
       RC.run s [RC.Execute k op; RC.Settle p o; RC.React p; RC.Deliver c0] = Some s1 ∧
       received c0 (RC.rt s1) = Some o ∧
       RC.pendingRequests s1 !! k = None ∧
       invoked (RC.rt (RC.execute k op s1)) = invoked (RC.rt s) ++ [op; op]) ∧
  (∀ (s : CRC.state K V E) k op o ms,
     CRC.isCached k s = false →
     CRC.pendingRequests s !! k = None → thunk_throws op = None →
     let p := length (chains (CRC.rt s)) in
     let c0 := length (calls (CRC.rt s)) in
     ∃ s1,
       CRC.run s [CRC.Execute k op; CRC.Settle p o; CRC.React p; CRC.Deliver c0;
                  CRC.Advance ms] = Some s1 ∧
       received c0 (CRC.rt s1) = Some o ∧
       CRC.pendingRequests s1 !! k = None ∧
       (¬ still_cached (CRC.options s) o (Z.of_N ms) →
          invoked (CRC.rt (CRC.execute k op s1)) = invoked (CRC.rt s) ++ [op; op]) ∧
       (still_cached (CRC.options s) o (Z.of_N ms) →
          ∃ v, o = Fulfilled v ∧
            invoked (CRC.rt (CRC.execute k op s1)) = invoked (CRC.rt s) ++ [op] ∧
            received (S c0) (CRC.rt (CRC.execute k op s1)) = Some (Fulfilled v))) ∧
  (∀ (s s' : RC.state K V E) p k o evs,
     chains (RC.rt s) !! p = Some (Chain k (Settling o)) →
     rc_quiet k evs = true → RC.run s (RC.React p :: evs) = Some s' →
     RC.pendingRequests s' !! k = None ∧
     ∀ op,
       invoked (RC.rt (RC.execute k op s')) = invoked (RC.rt s') ++ [op] ∧
       (thunk_throws op = None →
          chains (RC.rt (RC.execute k op s')) =
            chains (RC.rt s') ++ [Chain k Running] ∧
          RC.pendingRequests (RC.execute k op s') !! k =
            Some (length (chains (RC.rt s'))) ∧
          last (calls (RC.rt (RC.execute k op s'))) =
            Some (Call k (Adopt (length (chains (RC.rt s')))) None))) ∧
  (∀ (s s' : CRC.state K V E) p k o evs,
     chains (CRC.rt s) !! p = Some (Chain k (Settling o)) →
     quiet k evs = true → CRC.run s (CRC.React p :: evs) = Some s' →
     CRC.pendingRequests s' !! k = None ∧
     (CRC.isCached k s' = false →
        ∀ op,
          invoked (CRC.rt (CRC.execute k op s')) = invoked (CRC.rt s') ++ [op] ∧
          (thunk_throws op = None →
             chains (CRC.rt (CRC.execute k op s')) =
               chains (CRC.rt s') ++ [Chain k Running] ∧
             CRC.pendingRequests (CRC.execute k op s') !! k =
               Some (length (chains (CRC.rt s'))) ∧
             last (calls (CRC.rt (CRC.execute k op s'))) =
               Some (Call k (Adopt (length (chains (CRC.rt s')))) None))) ∧
     (∀ entry op,
        CRC.cache s' !! k = Some entry → CRC.isCacheValid entry s' = true →
        invoked (CRC.rt (CRC.execute k op s')) = invoked (CRC.rt s') ∧
        chains (CRC.rt (CRC.execute k op s')) = chains (CRC.rt s') ∧
        CRC.pendingRequests (CRC.execute k op s') = CRC.pendingRequests s' ∧
        last (calls (CRC.rt (CRC.execute k op s'))) =
          Some (Call k Direct (Some (Fulfilled (CRC.result entry)))) ∧
        received (length (calls (CRC.rt s'))) (CRC.rt (CRC.execute k op s')) =
          Some (Fulfilled (CRC.result entry)))).
Proof.
  split_and!.
  - intros s p k o Hp. eexists. split; [by apply rc_react_settling|]. simpl.
    split_and!; [done| |done]. by rewrite list_lookup_alter_eq, Hp.
  - intros s c k p o [Hh Hp]%rc_reachable_coherent Hc.
    destruct (delivered_not_pending _ _ _ _ _ _ Hh Hp Hc) as [Hdone Hnone]. auto.
  - intros s p k o Hp. eexists. split; [by apply react_settling|]. simpl.
    split_and!; [apply after_handler_frame| |done].
    by rewrite list_lookup_alter_eq, Hp.
  - intros s c k p o [Hh Hp]%reachable_coherent Hc.
    destruct (delivered_not_pending _ _ _ _ _ _ Hh Hp Hc) as [Hdone Hnone]. auto.
  - intros s k op o Hk Hop.
    destruct (rc_sequential_calls s k op op o Hk Hop) as (s1 & ? & ? & ? & ? & ?).
    by exists s1.
  - intros s k op o ms Hc Hk Hop.
    destruct (sequential_calls s k op op o ms Hc Hk Hop) as (s1 & ? & ? & ? & ? & ? & ?).
    by exists s1.
  - intros s s' p k o evs Hp Hevs Hrun.
    pose proof (rc_settled_stays_unregistered _ _ _ _ _ _ Hp Hevs Hrun) as Hnone.
    split; [done|]. intros op. by apply rc_execute_fresh_start.
  - intros s s' p k o evs Hp Hevs Hrun.
    pose proof (settled_stays_unregistered _ _ _ _ _ _ Hp Hevs Hrun) as Hnone.
    split_and!; [done| |].
    + intros Hc op. by apply execute_fresh_start.
    + intros entry op Hentry Hvalid. by apply execute_answered.
Qed.

(** Scenario B of the specification up to its second call: with
    [ttl = 1000], a second call made right after the first has fully
    settled is served from the cache, so [fetch] is invoked once, not
    twice. *)
Lemma cached_sequential_calls_invoke_once :
  let s0 : CRC.state string string string :=
    CRC.init (CRC.Options (Some 1000%Z) None) 0 in
  ∃ s1 s2,
    CRC.run s0 [CRC.Execute "k" fetch; CRC.Settle 0 (Fulfilled "v"); CRC.React 0;
                CRC.Deliver 0] = Some s1 ∧
    received 0 (CRC.rt s1) = Some (Fulfilled "v") ∧
    CRC.isPending "k" s1 = false ∧
    CRC.run s1 [CRC.Execute "k" fetch] = Some s2 ∧
    received 1 (CRC.rt s2) = Some (Fulfilled "v") ∧
    invoked (CRC.rt s2) = [fetch] ∧
    invoked (CRC.rt s2) ≠ [fetch; fetch].
Proof.
  exists (after_events (CRC.Options (Some 1000%Z) None) scenario_B_events),
    (after_events (CRC.Options (Some 1000%Z) None)
       (scenario_B_events ++ [CRC.Execute "k" fetch])).
  split_and!; try (vm_compute; reflexivity). vm_compute. discriminate.
Qed.

(** Sequential calls that invoke the thunk twice: on the plain coalescer,
    and on a cached coalescer with [ttl = 1000] whose first call failed (the
    retry of scenario D). *)
Lemma sequential_calls_invoke_twice :
  (∃ s1 : RC.state string string string,
     RC.run RC.init [RC.Execute "k" fetch; RC.Settle 0 (Fulfilled "v"); RC.React 0;
                     RC.Deliver 0] = Some s1 ∧
     invoked (RC.rt (RC.execute "k" fetch s1)) = [fetch; fetch]) ∧
  (∃ s1 : CRC.state string string string,
     CRC.run (CRC.init (CRC.Options (Some 1000%Z) None) 0)
       [CRC.Execute "k" fetch; CRC.Settle 0 (Rejected "E"); CRC.React 0;
        CRC.Deliver 0; CRC.Advance 0] = Some s1 ∧
     invoked (CRC.rt (CRC.execute "k" fetch s1)) = [fetch; fetch]).
Proof.
  destruct (settlement_clears_the_pending_entry (K:=string) (V:=string) (E:=string))
    as (_ & _ & _ & _ & Hrc & Hcrc & _).
  split.
  - destruct (Hrc RC.init "k" fetch (Fulfilled "v")) as (s1 & Hrun & _ & _ & Hinv);
      [(vm_compute; reflexivity)|(vm_compute; reflexivity)|].
    exists s1. split; assumption.
  - destruct (Hcrc (CRC.init (CRC.Options (Some 1000%Z) None) 0) "k" fetch
                (Rejected "E") 0%N) as (s1 & Hrun & _ & _ & Hinv & _);
      [(vm_compute; reflexivity)|(vm_compute; reflexivity)|(vm_compute; reflexivity)|].
    exists s1. split; [assumption|]. apply Hinv. intros [].
Defined.

(** C3 (amended).  When the operation of a chain [p] for key [k] fails
    with [e], the continuation rethrows [e] unchanged: the chained promise
    is rejected with [e] and every caller attached to [p] receives exactly
    [e].  Neither the settlement, nor the continuation, nor the deliveries
    touch the cache or the access order, so [isCached] is unchanged for
    every key and remains false for [k] if it was false, which it is in a
    reachable state whenever [k] has a pending entry.  The pending entry of
    [k] is gone, and stays so until [execute] is called for [k] again.
    The next [execute k op2] invokes [op2] provided [k] is not validly
    cached at that moment: the failure does not poison the key.  When [k]
    is validly cached at that moment, the call is answered from the cache
    and [op2] is not invoked. *)
Theorem failure_is_propagated_and_never_cached `{Countable K} `{!CRC.JSKey K} {V E : Type}
    (s : CRC.state K V E) p k e :
  chains (CRC.rt s) !! p = Some (Chain k Running) →
  ∃ s1 s2,
    CRC.step s (CRC.Settle p (Rejected e)) = Some s1 ∧
    CRC.step s1 (CRC.React p) = Some s2 ∧
    chains (CRC.rt s2) !! p = Some (Chain k (Done (Rejected e))) ∧
    CRC.cache s1 = CRC.cache s ∧ CRC.cache s2 = CRC.cache s ∧
    CRC.accessOrder s2 = CRC.accessOrder s ∧
    (∀ k', CRC.isCached k' s2 = CRC.isCached k' s) ∧
    CRC.pendingRequests s2 !! k = None ∧
    (∀ c key, calls (CRC.rt s) !! c = Some (Call key (Adopt p) None) →
       ∃ s3, CRC.step s2 (CRC.Deliver c) = Some s3 ∧
         received c (CRC.rt s3) = Some (Rejected e) ∧
         CRC.cache s3 = CRC.cache s) ∧
    (CRC.isCached k s = false →
       ∀ op2, invoked (CRC.rt (CRC.execute k op2 s2)) = invoked (CRC.rt s2) ++ [op2]) ∧
    (CRC.reachable s → is_Some (CRC.pendingRequests s !! k) →
       CRC.isCached k s = false) ∧
    (∀ evs s3,
       quiet k evs = true → CRC.run s2 evs = Some s3 →
       CRC.pendingRequests s3 !! k = None ∧
       (CRC.isCached k s3 = false →
          ∀ op2,
            invoked (CRC.rt (CRC.execute k op2 s3)) = invoked (CRC.rt s3) ++ [op2]) ∧
       (∀ entry op2,
          CRC.cache s3 !! k = Some entry → CRC.isCacheValid entry s3 = true →
          invoked (CRC.rt (CRC.execute k op2 s3)) = invoked (CRC.rt s3) ∧
          received (length (calls (CRC.rt s3))) (CRC.rt (CRC.execute k op2 s3)) =
            Some (Fulfilled (CRC.result entry)))).
Proof.
  intros Hp.
  set (s1 := CRC.with_host (set_chain p (Settling (Rejected e)) (CRC.rt s)) s).
  set (s2 := CRC.with_host (set_chain p (Done (Rejected e)) (CRC.rt s1))
               (CRC.with_pending (delete k (CRC.pendingRequests s1)) s1)).
  assert (chains (CRC.rt s1) !! p = Some (Chain k (Settling (Rejected e)))) as Hp1.
  { simpl. by rewrite list_lookup_alter_eq, Hp. }
  assert (chains (CRC.rt s2) !! p = Some (Chain k (Done (Rejected e)))) as Hp2.
  { unfold s2. cbn [CRC.rt CRC.with_host]. by rewrite set_chain_lookup, decide_True, Hp1. }
  exists s1, s2. split_and!; try done.
  - cbn [CRC.step]. by erewrite settle_running.
  - cbn [CRC.step]. by rewrite (react_settling p s1 k (Rejected e) Hp1).
  - simpl. apply lookup_delete_eq.
  - intros c key Hc. eexists. split.
    + cbn [CRC.step]. erewrite deliver_done; [done| |done..]. done.
    + split; [|done]. unfold received. simpl.
      by rewrite list_lookup_insert_eq by (by eapply lookup_lt_Some).
  - intros Hc op2. apply execute_invokes; [done|]. simpl. apply lookup_delete_eq.
  - intros Hs Hk. by apply reachable_fresh.
  - intros evs s3 Hevs Hrun.
    assert (CRC.pendingRequests s3 !! k = None) as Hnone.
    { eapply run_pending_none; [|by apply quiet_no_call|done].
      simpl. apply lookup_delete_eq. }
    split_and!; [done| |].
    + intros Hc op2. by apply execute_invokes.
    + intros entry op2 Hentry Hvalid.
      by destruct (execute_answered s3 k op2 entry Hentry Hvalid) as (? & _ & _ & _ & ?).
Qed.

(** A failure that arrives after a newer operation for the same key has
    succeeded finds the key validly cached: [invalidate] unregisters the
    first operation, the second one succeeds and is cached, then the first
    one fails.  The next call is answered from the cache and its thunk is
    not invoked. *)
Lemma failure_after_newer_success_is_not_retried :
  ∃ s1 s2 : CRC.state string string string,
    CRC.run (CRC.init (CRC.Options (Some 1000%Z) None) 0)
      [CRC.Execute "k" op1; CRC.Invalidate "k"; CRC.Execute "k" op2;
       CRC.Settle 1 (Fulfilled "v2"); CRC.React 1] = Some s1 ∧
    chain_state_of 0 (CRC.rt s1) = Some Running ∧
    CRC.run s1 [CRC.Settle 0 (Rejected "E"); CRC.React 0] = Some s2 ∧
    chain_state_of 0 (CRC.rt s2) = Some (Done (Rejected "E")) ∧
    CRC.isPending "k" s2 = false ∧
    CRC.isCached "k" s2 = true ∧
    invoked (CRC.rt s2) = [op1; op2] ∧
    invoked (CRC.rt (CRC.execute "k" op3 s2)) = [op1; op2] ∧
    received 2 (CRC.rt (CRC.execute "k" op3 s2)) = Some (Fulfilled "v2").
Proof.
  exists (after_events (CRC.Options (Some 1000%Z) None)
    [CRC.Execute "k" op1; CRC.Invalidate "k"; CRC.Execute "k" op2;
     CRC.Settle 1 (Fulfilled "v2"); CRC.React 1]),
    (after_events (CRC.Options (Some 1000%Z) None)
    [CRC.Execute "k" op1; CRC.Invalidate "k"; CRC.Execute "k" op2;
     CRC.Settle 1 (Fulfilled "v2"); CRC.React 1;
     CRC.Settle 0 (Rejected "E"); CRC.React 0]).
  split_and!; vm_compute; reflexivity.
Qed.

(** Scenario D of the specification: on a coalescer with [ttl = 1000] the
    operation for ["k"] rejects with ["E"]. *)

Lemma failure_scenario_D :
  let s : CRC.state string string string :=
    CRC.execute "k" failingOp (CRC.init (CRC.Options (Some 1000%Z) None) 0) in
  ∃ s1 s2 s3,
    CRC.step s (CRC.Settle 0 (Rejected "E")) = Some s1 ∧
    CRC.step s1 (CRC.React 0) = Some s2 ∧
    CRC.step s2 (CRC.Deliver 0) = Some s3 ∧
    received 0 (CRC.rt s3) = Some (Rejected "E") ∧
    CRC.isCached "k" s2 = false ∧
    invoked (CRC.rt (CRC.execute "k" succeedingOp s2)) = [failingOp; succeedingOp].
Proof.
  intros s.
  destruct (failure_is_propagated_and_never_cached s 0 "k" "E")
    as (s1 & s2 & Hs1 & Hs2 & _ & _ & _ & _ & Hcached & _ & Hdel & Hnext & _ & _);
    [(vm_compute; reflexivity)|].
  destruct (Hdel 0 "k") as (s3 & Hs3 & Hrecv & _); [(vm_compute; reflexivity)|].
  exists s1, s2, s3. split_and!; try assumption.
  - rewrite Hcached. (vm_compute; reflexivity).
  - rewrite Hnext by (vm_compute; reflexivity).
    injection Hs1 as <-. injection Hs2 as <-. (vm_compute; reflexivity).
Defined.







(** C6.  With [ttl = T] configured: while [now - timestamp < T], [execute]
    gives the caller the stored result and invokes nothing.  Starting from
    a reachable state in which the entry of [k] is still valid, after any
    events that contain no call for [k], once the entry of [k] present then
    has [now - timestamp >= T], the next call for [k] invokes its thunk
    (and, when the thunk returns a promise, registers it as chain
    [length chains], which keeps the key [k] whatever happens next).  When a
    chain of key [k] settles with a result, its continuation writes the
    entry of [k] anew with that result and the current time. *)
Theorem ttl_expiry_and_refresh `{Countable K} `{!CRC.JSKey K} {V E : Type} (T : Z) :
  T ≠ 0%Z →
  (∀ (s : CRC.state K V E) k op entry,
     CRC.ttl (CRC.options s) = Some T → CRC.cache s !! k = Some entry →
     (CRC.now s - CRC.timestamp entry < T)%Z →
     let s' := CRC.execute k op s in
     received (length (calls (CRC.rt s))) (CRC.rt s') =
       Some (Fulfilled (CRC.result entry)) ∧
     invoked (CRC.rt s') = invoked (CRC.rt s)) ∧
  (∀ (s s' : CRC.state K V E) evs k entry entry' op,
     CRC.reachable s → CRC.ttl (CRC.options s) = Some T →
     CRC.cache s !! k = Some entry → (CRC.now s - CRC.timestamp entry < T)%Z →
     CRC.run s evs = Some s' → (∀ k' op', CRC.Execute k' op' ∈ evs → k' ≠ k) →
     CRC.cache s' !! k = Some entry' → (T ≤ CRC.now s' - CRC.timestamp entry')%Z →
     invoked (CRC.rt (CRC.execute k op s')) = invoked (CRC.rt s') ++ [op] ∧
     (thunk_throws op = None →
        CRC.pendingRequests (CRC.execute k op s') !! k = Some (length (chains (CRC.rt s'))) ∧
        ∀ evs2 s2, CRC.run (CRC.execute k op s') evs2 = Some s2 →
          ∃ st, chains (CRC.rt s2) !! length (chains (CRC.rt s')) = Some (Chain k st))) ∧
  (∀ (s : CRC.state K V E) p k v,
     CRC.ttl (CRC.options s) = Some T →
     chains (CRC.rt s) !! p = Some (Chain k (Settling (Fulfilled v))) →
     ∃ s', CRC.step s (CRC.React p) = Some s' ∧
       CRC.cache s' !! k = Some (CRC.Entry v (CRC.now s)) ∧
       CRC.now s' = CRC.now s ∧
       last (CRC.accessOrder s') = Some k).
Proof.
  intros HT. split_and!.
  - intros s k op entry Httl Hentry Hlt s'.
    assert (CRC.isCacheValid entry s = true) as Hvalid.
    { apply isCacheValid_true. eauto. }
    unfold s'. rewrite (execute_hit _ _ _ _ Hentry Hvalid). simpl.
    split; [apply received_add_call_new|done].
  - intros s s' evs k entry entry' op Hs Httl Hentry Hlt Hrun Hevs Hentry' Hge.
    assert (CRC.pendingRequests s !! k = None) as Hnone.
    { destruct (CRC.pendingRequests s !! k) as [p|] eqn:Hp; [|done].
      assert (CRC.isCached k s = false) as Hc
        by (apply reachable_fresh; [done|by exists p]).
      rewrite isCached_false in Hc. specialize (Hc _ Hentry).
      apply not_true_iff_false in Hc. destruct Hc.
      apply isCacheValid_true. eauto. }
    assert (CRC.pendingRequests s' !! k = None) as Hnone'
      by (by eapply run_pending_none).
    assert (CRC.isCached k s' = false) as Hc'.
    { apply isCached_false. intros e He. simplify_eq.
      apply not_true_iff_false. rewrite isCacheValid_true.
      rewrite (run_options _ _ _ Hrun), Httl. intros (t & [= <-] & _ & ?). lia. }
    split; [by apply execute_invokes|]. intros Hop.
    rewrite execute_start by done. simpl. split; [apply lookup_insert_eq|].
    intros evs2 s2 Hrun2. eapply run_chain_key; [|done]. simpl.
    by rewrite lookup_app_r, Nat.sub_diag by lia.
  - intros s p k v Httl Hp. eexists. split; [by apply react_settling|].
    assert (CRC.truthy (CRC.ttl (CRC.options s)) = true) as Htr
      by (apply truthy_ttl; red; eauto).
    cbn [CRC.cache CRC.now CRC.accessOrder CRC.with_host].
    rewrite after_handler_cache_key, Htr.
    rewrite after_handler_cached by done. split_and!; [done| |].
    + by destruct (setCacheEntry_frame k v
        (CRC.with_pending (delete k (CRC.pendingRequests s)) s)) as (_ & _ & -> & _).
    + rewrite setCacheEntry_accessOrder. apply last_snoc.
Qed.

(** Scenario B of the specification: [ttl = 1000]; the entry written at
    time [0] answers a call at time [999]; at time [1000] the next call
    invokes the thunk again and its result replaces the entry. *)

Lemma ttl_scenario_B :
  let opts := CRC.Options (Some 1000%Z) None in
  let s := after_events opts scenario_B_events in
  let s999 := after_events opts (scenario_B_events ++ [CRC.Advance 999]) in
  let s1000 := after_events opts (scenario_B_events ++ [CRC.Advance 1000]) in
  (received 1 (CRC.rt (CRC.execute "k" fetch s999)) = Some (Fulfilled "v") ∧
   invoked (CRC.rt (CRC.execute "k" fetch s999)) = [fetch]) ∧
  invoked (CRC.rt (CRC.execute "k" fetch s1000)) = [fetch; fetch] ∧
  (∃ s', CRC.run (CRC.execute "k" fetch s1000)
           [CRC.Settle 1 (Fulfilled "w"); CRC.Advance 5; CRC.React 1] = Some s' ∧
         CRC.cache s' !! "k" = Some (CRC.Entry "w" 1005)).
Proof.
  intros opts s s999 s1000.
  destruct (ttl_expiry_and_refresh (K:=string) (V:=string) (E:=string) 1000)
    as (Hhit & Hexpired & Hrefresh); [discriminate|].
  destruct (Hhit s999 "k" fetch (CRC.Entry "v" 0)) as [Hrecv Hinv999];
    [(vm_compute; reflexivity)|(vm_compute; reflexivity)|(vm_compute; reflexivity)|].
  split_and!.
  - exact Hrecv.
  - rewrite Hinv999. (vm_compute; reflexivity).
  - destruct (Hexpired s s1000 [CRC.Advance 1000] "k" (CRC.Entry "v" 0)
                (CRC.Entry "v" 0) fetch) as [Hinv _].
    + exists opts, 0%Z, scenario_B_events. (vm_compute; reflexivity).
    + (vm_compute; reflexivity).
    + (vm_compute; reflexivity).
    + (vm_compute; reflexivity).
    + (vm_compute; reflexivity).
    + intros k' op' Hin. apply list_elem_of_singleton in Hin. discriminate Hin.
    + (vm_compute; reflexivity).
    + vm_compute. discriminate.
    + rewrite Hinv. (vm_compute; reflexivity).
  - set (s2 := after_events opts
        (scenario_B_events ++
           [CRC.Advance 1000; CRC.Execute "k" fetch; CRC.Settle 1 (Fulfilled "w");
            CRC.Advance 5])).
    destruct (Hrefresh s2 1 "k" "w") as (s' & Hstep & Hcache & _);
      [(vm_compute; reflexivity)|(vm_compute; reflexivity)|].
    exists s'. split; [|exact Hcache].
    rewrite <-Hstep. (vm_compute; reflexivity).
Defined.






(** Scenario C of the specification, as a trace: the uses are
    [k1, k2, k1, k3] and the access order ends as [k1, k3]. *)





(** C10 (amended).  In both classes the continuation of a chain deletes
    the pending entry of its key whatever promise that entry holds.  So
    after [clear k] (or [invalidate k]) during the first operation and a
    second call that registers a new promise, the settlement of the first
    operation removes the second operation's entry: [k] is no longer
    pending although the second operation is still running, and it stays
    so until [execute] is called for [k] again.  A further call for [k]
    then never attaches to the second operation.  On [RequestCoalescer] it
    starts a third operation.  On [CachedRequestCoalescer] it starts a
    third operation when [k] is not validly cached at that moment, and is
    answered from the cache, with nothing invoked, when it is.  When only
    [ms] milliseconds lie between the settlement of the first operation
    and the third call, [k] is validly cached exactly when the first
    result is [still_cached]: the first operation succeeded, a ttl other
    than [0] is configured and [ms] is below it. *)
Theorem stale_continuation_unregisters_newer_operation
    `{Countable K} `{!CRC.JSKey K} {V E : Type} :
  (∀ (s : RC.state K V E) p k o,
     chains (RC.rt s) !! p = Some (Chain k (Settling o)) →
     ∃ s', RC.step s (RC.React p) = Some s' ∧
       RC.pendingRequests s' = delete k (RC.pendingRequests s)) ∧
  (∀ (s : CRC.state K V E) p k o,
     chains (CRC.rt s) !! p = Some (Chain k (Settling o)) →
     ∃ s', CRC.step s (CRC.React p) = Some s' ∧
       CRC.pendingRequests s' = delete k (CRC.pendingRequests s)) ∧
  (∀ (s : RC.state K V E) k op1 op2 op3 o,
     RC.pendingRequests s !! k = None →
     thunk_throws op1 = None → thunk_throws op2 = None → thunk_throws op3 = None →
     let p1 := length (chains (RC.rt s)) in
     ∃ s1,
       RC.run s [RC.Execute k op1; RC.Clear k; RC.Execute k op2;
                 RC.Settle p1 o; RC.React p1] = Some s1 ∧
       chains (RC.rt s1) !! S p1 = Some (Chain k Running) ∧
       RC.isPending k s1 = false ∧
       invoked (RC.rt (RC.execute k op3 s1)) = invoked (RC.rt s) ++ [op1; op2; op3] ∧
       chains (RC.rt (RC.execute k op3 s1)) !! S (S p1) = Some (Chain k Running) ∧
       last (calls (RC.rt (RC.execute k op3 s1))) =
         Some (Call k (Adopt (S (S p1))) None)) ∧
  (∀ (s : CRC.state K V E) k op1 op2 op3 o ms,
     CRC.isCached k s = false → CRC.pendingRequests s !! k = None →
     thunk_throws op1 = None → thunk_throws op2 = None → thunk_throws op3 = None →
     let p1 := length (chains (CRC.rt s)) in
     ∃ s1,
       CRC.run s [CRC.Execute k op1; CRC.Invalidate k; CRC.Execute k op2;
                  CRC.Settle p1 o; CRC.React p1; CRC.Advance ms] = Some s1 ∧
       chains (CRC.rt s1) !! S p1 = Some (Chain k Running) ∧
       CRC.isPending k s1 = false ∧
       (¬ still_cached (CRC.options s) o (Z.of_N ms) →
          invoked (CRC.rt (CRC.execute k op3 s1)) =
            invoked (CRC.rt s) ++ [op1; op2; op3] ∧
          chains (CRC.rt (CRC.execute k op3 s1)) !! S (S p1) = Some (Chain k Running) ∧
          last (calls (CRC.rt (CRC.execute k op3 s1))) =
            Some (Call k (Adopt (S (S p1))) None)) ∧
       (still_cached (CRC.options s) o (Z.of_N ms) →
          ∃ v, o = Fulfilled v ∧
            invoked (CRC.rt (CRC.execute k op3 s1)) = invoked (CRC.rt s) ++ [op1; op2] ∧
            chains (CRC.rt (CRC.execute k op3 s1)) = chains (CRC.rt s1) ∧
            last (calls (CRC.rt (CRC.execute k op3 s1))) =
              Some (Call k Direct (Some (Fulfilled v))))) ∧
  (∀ (s s' : RC.state K V E) p k o evs,
     chains (RC.rt s) !! p = Some (Chain k (Settling o)) →
     rc_quiet k evs = true → RC.run s (RC.React p :: evs) = Some s' →
     RC.isPending k s' = false ∧
     ∀ op3,
       invoked (RC.rt (RC.execute k op3 s')) = invoked (RC.rt s') ++ [op3] ∧
       (thunk_throws op3 = None →
          chains (RC.rt (RC.execute k op3 s')) =
            chains (RC.rt s') ++ [Chain k Running] ∧
          RC.pendingRequests (RC.execute k op3 s') !! k =
            Some (length (chains (RC.rt s'))) ∧
          last (calls (RC.rt (RC.execute k op3 s'))) =
            Some (Call k (Adopt (length (chains (RC.rt s')))) None))) ∧
  (∀ (s s' : CRC.state K V E) p k o evs,
     chains (CRC.rt s) !! p = Some (Chain k (Settling o)) →
     quiet k evs = true → CRC.run s (CRC.React p :: evs) = Some s' →
     CRC.isPending k s' = false ∧
     (CRC.isCached k s' = false →
        ∀ op3,
          invoked (CRC.rt (CRC.execute k op3 s')) = invoked (CRC.rt s') ++ [op3] ∧
          (thunk_throws op3 = None →
             chains (CRC.rt (CRC.execute k op3 s')) =
               chains (CRC.rt s') ++ [Chain k Running] ∧
             CRC.pendingRequests (CRC.execute k op3 s') !! k =
               Some (length (chains (CRC.rt s'))) ∧
             last (calls (CRC.rt (CRC.execute k op3 s'))) =
               Some (Call k (Adopt (length (chains (CRC.rt s')))) None))) ∧
     (∀ entry op3,
        CRC.cache s' !! k = Some entry → CRC.isCacheValid entry s' = true →
        invoked (CRC.rt (CRC.execute k op3 s')) = invoked (CRC.rt s') ∧
        chains (CRC.rt (CRC.execute k op3 s')) = chains (CRC.rt s') ∧
        CRC.pendingRequests (CRC.execute k op3 s') = CRC.pendingRequests s' ∧
        last (calls (CRC.rt (CRC.execute k op3 s'))) =
          Some (Call k Direct (Some (Fulfilled (CRC.result entry)))) ∧
        received (length (calls (CRC.rt s'))) (CRC.rt (CRC.execute k op3 s')) =
          Some (Fulfilled (CRC.result entry)))).
Proof.
  split_and!.
  - intros s p k o Hp. eexists. split; [by apply rc_react_settling|done].
  - intros s p k o Hp. eexists. split; [by apply react_settling|].
    apply after_handler_frame.
  - intros s k op1 op2 op3 o Hk Hop1 Hop2 Hop3.
    destruct (rc_stale_deletion s k op1 op2 op3 o Hk Hop1 Hop2 Hop3)
      as (s1 & ? & ? & Hnone & ? & ? & ? & ? & ?).
    exists s1. split_and!; try done.
    unfold RC.isPending. rewrite Hnone. apply bool_decide_eq_false. by intros [? ?].
  - intros s k op1 op2 op3 o ms Hc Hk Hop1 Hop2 Hop3.
    destruct (stale_deletion s k op1 op2 op3 o ms Hc Hk Hop1 Hop2 Hop3)
      as (s1 & ? & ? & Hnone & ? & Hmiss & Hhit).
    exists s1. split_and!; try done.
    + unfold CRC.isPending. rewrite Hnone. apply bool_decide_eq_false. by intros [? ?].
    + intros (? & ? & ? & ?)%Hmiss. done.
    + intros (v & ? & ? & ? & ? & ?)%Hhit. by exists v.
  - intros s s' p k o evs Hp Hevs Hrun.
    pose proof (rc_settled_stays_unregistered _ _ _ _ _ _ Hp Hevs Hrun) as Hnone.
    split.
    + unfold RC.isPending. rewrite Hnone. apply bool_decide_eq_false. by intros [? ?].
    + intros op3. by apply rc_execute_fresh_start.
  - intros s s' p k o evs Hp Hevs Hrun.
    pose proof (settled_stays_unregistered _ _ _ _ _ _ Hp Hevs Hrun) as Hnone.
    split_and!.
    + unfold CRC.isPending. rewrite Hnone. apply bool_decide_eq_false. by intros [? ?].
    + intros Hc op3. by apply execute_fresh_start.
    + intros entry op3 Hentry Hvalid. by apply execute_answered.
Qed.

(** On a coalescer with [ttl = 1000] the call made after the stale
    deletion starts no third operation: it is answered with the first
    operation's result, which the stale continuation has cached. *)

Lemma cached_stale_deletion_starts_no_third_operation :
  let s0 : CRC.state string string string :=
    CRC.init (CRC.Options (Some 1000%Z) None) 0 in
  ∃ s1,
    CRC.run s0 [CRC.Execute "k" op1; CRC.Invalidate "k"; CRC.Execute "k" op2;
                CRC.Settle 0 (Fulfilled "v1"); CRC.React 0] = Some s1 ∧
    CRC.isPending "k" s1 = false ∧
    chain_state_of 1 (CRC.rt s1) = Some Running ∧
    invoked (CRC.rt (CRC.execute "k" op3 s1)) = [op1; op2] ∧
    length (chains (CRC.rt (CRC.execute "k" op3 s1))) = 2 ∧
    received 2 (CRC.rt (CRC.execute "k" op3 s1)) = Some (Fulfilled "v1").
Proof.
  exists (after_events (CRC.Options (Some 1000%Z) None)
    [CRC.Execute "k" op1; CRC.Invalidate "k"; CRC.Execute "k" op2;
     CRC.Settle 0 (Fulfilled "v1"); CRC.React 0]).
  split_and!; vm_compute; reflexivity.
Qed.

(** The same interleaving on [RequestCoalescer], and on a cached coalescer
    whose first operation fails, or succeeds with the ttl elapsed at the
    third call, or succeeds under a negative ttl: the third call starts a
    third operation while the second is still running. *)
Lemma stale_deletion_starts_third_operation :
  (∃ s1 : RC.state string string string,
     RC.run RC.init [RC.Execute "k" op1; RC.Clear "k"; RC.Execute "k" op2;
                     RC.Settle 0 (Fulfilled "v1"); RC.React 0] = Some s1 ∧
     chains (RC.rt s1) !! 1 = Some (Chain "k" Running) ∧
     RC.isPending "k" s1 = false ∧
     invoked (RC.rt (RC.execute "k" op3 s1)) = [op1; op2; op3]) ∧
  (∃ s1 : CRC.state string string string,
     CRC.run (CRC.init (CRC.Options (Some 1000%Z) None) 0)
       [CRC.Execute "k" op1; CRC.Invalidate "k"; CRC.Execute "k" op2;
        CRC.Settle 0 (Rejected "E"); CRC.React 0; CRC.Advance 0] = Some s1 ∧
     chains (CRC.rt s1) !! 1 = Some (Chain "k" Running) ∧
     CRC.isPending "k" s1 = false ∧
     invoked (CRC.rt (CRC.execute "k" op3 s1)) = [op1; op2; op3]) ∧
  (∃ s1 : CRC.state string string string,
     CRC.run (CRC.init (CRC.Options (Some 1000%Z) None) 0)
       [CRC.Execute "k" op1; CRC.Invalidate "k"; CRC.Execute "k" op2;
        CRC.Settle 0 (Fulfilled "v1"); CRC.React 0; CRC.Advance 1000] = Some s1 ∧
     chains (CRC.rt s1) !! 1 = Some (Chain "k" Running) ∧
     CRC.isPending "k" s1 = false ∧
     invoked (CRC.rt (CRC.execute "k" op3 s1)) = [op1; op2; op3]) ∧
  (∃ s1 : CRC.state string string string,
     CRC.run (CRC.init (CRC.Options (Some (-1)%Z) None) 0)
       [CRC.Execute "k" op1; CRC.Invalidate "k"; CRC.Execute "k" op2;
        CRC.Settle 0 (Fulfilled "v1"); CRC.React 0; CRC.Advance 0] = Some s1 ∧
     chains (CRC.rt s1) !! 1 = Some (Chain "k" Running) ∧
     CRC.isPending "k" s1 = false ∧
     invoked (CRC.rt (CRC.execute "k" op3 s1)) = [op1; op2; op3]).
Proof.
  destruct (stale_continuation_unregisters_newer_operation
              (K:=string) (V:=string) (E:=string)) as (_ & _ & Hrc & Hcrc & _).
  split_and!.
  - destruct (Hrc RC.init "k" op1 op2 op3 (Fulfilled "v1"))
      as (s1 & Hrun & Hch & Hpend & Hinv & _);
      [(vm_compute; reflexivity)..|].
    exists s1. split_and!; assumption.
  - destruct (Hcrc (CRC.init (CRC.Options (Some 1000%Z) None) 0) "k" op1 op2 op3
                (Rejected "E") 0%N)
      as (s1 & Hrun & Hch & Hpend & Hmiss & _);
      [(vm_compute; reflexivity)..|].
    destruct Hmiss as (Hinv & _); [intros []|].
    exists s1. split_and!; assumption.
  - destruct (Hcrc (CRC.init (CRC.Options (Some 1000%Z) None) 0) "k" op1 op2 op3
                (Fulfilled "v1") 1000%N)
      as (s1 & Hrun & Hch & Hpend & Hmiss & _);
      [(vm_compute; reflexivity)..|].
    destruct Hmiss as (Hinv & _); [intros [_ Hlt]; simpl in Hlt; lia|].
    exists s1. split_and!; assumption.
  - destruct (Hcrc (CRC.init (CRC.Options (Some (-1)%Z) None) 0) "k" op1 op2 op3
                (Fulfilled "v1") 0%N)
      as (s1 & Hrun & Hch & Hpend & Hmiss & _);
      [(vm_compute; reflexivity)..|].
    destruct Hmiss as (Hinv & _); [intros [_ Hlt]; simpl in Hlt; lia|].
    exists s1. split_and!; assumption.
Defined.

(** * Further properties of the code *)

(** ** RequestCoalescer: clear, clearAll, getPendingCount *)

(** [clear(k)] and [clearAll()] only forget the registration: the operation
    in flight is not cancelled, and a caller attached to it before the
    clearing still receives its outcome. *)
Theorem clearing_cancels_no_operation `{Countable K} {V E : Type}
    (s : RC.state K V E) p k c o :
  chains (RC.rt s) !! p = Some (Chain k Running) →
  calls (RC.rt s) !! c = Some (Call k (Adopt p) None) →
  RC.isPending k (RC.clear k s) = false ∧
  RC.getPendingCount (RC.clearAll s) = 0 ∧
  (∃ s', RC.run s [RC.Clear k; RC.Settle p o; RC.React p; RC.Deliver c] = Some s' ∧
     received c (RC.rt s') = Some o ∧ invoked (RC.rt s') = invoked (RC.rt s)) ∧
  (∃ s', RC.run s [RC.ClearAll; RC.Settle p o; RC.React p; RC.Deliver c] = Some s' ∧
     received c (RC.rt s') = Some o ∧ invoked (RC.rt s') = invoked (RC.rt s)).
Proof.
  intros Hp Hc. split_and!.
  - unfold RC.isPending, RC.clear. cbn [RC.pendingRequests].
    rewrite lookup_delete_eq. apply bool_decide_eq_false. by intros [? ?].
  - unfold RC.getPendingCount. simpl. apply map_size_empty.
  - destruct (rc_settle_react_deliver (RC.clear k s) p k c o Hp Hc)
      as (s' & Hrun & _ & Hrecv & Hinv & _).
    exists s'. rewrite rc_run_cons. cbn [RC.step mbind option_bind]. done.
  - destruct (rc_settle_react_deliver (RC.clearAll s) p k c o Hp Hc)
      as (s' & Hrun & _ & Hrecv & Hinv & _).
    exists s'. rewrite rc_run_cons. cbn [RC.step mbind option_bind]. done.
Qed.

Lemma clearing_scenario :
  let s := plain_after_events [RC.Execute "k" fetch] in
  RC.isPending "k" s = true ∧
  RC.isPending "k" (RC.clear "k" s) = false ∧
  RC.getPendingCount (RC.clearAll s) = 0 ∧
  (∃ s', RC.run s [RC.Clear "k"; RC.Settle 0 (Fulfilled "v"); RC.React 0;
                   RC.Deliver 0] = Some s' ∧
     received 0 (RC.rt s') = Some (Fulfilled "v") ∧
     invoked (RC.rt s') = invoked (RC.rt s)) ∧
  (∃ s', RC.run s [RC.ClearAll; RC.Settle 0 (Fulfilled "v"); RC.React 0;
                   RC.Deliver 0] = Some s' ∧
     received 0 (RC.rt s') = Some (Fulfilled "v") ∧
     invoked (RC.rt s') = invoked (RC.rt s)).
Proof.
  intros s. split; [vm_compute; reflexivity|].
  apply (clearing_cancels_no_operation s 0 "k" 0 (Fulfilled "v"));
    vm_compute; reflexivity.
Defined.

(** Calls for different keys do not coalesce: each invokes its own
    operation, both are registered, and each caller receives the outcome of
    its own operation, also when the second operation settles first. *)
Theorem different_keys_run_separately `{Countable K} {V E : Type}
    (s : RC.state K V E) k1 k2 op1 op2 o1 o2 :
  k1 ≠ k2 →
  RC.pendingRequests s !! k1 = None → RC.pendingRequests s !! k2 = None →
  thunk_throws op1 = None → thunk_throws op2 = None →
  let p1 := length (chains (RC.rt s)) in
  let c1 := length (calls (RC.rt s)) in
  let s2 := RC.execute k2 op2 (RC.execute k1 op1 s) in
  invoked (RC.rt s2) = invoked (RC.rt s) ++ [op1; op2] ∧
  RC.pendingRequests s2 !! k1 = Some p1 ∧
  RC.pendingRequests s2 !! k2 = Some (S p1) ∧
  RC.getPendingCount s2 = S (S (RC.getPendingCount s)) ∧
  ∃ s', RC.run s2 [RC.Settle (K:=K) (S p1) o2; RC.React (S p1); RC.Deliver (S c1);
                   RC.Settle p1 o1; RC.React p1; RC.Deliver c1] = Some s' ∧
    received c1 (RC.rt s') = Some o1 ∧
    received (S c1) (RC.rt s') = Some o2 ∧
    invoked (RC.rt s') = invoked (RC.rt s) ++ [op1; op2] ∧
    RC.pendingRequests s' = RC.pendingRequests s.
Proof.
  intros Hne Hk1 Hk2 Hop1 Hop2 p1 c1 s2.
  set (s1 := RC.execute k1 op1 s).
  assert (s1 = RC.State (<[k1 := p1]> (RC.pendingRequests s))
                 (add_call k1 (Adopt p1) None
                    (spawn k1 (log_invocation op1 (RC.rt s))))) as Hs1
    by (by apply rc_execute_start).
  assert (RC.pendingRequests s1 !! k2 = None) as Hk2'.
  { unfold s1. rewrite rc_execute_other by done. done. }
  assert (length (chains (RC.rt s1)) = S p1) as Hlen1.
  { rewrite Hs1. simpl. rewrite length_app. simpl. unfold p1. lia. }
  assert (length (calls (RC.rt s1)) = S c1) as Hlenc1.
  { rewrite Hs1. simpl. rewrite length_app. simpl. unfold c1. lia. }
  assert (s2 = RC.State (<[k2 := S p1]> (RC.pendingRequests s1))
                 (add_call k2 (Adopt (S p1)) None
                    (spawn k2 (log_invocation op2 (RC.rt s1))))) as Hs2.
  { unfold s2. fold s1. rewrite rc_execute_start by done. by rewrite Hlen1. }
  assert (chains (RC.rt s2) !! p1 = Some (Chain k1 Running)) as Hp1.
  { rewrite Hs2, Hs1. simpl. rewrite <-app_assoc. apply list_lookup_middle. done. }
  assert (chains (RC.rt s2) !! S p1 = Some (Chain k2 Running)) as Hp2.
  { rewrite Hs2. simpl. apply list_lookup_middle. done. }
  assert (calls (RC.rt s2) !! c1 = Some (Call k1 (Adopt p1) None)) as Hc1.
  { rewrite Hs2, Hs1. simpl. rewrite <-app_assoc. apply list_lookup_middle. done. }
  assert (calls (RC.rt s2) !! S c1 = Some (Call k2 (Adopt (S p1)) None)) as Hc2.
  { rewrite Hs2. simpl. apply list_lookup_middle. done. }
  assert (invoked (RC.rt s2) = invoked (RC.rt s) ++ [op1; op2]) as Hinv.
  { rewrite Hs2, Hs1. simpl. by rewrite <-app_assoc. }
  split_and!.
  - done.
  - rewrite Hs2, Hs1. simpl. rewrite lookup_insert_ne by done. apply lookup_insert_eq.
  - rewrite Hs2. simpl. apply lookup_insert_eq.
  - unfold RC.getPendingCount. rewrite Hs2. simpl.
    rewrite map_size_insert_None by done. rewrite Hs1. simpl.
    by rewrite map_size_insert_None by done.
  - destruct (rc_settle_react_deliver s2 (S p1) k2 (S c1) o2 Hp2 Hc2)
      as (s3 & Hrun3 & Hpend3 & Hrecv3 & Hinv3 & _ & Hch3 & Hlen3 & Hcalls3).
    destruct (rc_settle_react_deliver s3 p1 k1 c1 o1)
      as (s4 & Hrun4 & Hpend4 & Hrecv4 & Hinv4 & _ & _ & _ & Hcalls4).
    { rewrite Hch3 by lia. done. }
    { rewrite Hcalls3 by lia. done. }
    exists s4. split_and!.
    + pose proof (rc_run_app s2
                    [RC.Settle (S p1) o2; RC.React (S p1); RC.Deliver (S c1)]
                    [RC.Settle p1 o1; RC.React p1; RC.Deliver c1]) as Happ.
      simpl app in Happ. rewrite Happ, Hrun3. done.
    + done.
    + unfold received. rewrite Hcalls4 by lia. done.
    + by rewrite Hinv4, Hinv3.
    + rewrite Hpend4, Hpend3, Hs2. simpl. rewrite delete_insert_eq.
      rewrite Hs1. simpl. rewrite delete_insert_ne by done.
      rewrite delete_insert_eq. rewrite (delete_id _ k2) by done.
      by rewrite delete_id.
Qed.

Lemma different_keys_scenario :
  let s2 := plain_after_events [RC.Execute "a" op1; RC.Execute "b" op2] in
  invoked (RC.rt s2) = [op1; op2] ∧
  RC.getPendingCount s2 = 2 ∧
  ∃ s', RC.run s2 [RC.Settle 1 (Fulfilled "B"); RC.React 1; RC.Deliver 1;
                   RC.Settle 0 (Rejected "E"); RC.React 0; RC.Deliver 0] = Some s' ∧
    received 0 (RC.rt s') = Some (Rejected "E") ∧
    received 1 (RC.rt s') = Some (Fulfilled "B") ∧
    RC.getPendingCount s' = 0.
Proof.
  intros s2.
  destruct (different_keys_run_separately (RC.init (V:=string) (E:=string))
              "a" "b" op1 op2 (Rejected "E") (Fulfilled "B"))
    as (Hinv & _ & _ & Hcount & s' & Hrun & Hr1 & Hr2 & _ & Hpend);
    [discriminate|vm_compute; reflexivity..|].
  split; [exact Hinv|]. split; [exact Hcount|].
  exists s'. split; [exact Hrun|]. split; [exact Hr1|]. split; [exact Hr2|].
  unfold RC.getPendingCount. rewrite Hpend. vm_compute. reflexivity.
Defined.

(** [getPendingCount()] never exceeds the number of operations in flight
    (started, continuation not yet run), in both classes; so when every
    started operation has completed nothing is left registered. *)
Theorem pending_count_bounded_by_operations_in_flight `{Countable K} `{!CRC.JSKey K} {V E : Type} :
  (∀ s : RC.state K V E,
     RC.reachable s → RC.getPendingCount s ≤ in_flight (RC.rt s)) ∧
  (∀ s : CRC.state K V E,
     CRC.reachable s → CRC.pendingCount (CRC.getStats s) ≤ in_flight (CRC.rt s)).
Proof.
  split.
  - intros s [_ Hp]%rc_reachable_coherent. by apply pending_count_le.
  - intros s [_ Hp]%reachable_coherent. by apply pending_count_le.
Qed.

Lemma pending_count_scenario :
  let s := plain_after_events
    [RC.Execute "a" op1; RC.Execute "b" op2; RC.Clear "a";
     RC.Settle 1 (Fulfilled "B"); RC.React 1] in
  in_flight (RC.rt s) = 1 ∧ RC.getPendingCount s = 0 ∧
  RC.getPendingCount s ≤ in_flight (RC.rt s).
Proof.
  intros s. split; [vm_compute; reflexivity|]. split; [vm_compute; reflexivity|].
  destruct (pending_count_bounded_by_operations_in_flight
              (K:=string) (V:=string) (E:=string)) as [Hrc _].
  apply Hrc.
  exists [RC.Execute "a" op1; RC.Execute "b" op2; RC.Clear "a";
          RC.Settle 1 (Fulfilled "B"); RC.React 1].
  vm_compute. reflexivity.
Defined.

(** A thunk that throws before returning a promise: the caller's promise is
    rejected with the thrown error at once, no operation is registered or
    started, and the next call for the key invokes its thunk.  In both
    classes. *)
Theorem synchronous_throw_registers_nothing `{Countable K} `{!CRC.JSKey K} {V E : Type} :
  (∀ (s : RC.state K V E) k op op' e,
     RC.pendingRequests s !! k = None → thunk_throws op = Some e →
     let s1 := RC.execute k op s in
     received (length (calls (RC.rt s))) (RC.rt s1) = Some (Rejected e) ∧
     RC.pendingRequests s1 = RC.pendingRequests s ∧
     chains (RC.rt s1) = chains (RC.rt s) ∧
     invoked (RC.rt (RC.execute k op' s1)) = invoked (RC.rt s) ++ [op; op']) ∧
  (∀ (s : CRC.state K V E) k op op' e,
     CRC.isCached k s = false →
     CRC.pendingRequests s !! k = None → thunk_throws op = Some e →
     let s1 := CRC.execute k op s in
     received (length (calls (CRC.rt s))) (CRC.rt s1) = Some (Rejected e) ∧
     CRC.pendingRequests s1 = CRC.pendingRequests s ∧
     CRC.cache s1 = CRC.cache s ∧
     chains (CRC.rt s1) = chains (CRC.rt s) ∧
     invoked (CRC.rt (CRC.execute k op' s1)) = invoked (CRC.rt s) ++ [op; op']).
Proof.
  split.
  - intros s k op op' e Hk He s1.
    destruct (rc_sequential_throws s k op op' e Hk He) as (Hr & _ & Hinv).
    split_and!; [done| | |done]; unfold s1; by rewrite (rc_execute_throw _ _ _ e).
  - intros s k op op' e Hc Hk He s1.
    destruct (sequential_throws s k op op' e Hc Hk He) as (Hr & _ & Hinv).
    split_and!; [done| | | |done]; unfold s1; by rewrite (execute_throw _ _ _ e).
Qed.

Lemma synchronous_throw_scenario :
  let s1 : RC.state string string string := RC.execute "k" throwingOp RC.init in
  received 0 (RC.rt s1) = Some (Rejected "thrown") ∧
  RC.isPending "k" s1 = false ∧
  invoked (RC.rt (RC.execute "k" fetch s1)) = [throwingOp; fetch].
Proof.
  intros s1.
  destruct (synchronous_throw_registers_nothing (K:=string) (V:=string) (E:=string))
    as [Hrc _].
  destruct (Hrc RC.init "k" throwingOp fetch "thrown") as (Hr & _ & _ & Hinv);
    [vm_compute; reflexivity..|].
  split; [exact Hr|]. split; [vm_compute; reflexivity|exact Hinv].
Defined.

(** ** CachedRequestCoalescer: getStats, invalidate, clear and the clock *)

(** With [maxSize = M] of at least [1], and a key type that contains
    neither [NaN] nor [undefined], [getStats().cacheSize] never exceeds
    [M]. *)
Theorem cache_size_never_exceeds_maxSize `{Countable K} `{!CRC.JSKey K} {V E : Type}
    (s : CRC.state K V E) M :
  NaN_free K → undefined_free K →
  CRC.reachable s → CRC.maxSize (CRC.options s) = Some M → (1 ≤ M)%Z →
  (Z.of_nat (CRC.cacheSize (CRC.getStats s)) ≤ M)%Z.
Proof.
  intros HNaN Hundef Hs HM HM1. by apply (reachable_bounded HNaN Hundef s Hs).
Qed.

Lemma cache_size_scenario :
  let s := after_events (CRC.Options (Some 1000%Z) (Some 2%Z)) scenario_C_events in
  CRC.cacheSize (CRC.getStats s) = 2 ∧
  (Z.of_nat (CRC.cacheSize (CRC.getStats s)) ≤ 2)%Z.
Proof.
  intros s. split; [vm_compute; reflexivity|].
  apply (cache_size_never_exceeds_maxSize s 2%Z);
    [apply string_NaN_free|apply string_undefined_free| |vm_compute; reflexivity|lia].
  exists (CRC.Options (Some 1000%Z) (Some 2%Z)), 0%Z, scenario_C_events.
  vm_compute. reflexivity.
Defined.

(** Refreshing a key that is still in a full cache (its entry has expired)
    evicts the key at the front of the access order, unless that key is
    [undefined], although no room is needed: the cache is left with [M - 1]
    entries.  (For a key type without [NaN], where the key at the front is
    a cached one.) *)
Theorem refresh_at_capacity_evicts_another_key `{Countable K} `{!CRC.JSKey K} {V E : Type}
    (s : CRC.state K V E) M p k v lruKey rest :
  NaN_free K → CRC.isUndefined lruKey = false →
  CRC.reachable s → ttl_configured (CRC.options s) →
  CRC.maxSize (CRC.options s) = Some M → M ≠ 0%Z →
  Z.of_nat (size (CRC.cache s)) = M →
  is_Some (CRC.cache s !! k) →
  CRC.accessOrder s = lruKey :: rest → lruKey ≠ k →
  chains (CRC.rt s) !! p = Some (Chain k (Settling (Fulfilled v))) →
  ∃ s', CRC.step s (CRC.React p) = Some s' ∧
    CRC.cache s' = <[k := CRC.Entry v (CRC.now s)]> (delete lruKey (CRC.cache s)) ∧
    CRC.cache s' !! lruKey = None ∧
    (Z.of_nat (CRC.cacheSize (CRC.getStats s')) = M - 1)%Z.
Proof.
  intros HNaN Hundef [_ Hkeys]%(reachable_lru_inv HNaN) Httl%truthy_ttl
    HM HM0 Hsize Hk Hao Hne Hp.
  assert (is_Some (CRC.cache s !! lruKey)) as Hlru.
  { apply Hkeys. rewrite Hao. left. }
  set (s0 := CRC.with_pending (delete k (CRC.pendingRequests s)) s).
  assert (CRC.cache (CRC.setCacheEntry k v s0) =
          <[k := CRC.Entry v (CRC.now s)]> (delete lruKey (CRC.cache s))) as Hcache.
  { rewrite setCacheEntry_cache, (evict_defined s0 M lruKey rest)
      by (done || (simpl; lia)).
    done. }
  eexists. split; [cbn [CRC.step]; by apply react_settling|].
  rewrite after_handler_cached by done. cbn [CRC.cache CRC.with_host CRC.getStats CRC.cacheSize].
  fold s0. rewrite Hcache. split_and!.
  - done.
  - rewrite lookup_insert_ne by done. apply lookup_delete_eq.
  - rewrite map_size_insert_Some by (by rewrite lookup_delete_ne).
    rewrite map_size_delete_Some by done.
    pose proof (size_pos_is_Some _ _ Hlru). lia.
Qed.

Lemma refresh_at_capacity_scenario :
  let s := after_events (CRC.Options (Some 1000%Z) (Some 2%Z)) refresh_events in
  CRC.cacheSize (CRC.getStats s) = 2 ∧
  ∃ s', CRC.step s (CRC.React 2) = Some s' ∧
    CRC.cache s' = <["k2" := CRC.Entry "w2" 1000%Z]> (delete "k1" (CRC.cache s)) ∧
    CRC.cache s' !! "k1" = None ∧
    (Z.of_nat (CRC.cacheSize (CRC.getStats s')) = 2 - 1)%Z.
Proof.
  intros s. split; [vm_compute; reflexivity|].
  apply (refresh_at_capacity_evicts_another_key s 2%Z 2 "k2" "w2" "k1" ["k2"]).
  - apply string_NaN_free.
  - reflexivity.
  - exists (CRC.Options (Some 1000%Z) (Some 2%Z)), 0%Z, refresh_events.
    vm_compute. reflexivity.
  - exists 1000%Z. split; [vm_compute; reflexivity|discriminate].
  - vm_compute. reflexivity.
  - discriminate.
  - vm_compute. reflexivity.
  - exists (CRC.Entry "v2" 0%Z). vm_compute. reflexivity.
  - vm_compute. reflexivity.
  - discriminate.
  - vm_compute. reflexivity.
Defined.

(** [invalidate(k)] and [clear()] do not stop an operation in flight, and
    with a positive ttl its result is still written to the cache when it
    succeeds: afterwards the key is cached again and the next call is
    answered with that result without invoking anything. *)
Theorem invalidation_in_flight_still_caches `{Countable K} `{!CRC.JSKey K} {V E : Type}
    (s : CRC.state K V E) p k v t :
  CRC.ttl (CRC.options s) = Some t → (0 < t)%Z →
  chains (CRC.rt s) !! p = Some (Chain k Running) →
  CRC.isCached k (CRC.invalidate k s) = false ∧
  CRC.isCached k (CRC.clear s) = false ∧
  (∃ s', CRC.run s [CRC.Invalidate k; CRC.Settle p (Fulfilled v); CRC.React p]
           = Some s' ∧
     CRC.isCached k s' = true ∧
     ∀ op, invoked (CRC.rt (CRC.execute k op s')) = invoked (CRC.rt s) ∧
       received (length (calls (CRC.rt s))) (CRC.rt (CRC.execute k op s')) =
         Some (Fulfilled v)) ∧
  (∃ s', CRC.run s [CRC.Clear; CRC.Settle p (Fulfilled v); CRC.React p] = Some s' ∧
     CRC.isCached k s' = true ∧
     ∀ op, invoked (CRC.rt (CRC.execute k op s')) = invoked (CRC.rt s) ∧
       received (length (calls (CRC.rt s))) (CRC.rt (CRC.execute k op s')) =
         Some (Fulfilled v)).
Proof.
  intros Httl Ht Hp. split_and!.
  - unfold CRC.isCached, CRC.invalidate. cbn [CRC.cache CRC.with_accessOrder
      CRC.with_pending CRC.with_cache]. by rewrite lookup_delete_eq.
  - unfold CRC.isCached, CRC.clear. cbn [CRC.cache CRC.with_accessOrder
      CRC.with_pending CRC.with_cache]. by rewrite lookup_empty.
  - destruct (late_result_is_cached (CRC.invalidate k s) p k v t Httl Ht Hp)
      as (s' & Hrun & Hc & Hnext).
    exists s'. rewrite run_cons. cbn [CRC.step mbind option_bind]. done.
  - destruct (late_result_is_cached (CRC.clear s) p k v t Httl Ht Hp)
      as (s' & Hrun & Hc & Hnext).
    exists s'. rewrite run_cons. cbn [CRC.step mbind option_bind]. done.
Qed.

Lemma invalidation_in_flight_scenario :
  let s := after_events (CRC.Options (Some 1000%Z) None) [CRC.Execute "k" op1] in
  ∃ s', CRC.run s [CRC.Invalidate "k"; CRC.Settle 0 (Fulfilled "old"); CRC.React 0]
          = Some s' ∧
    CRC.isCached "k" s' = true ∧
    ∀ op, invoked (CRC.rt (CRC.execute "k" op s')) = invoked (CRC.rt s) ∧
      received (length (calls (CRC.rt s))) (CRC.rt (CRC.execute "k" op s')) =
        Some (Fulfilled "old").
Proof.
  intros s.
  destruct (invalidation_in_flight_still_caches s 0 "k" "old" 1000%Z)
    as (_ & _ & Hinv & _); [vm_compute; reflexivity..|].
  exact Hinv.
Defined.

(** For a key type without [NaN], [invalidate(k)] removes [k] from the
    cache, the pending map and the access order and nothing else: the other
    keys keep their standing and their order, and the next call for [k]
    invokes its thunk. *)
Theorem invalidate_forgets_only_its_key `{Countable K} `{!CRC.JSKey K} {V E : Type}
    (s : CRC.state K V E) k :
  NaN_free K → CRC.reachable s →
  let s' := CRC.invalidate k s in
  CRC.isCached k s' = false ∧ CRC.isPending k s' = false ∧
  (k ∉ CRC.accessOrder s') ∧
  CRC.accessOrder s' = filter (λ x, x ≠ k) (CRC.accessOrder s) ∧
  (∀ k', k' ≠ k →
     CRC.isCached k' s' = CRC.isCached k' s ∧
     CRC.isPending k' s' = CRC.isPending k' s) ∧
  (∀ op, invoked (CRC.rt (CRC.execute k op s')) = invoked (CRC.rt s) ++ [op]).
Proof.
  intros HNaN [Hnd _]%(reachable_lru_inv HNaN) s'.
  assert (CRC.isCached k s' = false) as Hc.
  { unfold CRC.isCached, s', CRC.invalidate. cbn [CRC.cache CRC.with_accessOrder
      CRC.with_pending CRC.with_cache]. by rewrite lookup_delete_eq. }
  assert (CRC.pendingRequests s' !! k = None) as Hp by apply lookup_delete_eq.
  assert (CRC.accessOrder s' = filter (λ x, x ≠ k) (CRC.accessOrder s)) as Hao.
  { unfold s', CRC.invalidate. cbn [CRC.accessOrder CRC.with_accessOrder
      CRC.with_pending CRC.with_cache]. by apply splice_key_filter. }
  split_and!.
  - done.
  - unfold CRC.isPending. rewrite Hp. apply bool_decide_eq_false. by intros [? ?].
  - rewrite Hao, list_elem_of_filter. by intros [? _].
  - done.
  - intros k' Hne. split.
    + apply isCached_ext; [|done..]. apply lookup_delete_ne. done.
    + unfold CRC.isPending, s', CRC.invalidate. cbn [CRC.pendingRequests
        CRC.with_accessOrder CRC.with_pending CRC.with_cache].
      by rewrite lookup_delete_ne.
  - intros op. by rewrite execute_invokes.
Qed.

Lemma invalidate_scenario :
  let s := after_events (CRC.Options (Some 1000%Z) (Some 2%Z))
    [CRC.Execute "k1" fetch; CRC.Settle 0 (Fulfilled "v1"); CRC.React 0;
     CRC.Execute "k2" fetch; CRC.Settle 1 (Fulfilled "v2"); CRC.React 1] in
  let s' := CRC.invalidate "k1" s in
  CRC.isCached "k1" s = true ∧
  CRC.isCached "k1" s' = false ∧
  CRC.isCached "k2" s' = true ∧
  CRC.accessOrder s' = ["k2"] ∧
  invoked (CRC.rt (CRC.execute "k1" op3 s')) = [fetch; fetch; op3].
Proof.
  intros s s'.
  destruct (invalidate_forgets_only_its_key s "k1") as (Hc & _ & _ & _ & _ & Hinv);
    [apply string_NaN_free|..].
  { exists (CRC.Options (Some 1000%Z) (Some 2%Z)), 0%Z.
    exists [CRC.Execute "k1" fetch; CRC.Settle 0 (Fulfilled "v1"); CRC.React 0;
            CRC.Execute "k2" fetch; CRC.Settle 1 (Fulfilled "v2"); CRC.React 1].
    vm_compute. reflexivity. }
  split; [vm_compute; reflexivity|]. split; [exact Hc|].
  split; [vm_compute; reflexivity|]. split; [vm_compute; reflexivity|].
  exact (Hinv op3).
Defined.

(** [clear()] leaves nothing cached and nothing pending and keeps the
    options; the next call for any key invokes its thunk; and a caller
    attached to an operation in flight still receives its outcome. *)
Theorem clear_empties_the_coalescer `{Countable K} `{!CRC.JSKey K} {V E : Type}
    (s : CRC.state K V E) :
  let s' := CRC.clear s in
  CRC.getStats s' =
    CRC.Stats 0 0 (CRC.maxSize (CRC.options s)) (CRC.ttl (CRC.options s)) ∧
  CRC.accessOrder s' = [] ∧
  (∀ k, CRC.isCached k s' = false ∧ CRC.isPending k s' = false) ∧
  (∀ k op, invoked (CRC.rt (CRC.execute k op s')) = invoked (CRC.rt s) ++ [op]) ∧
  (∀ p k c o,
     chains (CRC.rt s) !! p = Some (Chain k Running) →
     calls (CRC.rt s) !! c = Some (Call k (Adopt p) None) →
     ∃ s'', CRC.run s [CRC.Clear; CRC.Settle p o; CRC.React p; CRC.Deliver c]
              = Some s'' ∧
       received c (CRC.rt s'') = Some o).
Proof.
  intros s'. split_and!.
  - unfold CRC.getStats, s', CRC.clear. simpl. by rewrite !map_size_empty.
  - done.
  - intros k. split; [done|]. unfold CRC.isPending, s', CRC.clear. simpl.
    rewrite lookup_empty. apply bool_decide_eq_false. by intros [? ?].
  - intros k op. by rewrite execute_invokes.
  - intros p k c o Hp Hc.
    destruct (settle_react_deliver s' p k c o Hp Hc) as (s'' & Hrun & Hrest).
    exists s''. rewrite run_cons. cbn [CRC.step mbind option_bind].
    split; [done|]. apply Hrest.
Qed.

Lemma clear_scenario :
  let s := after_events (CRC.Options (Some 1000%Z) None)
    [CRC.Execute "k1" fetch; CRC.Settle 0 (Fulfilled "v1"); CRC.React 0;
     CRC.Execute "k2" op2] in
  CRC.getStats s = CRC.Stats 1 1 None (Some 1000%Z) ∧
  CRC.getStats (CRC.clear s) = CRC.Stats 0 0 None (Some 1000%Z) ∧
  ∃ s'', CRC.run s [CRC.Clear; CRC.Settle 1 (Rejected "E"); CRC.React 1;
                    CRC.Deliver 1] = Some s'' ∧
    received 1 (CRC.rt s'') = Some (Rejected "E").
Proof.
  intros s. destruct (clear_empties_the_coalescer s) as (Hstats & _ & _ & _ & Hrun).
  split; [vm_compute; reflexivity|]. split; [exact Hstats|].
  apply (Hrun 1 "k2" 1 (Rejected "E")); vm_compute; reflexivity.
Defined.

(** Entries are not removed when they expire.  Once the clock has moved by
    at least the ttl no key is validly cached, yet [getStats()] and the
    access order are what they were: the expired entries still count
    towards [cacheSize] and [maxSize]. *)
Theorem expired_entries_still_occupy_the_cache `{Countable K} `{!CRC.JSKey K} {V E : Type}
    (s : CRC.state K V E) T ms :
  CRC.reachable s → CRC.ttl (CRC.options s) = Some T → (T ≤ Z.of_N ms)%Z →
  ∃ s', CRC.step s (CRC.Advance ms) = Some s' ∧
    (∀ k, CRC.isCached k s' = false) ∧
    CRC.getStats s' = CRC.getStats s ∧
    CRC.accessOrder s' = CRC.accessOrder s.
Proof.
  intros Hstamps%reachable_stamps_ok Httl HT. eexists. split; [done|].
  split_and!; [|done..]. intros k. apply isCached_false. intros entry Hk.
  apply not_true_is_false. intros (t & Ht & _ & Hlt)%isCacheValid_true.
  simpl in *. rewrite Httl in Ht. injection Ht as <-.
  specialize (Hstamps k entry Hk). lia.
Qed.

Lemma expired_entries_scenario :
  let s := after_events (CRC.Options (Some 1000%Z) (Some 2%Z))
    [CRC.Execute "k1" fetch; CRC.Settle 0 (Fulfilled "v1"); CRC.React 0;
     CRC.Execute "k2" fetch; CRC.Settle 1 (Fulfilled "v2"); CRC.React 1] in
  CRC.isCached "k1" s = true ∧
  ∃ s', CRC.step s (CRC.Advance 1000) = Some s' ∧
    (∀ k, CRC.isCached k s' = false) ∧
    CRC.getStats s' = CRC.getStats s ∧
    CRC.accessOrder s' = CRC.accessOrder s.
Proof.
  intros s. split; [vm_compute; reflexivity|].
  apply (expired_entries_still_occupy_the_cache s 1000%Z 1000%N).
  - exists (CRC.Options (Some 1000%Z) (Some 2%Z)), 0%Z.
    exists [CRC.Execute "k1" fetch; CRC.Settle 0 (Fulfilled "v1"); CRC.React 0;
            CRC.Execute "k2" fetch; CRC.Settle 1 (Fulfilled "v2"); CRC.React 1].
    vm_compute. reflexivity.
  - vm_compute. reflexivity.
  - vm_compute. discriminate.
Defined.

(** Reading an entry does not renew it: however often [k] is read, its
    entry keeps its timestamp and stops being valid [ttl] milliseconds
    after it was written. *)
Theorem reads_do_not_renew_the_ttl `{Countable K} `{!CRC.JSKey K} {V E : Type}
    (s : CRC.state K V E) k entry T ops ms :
  CRC.cache s !! k = Some entry → CRC.ttl (CRC.options s) = Some T →
  (CRC.timestamp entry + T ≤ CRC.now s + Z.of_N ms)%Z →
  ∃ s', CRC.run s ((CRC.Execute k <$> ops) ++ [CRC.Advance ms]) = Some s' ∧
    CRC.cache s' !! k = Some entry ∧ CRC.isCached k s' = false.
Proof.
  intros Hk Httl Hexp.
  destruct (run_executes s k ops) as (s1 & Hrun & Hcache & Hnow & Hopt).
  exists (CRC.with_now (CRC.now s1 + Z.of_N ms) s1). split_and!.
  - rewrite run_app, Hrun. done.
  - simpl. by rewrite Hcache.
  - apply isCached_false. intros entry'. simpl. rewrite Hcache, Hk. intros [= <-].
    apply not_true_is_false. intros (t & Ht & _ & Hlt)%isCacheValid_true.
    simpl in *. rewrite Hopt, Httl in Ht. injection Ht as <-. lia.
Qed.

Lemma reads_do_not_renew_scenario :
  let s := after_events (CRC.Options (Some 1000%Z) None)
    (scenario_B_events ++ [CRC.Advance 999]) in
  CRC.isCached "k" s = true ∧
  ∃ s', CRC.run s ((CRC.Execute "k" <$> [op1; op2]) ++ [CRC.Advance 1]) = Some s' ∧
    CRC.cache s' !! "k" = Some (CRC.Entry "v" 0%Z) ∧ CRC.isCached "k" s' = false.
Proof.
  intros s. split; [vm_compute; reflexivity|].
  apply (reads_do_not_renew_the_ttl s "k" (CRC.Entry "v" 0%Z) 1000%Z [op1; op2] 1%N).
  - vm_compute. reflexivity.
  - vm_compute. reflexivity.
  - vm_compute. discriminate.
Defined.

(** ** createKey: which parameter lists share a key *)

(** The key of a list is the key of its normal form, in which [undefined],
    [NaN] and the infinities are [null] and [undefined] properties are
    dropped.  For lists whose whole numbers are safe integers, two lists
    have the same key exactly when their normal forms are equal; in
    particular lists of different lengths never share a key. *)
Theorem createKey_identifies_normal_forms :
  (∀ xs, createKey xs = createKey (JSONFacts.normalise <$> xs)) ∧
  (∀ xs ys,
     forallb JSONFacts.safe xs = true → forallb JSONFacts.safe ys = true →
     (createKey xs = createKey ys ↔
        JSONFacts.normalise <$> xs = JSONFacts.normalise <$> ys) ∧
     (createKey xs = createKey ys → length xs = length ys)).
Proof.
  split.
  - intros xs. by rewrite JSONFacts.createKey_normalise.
  - intros xs ys Hxs Hys. split; [by apply JSONFacts.createKey_eq_iff|].
    intros Heq%JSONFacts.createKey_eq_iff; [|done..].
    apply (f_equal length) in Heq. by rewrite !length_fmap in Heq.
Qed.

Lemma createKey_normal_form_scenario :
  createKey [JSON.Num (JSON.Int 1); JSON.Undefined;
             JSON.Obj [("a", JSON.Undefined); ("b", JSON.Num JSON.NaN)]] =
  createKey [JSON.Num (JSON.Int 1); JSON.Null; JSON.Obj [("b", JSON.Null)]] ∧
  createKey [JSON.Num (JSON.Int 1)] ≠ createKey [JSON.Num (JSON.Int 1); JSON.Undefined].
Proof.
  destruct createKey_identifies_normal_forms as [_ Hiff]. split.
  - apply Hiff; vm_compute; reflexivity.
  - intros Heq. apply Hiff in Heq; [discriminate Heq|vm_compute; reflexivity..].
Defined.

(** ** coalesceFunction *)

(** Through the closure returned by [coalesceFunction] the private
    coalescer is never cleared, so an operation in flight is always the one
    registered for its key: a call whose key equals the key of an operation
    in flight joins that operation, and [fn] is not invoked. *)
Theorem coalesced_calls_join_the_operation_in_flight {A V E : Type}
    (fn : A → thunk E) (keyFn : A → string) (s : RC.state string V E)
    p args0 args st :
  CF.reachable fn keyFn s →
  chains (RC.rt s) !! p = Some (Chain (keyFn args0) st) → (∀ o, st ≠ Done o) →
  keyFn args = keyFn args0 →
  let s' := CF.apply fn keyFn args s in
  invoked (RC.rt s') = invoked (RC.rt s) ∧
  chains (RC.rt s') = chains (RC.rt s) ∧
  calls (RC.rt s') = calls (RC.rt s) ++ [Call (keyFn args) (Adopt p) None].
Proof.
  intros Hreg%coalesceFunctionFacts.reachable_registered Hp Hst Hkey s'.
  pose proof (Hreg p _ st Hp Hst) as Hpend. rewrite <-Hkey in Hpend.
  unfold s', CF.apply. rewrite (rc_execute_attach _ _ _ _ Hpend). done.
Qed.

Lemma coalesced_call_scenario :
  let s := wrapper_after_events
    [CF.Apply [JSON.Str "user"; JSON.Num (JSON.Int 1)]; CF.Settle 0 (Fulfilled "Ann")] in
  let s' := CF.apply fetchUser createKey [JSON.Str "user"; JSON.Num (JSON.Int 1)] s in
  invoked (RC.rt s') = invoked (RC.rt s) ∧
  chains (RC.rt s') = chains (RC.rt s) ∧
  calls (RC.rt s') = calls (RC.rt s) ++
    [Call (createKey [JSON.Str "user"; JSON.Num (JSON.Int 1)]) (Adopt 0) None].
Proof.
  intros s.
  apply (coalesced_calls_join_the_operation_in_flight fetchUser createKey s 0
           [JSON.Str "user"; JSON.Num (JSON.Int 1)]
           [JSON.Str "user"; JSON.Num (JSON.Int 1)]
           (Settling (Fulfilled "Ann"))).
  - exists [CF.Apply [JSON.Str "user"; JSON.Num (JSON.Int 1)];
            CF.Settle 0 (Fulfilled "Ann")].
    vm_compute. reflexivity.
  - vm_compute. reflexivity.
  - discriminate.
  - reflexivity.
Defined.

(** With the default key function, calls with different argument lists of
    representable values never coalesce: [fn] is invoked for each, and two
    operations are registered under different keys. *)
Theorem default_key_separates_representable_arguments {V E : Type}
    (fn : list JSON.value → thunk E) (s : RC.state string V E) xs ys :
  forallb JSON.representable xs = true → forallb JSON.representable ys = true →
  xs ≠ ys →
  RC.pendingRequests s !! createKey xs = None →
  RC.pendingRequests s !! createKey ys = None →
  thunk_throws (fn xs) = None → thunk_throws (fn ys) = None →
  let p := length (chains (RC.rt s)) in
  let s2 := CF.apply fn createKey ys (CF.apply fn createKey xs s) in
  invoked (RC.rt s2) = invoked (RC.rt s) ++ [fn xs; fn ys] ∧
  RC.pendingRequests s2 !! createKey xs = Some p ∧
  RC.pendingRequests s2 !! createKey ys = Some (S p) ∧
  RC.getPendingCount s2 = S (S (RC.getPendingCount s)).
Proof.
  intros Hxs Hys Hne Hkx Hky Hfx Hfy p s2.
  assert (createKey xs ≠ createKey ys) as Hkeys.
  { intros Heq. by apply Hne, JSONFacts.createKey_inj. }
  set (s1 := CF.apply fn createKey xs s).
  assert (s1 = RC.State (<[createKey xs := p]> (RC.pendingRequests s))
                 (add_call (createKey xs) (Adopt p) None
                    (spawn (createKey xs) (log_invocation (fn xs) (RC.rt s))))) as Hs1
    by (by apply rc_execute_start).
  assert (RC.pendingRequests s1 !! createKey ys = None) as Hky'.
  { unfold s1, CF.apply. by rewrite rc_execute_other. }
  assert (length (chains (RC.rt s1)) = S p) as Hlen1.
  { rewrite Hs1. simpl. rewrite length_app. simpl. unfold p. lia. }
  assert (s2 = RC.State (<[createKey ys := S p]> (RC.pendingRequests s1))
                 (add_call (createKey ys) (Adopt (S p)) None
                    (spawn (createKey ys) (log_invocation (fn ys) (RC.rt s1))))) as Hs2.
  { unfold s2, CF.apply. fold (CF.apply fn createKey xs s). fold s1.
    rewrite rc_execute_start by done. by rewrite Hlen1. }
  split_and!.
  - rewrite Hs2, Hs1. simpl. by rewrite <-app_assoc.
  - rewrite Hs2, Hs1. simpl. rewrite lookup_insert_ne by done. apply lookup_insert_eq.
  - rewrite Hs2. simpl. apply lookup_insert_eq.
  - unfold RC.getPendingCount. rewrite Hs2. simpl.
    rewrite map_size_insert_None by done. rewrite Hs1. simpl.
    by rewrite map_size_insert_None by done.
Qed.

Lemma default_key_scenario :
  let s2 : RC.state string string string :=
    CF.apply fetchUser createKey [JSON.Str "user"; JSON.Str "1"]
      (CF.apply fetchUser createKey [JSON.Str "user"; JSON.Num (JSON.Int 1)] RC.init) in
  invoked (RC.rt s2) = [Thunk 0 None; Thunk 0 None] ∧
  RC.getPendingCount s2 = 2.
Proof.
  intros s2.
  destruct (default_key_separates_representable_arguments (V:=string) fetchUser RC.init
              [JSON.Str "user"; JSON.Num (JSON.Int 1)] [JSON.Str "user"; JSON.Str "1"])
    as (Hinv & _ & _ & Hcount); [vm_compute; reflexivity|vm_compute; reflexivity
      |discriminate|vm_compute; reflexivity..|].
  split; [exact Hinv|exact Hcount].
Defined.

(** With the default key function, two argument lists that share a key
    share one operation: the second call does not invoke [fn], and its
    caller receives the outcome computed for the first argument list. *)
Theorem colliding_keys_share_one_operation {V E : Type}
    (fn : list JSON.value → thunk E) (s : RC.state string V E) xs ys o :
  createKey xs = createKey ys →
  RC.pendingRequests s !! createKey xs = None → thunk_throws (fn xs) = None →
  let p := length (chains (RC.rt s)) in
  let c0 := length (calls (RC.rt s)) in
  ∃ s', CF.run fn createKey s
          [CF.Apply xs; CF.Apply ys; CF.Settle p o; CF.React p;
           CF.Deliver c0; CF.Deliver (S c0)] = Some s' ∧
    invoked (RC.rt s') = invoked (RC.rt s) ++ [fn xs] ∧
    received c0 (RC.rt s') = Some o ∧
    received (S c0) (RC.rt s') = Some o.
Proof.
  intros Hkey Hpend Hfn p c0.
  destruct (rc_concurrent_calls s (createKey xs) (fn xs) [fn ys] o Hpend Hfn)
    as (s1 & s2 & Hrun1 & _ & _ & _ & Hrun2 & Hinv & _ & Hrecv & _).
  exists s2. split_and!.
  - rewrite coalesceFunctionFacts.wrapper_run.
    cbn [fmap list_fmap CF.to_coalescer]. rewrite <-Hkey.
    pose proof (rc_run_app s (RC.Execute (createKey xs) <$> [fn xs; fn ys])
                  (RC.Settle p o :: RC.React p :: (RC.Deliver <$> seq c0 2))) as Happ.
    cbn [fmap list_fmap app seq] in Happ. rewrite Happ.
    cbn [fmap list_fmap] in Hrun1. rewrite Hrun1. exact Hrun2.
  - done.
  - specialize (Hrecv 0). rewrite Nat.add_0_r in Hrecv. apply Hrecv. simpl. lia.
  - replace (S c0) with (length (calls (RC.rt s)) + 1) by (unfold c0; lia).
    apply Hrecv. simpl. lia.
Qed.

Lemma colliding_keys_scenario :
  [JSON.Undefined] ≠ [JSON.Null] ∧
  fetchUser [JSON.Undefined] ≠ fetchUser [JSON.Null] ∧
  ∃ s' : RC.state string string string,
    CF.run fetchUser createKey RC.init
      [CF.Apply [JSON.Undefined]; CF.Apply [JSON.Null];
       CF.Settle 0 (Fulfilled "for undefined"); CF.React 0;
       CF.Deliver 0; CF.Deliver 1] = Some s' ∧
    invoked (RC.rt s') = [fetchUser [JSON.Undefined]] ∧
    received 0 (RC.rt s') = Some (Fulfilled "for undefined") ∧
    received 1 (RC.rt s') = Some (Fulfilled "for undefined").
Proof.
  split; [discriminate|]. split; [discriminate|].
  apply (colliding_keys_share_one_operation (V:=string) fetchUser RC.init
           [JSON.Undefined] [JSON.Null] (Fulfilled "for undefined"));
    vm_compute; reflexivity.
Defined.

(** ** Logger *)

(** With a [window], a run of calls that pass the threshold leaves in
    [getLogs()] the newest hundred of the entries stored so far, oldest
    first: the earlier entries followed by one entry per call, each with
    the level, message, context and error of its call and the time read
    for it. *)
Theorem stored_logs_are_the_newest_hundred (env : LG.Env) (this : LG.Logger) s cs :
  LG.hasWindow env = true → Forall (LoggerFacts.accepted this) cs →
  length (LG.getLogs env s) ≤ 100 →
  LG.getLogs env (LG.run env this s cs) =
    LoggerFacts.keep_last 100
      (LG.getLogs env s ++ LoggerFacts.entries_from env (LG.dates s) cs) ∧
  length (LG.getLogs env (LG.run env this s cs)) =
    (length (LG.getLogs env s) + length cs) `min` 100.
Proof.
  intros Hwin Hall Hlen.
  pose proof (LoggerFacts.run_accepted env this s cs Hwin Hall Hlen) as Hrun.
  split; [done|]. rewrite Hrun, LoggerFacts.length_keep_last, length_app.
  by rewrite (LoggerFacts.length_entries_from env this).
Qed.

Lemma stored_logs_scenario :
  let cs := replicate 120 (LG.Warn "slow" None None) ++ [LG.Info "last" None] in
  let s := LG.run production (LG.new production) LG.init cs in
  length (LG.getLogs production s) = 100 ∧
  LG.message <$> last (LG.getLogs production s) = Some "last" ∧
  LG.timestamp <$> head (LG.getLogs production s) = Some "43".
Proof.
  intros cs s.
  destruct (stored_logs_are_the_newest_hundred production (LG.new production)
              LG.init cs) as [Hlogs Hlen].
  - reflexivity.
  - apply Forall_app. split.
    + apply Forall_replicate. exists LG.WARN. split; reflexivity.
    + constructor; [|constructor]. exists LG.INFO. split; reflexivity.
  - vm_compute. lia.
  - split; [exact Hlen|]. unfold s. rewrite Hlogs. split; vm_compute; reflexivity.
Defined.

(** Whatever is logged, by whatever logger, [getLogs()] never holds more
    than a hundred entries. *)
Theorem stored_logs_never_exceed_one_hundred (env : LG.Env) (this : LG.Logger) cs :
  length (LG.getLogs env (LG.run env this LG.init cs)) ≤ 100.
Proof.
  apply LoggerFacts.run_length_logs. unfold LG.getLogs. destruct (LG.hasWindow env);
    simpl; lia.
Qed.

(** A call that [shouldLog] rejects has no effect at all: nothing is
    printed, nothing is stored, the clock is not read.  The threshold is
    DEBUG in development and otherwise what the level map holds under the
    configured name, WARN when it holds nothing; a level passes when the
    threshold is a level not above it.  So in production with a name the
    map does not know, [debug], [info], [userAction] and [performance] do
    nothing, and ERROR passes every threshold that is a level.  With a name
    that the map inherits from [Object.prototype], such as [constructor],
    the threshold is not a level, no level passes, and in production every
    logging call does nothing, [error] and [apiError] included. *)
Theorem calls_below_the_threshold_do_nothing (env : LG.Env) :
  (∀ this s c level,
     LoggerFacts.call_level c = Some level → LG.shouldLog this level = false →
     LG.step env this s c = s) ∧
  (∀ level,
     LG.shouldLog (LG.new env) level = true ↔
     LG.DEV env = true ∨
     ∃ minLevel,
       default (LG.Level LG.WARN) (LG.logLevelMap (LG.LOG_LEVEL env)) =
         LG.Level minLevel ∧
       (LG.level_value minLevel ≤ LG.level_value level)%Z) ∧
  (LG.DEV env = false → LG.logLevelMap (LG.LOG_LEVEL env) = None →
   ∀ s c level,
     LoggerFacts.call_level c = Some level → level = LG.DEBUG ∨ level = LG.INFO →
     LG.step env (LG.new env) s c = s) ∧
  (∀ this minLevel,
     LG.minLevel this = LG.Level minLevel → LG.shouldLog this LG.ERROR = true) ∧
  (∀ this name level,
     LG.minLevel this = LG.Inherited name → LG.shouldLog this level = false) ∧
  (LG.DEV env = false → LG.LOG_LEVEL env ∈ LG.prototype_properties →
   LG.minLevel (LG.new env) = LG.Inherited (LG.LOG_LEVEL env) ∧
   ∀ s c level,
     LoggerFacts.call_level c = Some level → LG.step env (LG.new env) s c = s).
Proof.
  split_and!.
  - intros this s c level. apply LoggerFacts.step_rejected.
  - intros level. unfold LG.shouldLog, LG.new. cbn [LG.minLevel].
    destruct (LG.DEV env).
    + rewrite bool_decide_eq_true. split; [by left|]. intros _.
      destruct level; simpl; lia.
    + destruct (default _ _) as [minLevel|name].
      * rewrite bool_decide_eq_true. split; [right; by exists minLevel|].
        intros [?|(? & [= <-] & ?)]; done.
      * split; [done|]. intros [?|(? & ? & _)]; done.
  - intros Hdev Hmap s c level Hlevel Hlow.
    apply (LoggerFacts.step_rejected env _ s c level Hlevel).
    unfold LG.shouldLog, LG.new. cbn [LG.minLevel]. rewrite Hdev, Hmap.
    apply bool_decide_eq_false. destruct Hlow as [-> | ->]; simpl; lia.
  - intros this minLevel Hmin. unfold LG.shouldLog. rewrite Hmin.
    apply bool_decide_eq_true. destruct minLevel; simpl; lia.
  - intros this name level Hmin. unfold LG.shouldLog. by rewrite Hmin.
  - intros Hdev Hname.
    assert (LG.minLevel (LG.new env) = LG.Inherited (LG.LOG_LEVEL env)) as Hmin.
    { unfold LG.new. cbn [LG.minLevel]. rewrite Hdev.
      by rewrite LoggerFacts.logLevelMap_inherited. }
    split; [done|]. intros s c level Hlevel.
    apply (LoggerFacts.step_rejected env _ s c level Hlevel).
    unfold LG.shouldLog. by rewrite Hmin.
Qed.

Lemma threshold_scenario :
  let env := LG.MkEnv false "verbose" true (λ n, pretty n) in
  let env' := LG.MkEnv false "constructor" true (λ n, pretty n) in
  LG.minLevel (LG.new env) = LG.Level LG.WARN ∧
  LG.run env (LG.new env) LG.init
    [LG.Debug "d" None; LG.Info "i" None; LG.UserAction "click" None;
     LG.Performance "load" (JSON.Int 12) None] = LG.init ∧
  LG.minLevel (LG.new env') = LG.Inherited "constructor" ∧
  LG.step env' (LG.new env') LG.init (LG.Error_ "failed" None None) = LG.init.
Proof.
  intros env env'. split; [reflexivity|].
  destruct (calls_below_the_threshold_do_nothing env) as (_ & _ & Hlow & _).
  destruct (calls_below_the_threshold_do_nothing env')
    as (_ & _ & _ & _ & _ & Hinherited).
  split_and!.
  - unfold LG.run. cbn [foldl].
    rewrite (Hlow eq_refl eq_refl LG.init (LG.Debug "d" None) LG.DEBUG eq_refl) by auto.
    rewrite (Hlow eq_refl eq_refl LG.init (LG.Info "i" None) LG.INFO eq_refl) by auto.
    rewrite (Hlow eq_refl eq_refl LG.init (LG.UserAction "click" None) LG.INFO eq_refl)
      by auto.
    apply (Hlow eq_refl eq_refl LG.init (LG.Performance "load" (JSON.Int 12) None) LG.INFO
             eq_refl).
    auto.
  - apply Hinherited; [reflexivity|left].
  - destruct Hinherited as [_ Hnothing]; [reflexivity|left|].
    by apply (Hnothing LG.init (LG.Error_ "failed" None None) LG.ERROR).
Defined.

(** In production only [console.warn] and [console.error] are ever called:
    a DEBUG or INFO entry that passes the threshold is stored but prints
    nothing. *)
Theorem production_console_shows_only_warnings_and_errors
    (env : LG.Env) (this : LG.Logger) s :
  LG.isDevelopment this = false →
  (∀ cs, Forall LoggerFacts.loud (LG.console s) →
     Forall LoggerFacts.loud (LG.console (LG.run env this s cs))) ∧
  (∀ c level message context error,
     LoggerFacts.call_params c = Some (level, message, context, error) →
     level = LG.DEBUG ∨ level = LG.INFO →
     LG.console (LG.step env this s c) = LG.console s ∧
     (LG.shouldLog this level = true → LG.hasWindow env = true →
      last (LG.getLogs env (LG.step env this s c)) =
        Some (LG.Entry (LG.toISOString env (S (LG.dates s)))
                level message context error))).
Proof.
  intros Hprod. split.
  - intros cs. revert s. induction cs as [|c cs IH]; intros s Hloud; [done|].
    apply (IH (LG.step env this s c)).
    destruct (LoggerFacts.step_console env this s c)
      as [->|(level & text & _ & Hprinted & ->)]; [done|].
    apply Forall_app. split; [done|]. constructor; [|constructor].
    unfold LoggerFacts.printed in Hprinted. rewrite Hprod in Hprinted.
    unfold LoggerFacts.loud. destruct level; simpl in *; auto; done.
  - intros c level message context error Hparams Hlow.
    destruct (LG.shouldLog this level) eqn:Hl.
    + destruct (LoggerFacts.step_accepted env this s c _ _ _ _ Hparams Hl)
        as (Hlogs & Hconsole & _).
      split.
      * rewrite Hconsole. unfold LoggerFacts.printed. rewrite Hprod.
        by destruct Hlow as [-> | ->].
      * intros _ Hwin. rewrite Hlogs, Hwin. apply LoggerFacts.last_keep_last.
    + rewrite (LoggerFacts.step_rejected env this s c level); [done| |done].
      unfold LoggerFacts.call_level. by rewrite Hparams.
Qed.

Lemma production_console_scenario :
  let this := LG.new production in
  let s := LG.run production this LG.init
    [LG.Info "started" None; LG.Warn "slow" None None; LG.UserAction "click" None] in
  LG.console s = [(LG.console_warn, "[2] WARN: slow")] ∧
  LG.message <$> LG.getLogs production s = ["started"; "slow"; "User Action: click"] ∧
  Forall LoggerFacts.loud (LG.console s).
Proof.
  intros this s. split; [vm_compute; reflexivity|]. split; [vm_compute; reflexivity|].
  destruct (production_console_shows_only_warnings_and_errors production this LG.init)
    as [Hloud _]; [reflexivity|].
  apply Hloud. constructor.
Defined.

(** In development every logging call prints exactly one line, through the
    console method of its level, and with a [window] the entry is the
    newest stored one. *)
Theorem development_prints_every_call (env : LG.Env) s c level message context error :
  LG.DEV env = true →
  LoggerFacts.call_params c = Some (level, message, context, error) →
  LG.console (LG.step env (LG.new env) s c) =
    LG.console s ++
      [(LoggerFacts.method_of level,
        (LG.formatMessage env level message context error s).1)] ∧
  (LG.hasWindow env = true →
   last (LG.getLogs env (LG.step env (LG.new env) s c)) =
     Some (LG.Entry (LG.toISOString env (S (LG.dates s))) level message context error)).
Proof.
  intros Hdev Hparams.
  assert (LG.shouldLog (LG.new env) level = true) as Hl.
  { unfold LG.shouldLog, LG.new. cbn [LG.minLevel]. rewrite Hdev.
    apply bool_decide_eq_true. destruct level; simpl; lia. }
  destruct (LoggerFacts.step_accepted env (LG.new env) s c _ _ _ _ Hparams Hl)
    as (Hlogs & Hconsole & _).
  split.
  - rewrite Hconsole. unfold LoggerFacts.printed, LG.new. cbn [LG.isDevelopment].
    by rewrite Hdev.
  - intros Hwin. rewrite Hlogs, Hwin. apply LoggerFacts.last_keep_last.
Qed.

Lemma development_scenario :
  LG.console (LG.step development (LG.new development) LG.init
                (LG.Debug "loaded" (Some [("count", JSON.Num (JSON.Int 3))]))) =
    [(LG.console_debug,
      (LG.formatMessage development LG.DEBUG "loaded"
         (Some [("count", JSON.Num (JSON.Int 3))]) None LG.init).1)] ∧
  LG.message <$> last (LG.getLogs development
       (LG.step development (LG.new development) LG.init
          (LG.Debug "loaded" (Some [("count", JSON.Num (JSON.Int 3))])))) =
    Some "loaded".
Proof.
  destruct (development_prints_every_call development LG.init
              (LG.Debug "loaded" (Some [("count", JSON.Num (JSON.Int 3))]))
              LG.DEBUG "loaded" (Some [("count", JSON.Num (JSON.Int 3))]) None)
    as [Hconsole Hlast]; [reflexivity..|].
  split; [exact Hconsole|]. by rewrite Hlast.
Defined.

(** Without a [window] nothing is ever stored: [getLogs()] is empty after
    any calls and [window.__appLogs] is never written. *)
Theorem without_a_window_nothing_is_stored (env : LG.Env) (this : LG.Logger) s cs :
  LG.hasWindow env = false →
  LG.getLogs env (LG.run env this s cs) = [] ∧
  LG.appLogs (LG.run env this s cs) = LG.appLogs s.
Proof.
  intros Hwin. split; [unfold LG.getLogs; by rewrite Hwin|].
  revert s. induction cs as [|c cs IH]; intros s; [done|].
  change (LG.run env this s (c :: cs)) with (LG.run env this (LG.step env this s c) cs).
  by rewrite IH, LoggerFacts.step_no_window.
Qed.

Lemma no_window_scenario :
  let s := LG.run server (LG.new server) LG.init
    [LG.Error_ "failed" None None; LG.Debug "d" None] in
  LG.console s = [(LG.console_error, "[0] ERROR: failed")] ∧
  LG.getLogs server s = [] ∧ LG.appLogs s = None.
Proof.
  intros s. split; [vm_compute; reflexivity|].
  apply (without_a_window_nothing_is_stored server (LG.new server) LG.init). reflexivity.
Defined.

(** [apiError] logs at the level ERROR, which passes exactly when the
    threshold of the logger is a level; it is then printed by
    [console.error], also in production.  Its line always carries a context
    part, because the context it builds always has the [url], [method] and
    [status] properties: without a caller's context and with none of the
    three set on the error, the part reads [{}].  When the threshold is not
    a level (a property inherited from [Object.prototype]), [apiError] does
    nothing. *)
Theorem apiError_always_prints_a_context (env : LG.Env) (this : LG.Logger)
    s message err context :
  let json := LG.interpolate
    (JSON.stringify (JSON.Obj (LoggerFacts.api_context err context))) in
  (LG.shouldLog this LG.ERROR = true ↔ ∃ minLevel, LG.minLevel this = LG.Level minLevel) ∧
  ((∃ minLevel, LG.minLevel this = LG.Level minLevel) →
   ∃ rest,
     LG.console (LG.apiError env this message err context s) =
       LG.console s ++
         [(LG.console_error,
           (("[" +:+ LG.toISOString env (LG.dates s) +:+ "] ERROR: API Error: " +:+
               message) +:+ " | Context: " +:+ json) +:+
             " | Error: " +:+ LG.err_message err +:+ rest)]) ∧
  ((∃ name, LG.minLevel this = LG.Inherited name) →
   LG.apiError env this message err context s = s) ∧
  (context = None → LG.err_config_url err = JSON.Undefined →
   LG.err_config_method err = JSON.Undefined →
   LG.err_response_status err = JSON.Undefined →
   json = "{}").
Proof.
  intros json.
  assert (LG.shouldLog this LG.ERROR = true ↔
          ∃ minLevel, LG.minLevel this = LG.Level minLevel) as Hiff.
  { unfold LG.shouldLog. destruct (LG.minLevel this) as [minLevel|name].
    - rewrite bool_decide_eq_true. split; [by exists minLevel|].
      intros _. destruct minLevel; simpl; lia.
    - split; [done|]. by intros [? ?]. }
  split_and!.
  - exact Hiff.
  - intros Hl%Hiff.
    destruct (LoggerFacts.step_accepted env this s (LG.ApiError message err context)
                LG.ERROR ("API Error: " +:+ message)
                (Some (LoggerFacts.api_context err context)) (Some err) eq_refl Hl)
      as (_ & Hconsole & _).
    cbn [LG.step] in Hconsole. rewrite Hconsole.
    assert (LoggerFacts.printed this LG.ERROR = true) as ->.
    { unfold LoggerFacts.printed. by destruct (LG.isDevelopment this). }
    unfold LG.formatMessage, LG.now. cbn [fst LG.dates LG.level_name].
    unfold json.
    destruct (LoggerFacts.api_context err context) as [|prop props] eqn:Hctx.
    { by apply LoggerFacts.set_property_nonempty in Hctx. }
    destruct (LG.err_stack err) as [stack|].
    + case_decide.
      * exists EmptyString. rewrite LoggerFacts.append_empty. reflexivity.
      * exists (" | Stack: " +:+ stack).
        rewrite (LoggerFacts.append_assoc _ (" | Error: " +:+ LG.err_message err)).
        by rewrite (LoggerFacts.append_assoc " | Error: ").
    + exists EmptyString. rewrite LoggerFacts.append_empty. reflexivity.
  - intros [name Hname].
    apply (LoggerFacts.step_rejected env this s (LG.ApiError message err context)
             LG.ERROR eq_refl).
    unfold LG.shouldLog. by rewrite Hname.
  - intros -> Hurl Hmethod Hstatus. unfold json, LoggerFacts.api_context.
    rewrite Hurl, Hmethod, Hstatus. vm_compute. reflexivity.
Qed.

Lemma apiError_scenario :
  let env' := LG.MkEnv false "toString" true (λ n, pretty n) in
  LG.console (LG.apiError production (LG.new production) "load" networkError None LG.init) =
    [(LG.console_error, "[0] ERROR: API Error: load | Context: {} | Error: Network Error")] ∧
  LG.interpolate (JSON.stringify
    (JSON.Obj (LoggerFacts.api_context networkError None))) = "{}" ∧
  LG.apiError env' (LG.new env') "load" networkError None LG.init = LG.init.
Proof.
  intros env'. split; [vm_compute; reflexivity|]. split.
  - apply (apiError_always_prints_a_context production (LG.new production) LG.init
             "load" networkError None); reflexivity.
  - apply (apiError_always_prints_a_context env' (LG.new env') LG.init
             "load" networkError None).
    by exists "toString".
Defined.

(** The closure of [coalesceFunction] registers exactly the operations in
    flight: [getPendingCount()] of its coalescer equals their number. *)
Theorem coalesced_function_registers_what_is_in_flight {A V E : Type}
    (fn : A → thunk E) (keyFn : A → string) (s : RC.state string V E) :
  CF.reachable fn keyFn s → RC.getPendingCount s = in_flight (RC.rt s).
Proof.
  intros Hs. apply Nat.le_antisymm.
  - apply coalesceFunctionFacts.wrapper_reachable, rc_reachable_coherent in Hs as [_ Hp].
    by apply pending_count_le.
  - by apply coalesceFunctionFacts.registered_count,
      (coalesceFunctionFacts.reachable_registered fn keyFn).
Qed.

Lemma registers_in_flight_scenario :
  let s := wrapper_after_events
    [CF.Apply [JSON.Str "a"]; CF.Apply [JSON.Str "b"]; CF.Apply [JSON.Str "a"];
     CF.Settle 0 (Fulfilled "A"); CF.React 0] in
  in_flight (RC.rt s) = 1 ∧ RC.getPendingCount s = in_flight (RC.rt s).
Proof.
  intros s. split; [vm_compute; reflexivity|].
  apply (coalesced_function_registers_what_is_in_flight fetchUser createKey).
  exists [CF.Apply [JSON.Str "a"]; CF.Apply [JSON.Str "b"]; CF.Apply [JSON.Str "a"];
          CF.Settle 0 (Fulfilled "A"); CF.React 0].
  vm_compute. reflexivity.
Defined.

(** ** CachedRequestCoalescer without a ttl *)

(** Without a ttl (unset or [0]) a cached coalescer is a plain one: along
    any run its pending map and its promises are those of a
    [RequestCoalescer] driven by the same calls, and nothing is ever
    cached. *)
Theorem without_ttl_it_is_a_plain_coalescer `{Countable K} `{!CRC.JSKey K} {V E : Type}
    opts t (evs : list (CRC.event K V E)) :
  ¬ ttl_configured opts →
  plain <$> CRC.run (CRC.init opts t) evs = RC.run RC.init (omap plain_event evs) ∧
  (∀ s, CRC.run (CRC.init opts t) evs = Some s →
     CRC.cacheSize (CRC.getStats s) = 0 ∧ ∀ k, CRC.isCached k s = false).
Proof.
  intros Httl%not_ttl_configured. split.
  - by apply (plain_run (CRC.init opts t) evs).
  - intros s Hrun. assert (CRC.cache s = ∅) as Hcache.
    { apply reachable_uncached; [by exists opts, t, evs|].
      by rewrite (run_options _ _ _ Hrun). }
    split.
    + unfold CRC.getStats. cbn [CRC.cacheSize]. by rewrite Hcache, map_size_empty.
    + intros k. unfold CRC.isCached. by rewrite Hcache, lookup_empty.
Qed.

Lemma without_ttl_scenario :
  let evs := [CRC.Execute "k" op1; CRC.Execute "k" op2; CRC.Advance 5;
              CRC.Invalidate "k"; CRC.Execute "k" op3;
              CRC.Settle 0 (Fulfilled "v"); CRC.React 0; CRC.Deliver 1] in
  plain <$> CRC.run (CRC.init (CRC.Options None (Some 3%Z)) 0) evs =
    RC.run RC.init
      [RC.Execute "k" op1; RC.Execute "k" op2; RC.Clear "k"; RC.Execute "k" op3;
       RC.Settle 0 (Fulfilled "v"); RC.React 0; RC.Deliver 1] ∧
  is_Some (CRC.run (CRC.init (CRC.Options None (Some 3%Z)) 0) evs).
Proof.
  intros evs.
  destruct (without_ttl_it_is_a_plain_coalescer (K:=string) (V:=string) (E:=string)
              (CRC.Options None (Some 3%Z)) 0%Z evs) as [Hrun _].
  { intros (t & Ht & _). discriminate Ht. }
  split; [exact Hrun|]. vm_compute. eexists. reflexivity.
Defined.

(** After [clearLogs()] the store starts afresh: the calls that follow and
    pass the threshold are all that [getLogs()] returns, up to the newest
    hundred. *)
Theorem clearLogs_starts_afresh (env : LG.Env) (this : LG.Logger) s cs :
  LG.hasWindow env = true → Forall (LoggerFacts.accepted this) cs →
  LG.getLogs env (LG.clearLogs env s) = [] ∧
  LG.console (LG.clearLogs env s) = LG.console s ∧
  LG.getLogs env (LG.run env this s (LG.ClearLogs :: cs)) =
    LoggerFacts.keep_last 100 (LoggerFacts.entries_from env (LG.dates s) cs).
Proof.
  intros Hwin Hall.
  assert (LG.getLogs env (LG.clearLogs env s) = []) as Hempty.
  { unfold LG.getLogs, LG.clearLogs. by rewrite Hwin. }
  split_and!; [done|unfold LG.clearLogs; by rewrite Hwin|].
  change (LG.run env this s (LG.ClearLogs :: cs))
    with (LG.run env this (LG.clearLogs env s) cs).
  rewrite LoggerFacts.run_accepted; [|done..|rewrite Hempty; simpl; lia].
  rewrite Hempty. unfold LG.clearLogs. by rewrite Hwin.
Qed.

Lemma clearLogs_scenario :
  let this := LG.new production in
  let s := LG.run production this LG.init [LG.Warn "old" None None] in
  LG.message <$> LG.getLogs production s = ["old"] ∧
  LG.message <$> LG.getLogs production
      (LG.run production this s [LG.ClearLogs; LG.Error_ "new" None None]) = ["new"].
Proof.
  intros this s. split; [vm_compute; reflexivity|].
  destruct (clearLogs_starts_afresh production this s [LG.Error_ "new" None None])
    as (_ & _ & ->); [reflexivity| |vm_compute; reflexivity].
  constructor; [|constructor]. exists LG.ERROR. split; reflexivity.
Defined.

(** ** CachedRequestCoalescer: the keys [NaN] and [undefined] *)

(** [indexOf] never finds the key [NaN].  A read hit and a cache write
    append it to the access order without removing its earlier occurrence,
    and [invalidate] deletes its cache entry but leaves every occurrence in
    the access order. *)
Theorem NaN_key_is_never_removed_from_the_access_order
    `{Countable K} `{!CRC.JSKey K} {V E : Type} (s : CRC.state K V E) k :
  CRC.isNaN k = true →
  CRC.accessOrder (CRC.updateAccessOrder k s) = CRC.accessOrder s ++ [k] ∧
  (∀ op entry,
     CRC.cache s !! k = Some entry → CRC.isCacheValid entry s = true →
     CRC.accessOrder (CRC.execute k op s) = CRC.accessOrder s ++ [k]) ∧
  (∀ v, CRC.accessOrder (CRC.setCacheEntry k v s) =
          CRC.accessOrder (CRC.evict s) ++ [k]) ∧
  CRC.accessOrder (CRC.invalidate k s) = CRC.accessOrder s ∧
  CRC.cache (CRC.invalidate k s) = delete k (CRC.cache s).
Proof.
  intros Hk. split_and!.
  - unfold CRC.updateAccessOrder. simpl. by rewrite splice_key_NaN.
  - intros op entry Hentry Hvalid. rewrite (execute_hit _ _ _ _ Hentry Hvalid).
    simpl. by rewrite splice_key_NaN.
  - intros v. rewrite setCacheEntry_accessOrder. by rewrite splice_key_NaN.
  - unfold CRC.invalidate. simpl. by rewrite splice_key_NaN.
  - done.
Qed.

(** With [maxSize = 2]: the key [NaN] is cached, read and invalidated, which
    leaves it listed twice; the stale occurrences are then evicted in place
    of cached keys, and the cache comes to hold three entries. *)
Lemma NaN_key_scenario :
  let opts := CRC.Options (Some 1000%Z) (Some 2%Z) in
  let s := after_key_events opts
    [CRC.Execute CRC.KeyNaN fetch; CRC.Settle 0 (Fulfilled "v0"); CRC.React 0;
     CRC.Execute CRC.KeyNaN fetch] in
  let s' := after_key_events opts
    [CRC.Execute CRC.KeyNaN fetch; CRC.Settle 0 (Fulfilled "v0"); CRC.React 0;
     CRC.Execute CRC.KeyNaN fetch; CRC.Invalidate CRC.KeyNaN;
     CRC.Execute (CRC.KeyString "a") fetch; CRC.Settle 1 (Fulfilled "v1"); CRC.React 1;
     CRC.Execute (CRC.KeyString "b") fetch; CRC.Settle 2 (Fulfilled "v2"); CRC.React 2;
     CRC.Execute (CRC.KeyString "c") fetch; CRC.Settle 3 (Fulfilled "v3");
     CRC.React 3] in
  CRC.accessOrder s = [CRC.KeyNaN; CRC.KeyNaN] ∧
  CRC.accessOrder (CRC.invalidate CRC.KeyNaN s) = [CRC.KeyNaN; CRC.KeyNaN] ∧
  CRC.cache (CRC.invalidate CRC.KeyNaN s) = ∅ ∧
  CRC.cacheSize (CRC.getStats s') = 3 ∧
  CRC.accessOrder s' =
    [CRC.KeyNaN; CRC.KeyString "a"; CRC.KeyString "b"; CRC.KeyString "c"].
Proof.
  intros opts s s'.
  destruct (NaN_key_is_never_removed_from_the_access_order s CRC.KeyNaN)
    as (_ & _ & _ & Hao & Hcache); [reflexivity|].
  split_and!.
  - vm_compute; reflexivity.
  - rewrite Hao. vm_compute; reflexivity.
  - rewrite Hcache. vm_compute; reflexivity.
  - vm_compute; reflexivity.
  - vm_compute; reflexivity.
Defined.

(** The key [undefined] at the front of the access order is never evicted
    and blocks every eviction: [setCacheEntry] takes [accessOrder[0]] for
    missing, deletes nothing, and adds the new entry, so each new key makes
    the cache one larger, whatever [maxSize] says; and [undefined] stays at
    the front. *)
Theorem undefined_front_key_blocks_eviction
    `{Countable K} `{!CRC.JSKey K} {V E : Type}
    (s : CRC.state K V E) k v lruKey rest :
  CRC.accessOrder s = lruKey :: rest → CRC.isUndefined lruKey = true →
  CRC.evict s = s ∧
  CRC.cache (CRC.setCacheEntry k v s) = <[k := CRC.Entry v (CRC.now s)]> (CRC.cache s) ∧
  (CRC.cache s !! k = None →
     size (CRC.cache (CRC.setCacheEntry k v s)) = S (size (CRC.cache s))) ∧
  (k ≠ lruKey → head (CRC.accessOrder (CRC.setCacheEntry k v s)) = Some lruKey).
Proof.
  intros Hao Hu.
  assert (CRC.evict s = s) as Hevict by (by apply (evict_undefined s lruKey rest)).
  assert (CRC.cache (CRC.setCacheEntry k v s) =
          <[k := CRC.Entry v (CRC.now s)]> (CRC.cache s)) as Hcache.
  { by rewrite setCacheEntry_cache, Hevict. }
  split_and!; [done..| |].
  - intros Hk. by rewrite Hcache, map_size_insert_None.
  - intros Hne. rewrite setCacheEntry_accessOrder, Hevict, Hao.
    destruct (CRC.isNaN k) eqn:Hk.
    + by rewrite splice_key_NaN.
    + by rewrite splice_key_found, decide_False by done.
Qed.

(** With [maxSize = 2] and [undefined] the first key cached, the cache
    comes to hold three and then four entries. *)
Lemma undefined_key_scenario :
  let opts := CRC.Options (Some 1000%Z) (Some 2%Z) in
  let s := after_key_events opts
    [CRC.Execute CRC.KeyUndefined fetch; CRC.Settle 0 (Fulfilled "v0"); CRC.React 0;
     CRC.Execute (CRC.KeyString "a") fetch; CRC.Settle 1 (Fulfilled "v1");
     CRC.React 1] in
  let s' := after_key_events opts
    [CRC.Execute CRC.KeyUndefined fetch; CRC.Settle 0 (Fulfilled "v0"); CRC.React 0;
     CRC.Execute (CRC.KeyString "a") fetch; CRC.Settle 1 (Fulfilled "v1"); CRC.React 1;
     CRC.Execute (CRC.KeyString "b") fetch; CRC.Settle 2 (Fulfilled "v2"); CRC.React 2;
     CRC.Execute (CRC.KeyString "c") fetch; CRC.Settle 3 (Fulfilled "v3");
     CRC.React 3] in
  CRC.cacheSize (CRC.getStats s) = 2 ∧
  size (CRC.cache (CRC.setCacheEntry (CRC.KeyString "b") "v2" s)) = 3 ∧
  head (CRC.accessOrder (CRC.setCacheEntry (CRC.KeyString "b") "v2" s)) =
    Some CRC.KeyUndefined ∧
  CRC.cacheSize (CRC.getStats s') = 4.
Proof.
  intros opts s s'.
  destruct (undefined_front_key_blocks_eviction s (CRC.KeyString "b") "v2"
              CRC.KeyUndefined [CRC.KeyString "a"])
    as (_ & _ & Hsize & Hhead); [vm_compute; reflexivity|reflexivity|].
  split_and!.
  - vm_compute; reflexivity.
  - rewrite Hsize by (vm_compute; reflexivity). vm_compute; reflexivity.
  - apply Hhead. discriminate.
  - vm_compute; reflexivity.
Defined.
